(** * Appily agent: streaming action parser, action queue, file mutator
      and generation supervisor

    A shallow embedding of the TypeScript sources
    - class [ResponseProcessor] ([processChunk], [processActionTags]; its
      text is found in [src/utils/project-cleanup.ts]) and the loop of
      [streamResponse] that feeds it,
    - [src/utils/action-queue.ts] (class [ActionQueue]),
    - [src/utils/path-utils.ts] and [src/services/file-operation-service.ts],
    - [src/services/code-generation.ts] ([generateProjectCode]),
    together with the properties of the specification that are checked
    against them.

    JavaScript strings are sequences of UTF-16 code units; they are
    modelled as lists of code units ([N]).  Logging, timing, token
    statistics and the Firestore mirror of the live preview have no
    influence on the control flow modelled here and are left out. *)

From Stdlib Require Import NArith Ascii String.
From stdpp Require Import base numbers option list gmap.

Local Open Scope N_scope.
Local Open Scope nat_scope.

(** ** JavaScript string primitives *)

Module JS.

Abbreviation char := N (only parsing).
Abbreviation str := (list N) (only parsing).

(** An ASCII literal as a JavaScript string. *)
Definition lit (s : string) : str :=
  (fun a : ascii => N_of_ascii a) <$> list_ascii_of_string s.
Arguments lit : simpl never.

Definition dq : char := 34%N.     (* the double quote *)
Definition lt : char := 60%N.     (* < *)
Definition gt : char := 62%N.     (* > *)
Definition nl : char := 10%N.     (* \n *)
Definition sp : char := 32%N.     (* the space *)
Definition slash : char := 47%N.  (* / *)
Definition dot : char := 46%N.    (* . *)

(** [WhiteSpace] and [LineTerminator] of ECMAScript: what [\s] matches
    and what [String.prototype.trim] strips. *)
Definition isWhiteSpace (c : char) : bool :=
  ((9 <=? c) && (c <=? 13) || (c =? 32) || (c =? 160) || (c =? 5760)
   || (8192 <=? c) && (c <=? 8202) || (c =? 8232) || (c =? 8233)
   || (c =? 8239) || (c =? 8287) || (c =? 12288) || (c =? 65279))%N.

Fixpoint takeWhile (p : char -> bool) (s : str) : str :=
  match s with
  | c :: s' => if p c then c :: takeWhile p s' else []
  | [] => []
  end.

Fixpoint dropWhile (p : char -> bool) (s : str) : str :=
  match s with
  | c :: s' => if p c then dropWhile p s' else s
  | [] => []
  end.

(** [s.trim()] *)
Definition trimStart (s : str) : str := dropWhile isWhiteSpace s.
Definition trimEnd (s : str) : str := reverse (dropWhile isWhiteSpace (reverse s)).
Definition trim (s : str) : str := trimEnd (trimStart s).

(** [s.startsWith(p)] *)
Fixpoint startsWith (p s : str) : bool :=
  match p, s with
  | [], _ => true
  | c :: p', d :: s' => (c =? d)%N && startsWith p' s'
  | _ :: _, [] => false
  end.

(** Position of the first occurrence of [needle] in [s]. *)
Fixpoint search (needle s : str) : option nat :=
  if startsWith needle s then Some 0
  else match s with
       | [] => None
       | _ :: s' => S <$> search needle s'
       end.

(** [s.indexOf(needle, from)]; [None] stands for [-1]. *)
Definition indexOfFrom (needle s : str) (from : nat) : option nat :=
  let from' := from `min` length s in
  (fun k => from' + k) <$> search needle (drop from' s).

(** [s.indexOf(needle)] *)
Definition indexOf (needle s : str) : option nat := indexOfFrom needle s 0.

(** [s.includes(needle)] *)
Definition includes (needle s : str) : bool := bool_decide (is_Some (indexOf needle s)).

(** [s.substring(a, b)]: the arguments are swapped when [a > b] and
    clamped to the length of [s]. *)
Definition substring (s : str) (a b : nat) : str :=
  take (a `max` b - a `min` b) (drop (a `min` b) s).

(** [s.substring(a)] *)
Definition substringFrom (s : str) (a : nat) : str := drop a s.

End JS.

Import JS.

(** ** The stream tag parser ([ResponseProcessor]) *)

Module Parser.

Inductive ActionType := CREATE | EDIT | DELETE | COMMAND | TEXT.

#[global] Instance ActionType_eq_dec : EqDecision ActionType.
Proof. solve_decision. Defined.

(** The arguments of one call [actionQueue.addAction(type, path, content)];
    also the shape of [currentFileAction]. *)
Record Action := mkAction {
  a_type : ActionType;
  a_path : str;
  a_content : str
}.

#[global] Instance Action_eq_dec : EqDecision Action.
Proof. solve_decision. Defined.

(** The fields of [ResponseProcessor] that decide which actions are
    emitted. *)
Record ResponseProcessor := mkRP {
  chunkBuffer : str;
  fullResponse : str;
  currentFileAction : option Action;
  generatedFiles : gmap str str
}.

Definition initialProcessor (initialGeneratedFiles : gmap str str) : ResponseProcessor :=
  {| chunkBuffer := []; fullResponse := [];
     currentFileAction := None; generatedFiles := initialGeneratedFiles |}.

Definition closingTag : str := lit "</action>".

(** *** The start-tag pattern

    [/<action type='(CREATE|EDIT|DELETE|COMMAND|TEXT)'(?:\s+path='([^']+)')?\s*>/]
    (in comments ['] stands for the double quote).

    No two alternatives of the type group share a first-differing
    prefix, every greedy run is followed by a character outside its
    class, and the optional group starts with white space followed by
    [p] while its continuation wants white space followed by [>]: at a
    given position the pattern has at most one way to match, so it is
    written as a direct scanner. *)

Definition typeName (t : ActionType) : str :=
  match t with
  | CREATE => lit "CREATE" | EDIT => lit "EDIT" | DELETE => lit "DELETE"
  | COMMAND => lit "COMMAND" | TEXT => lit "TEXT"
  end.

Definition stripPrefix (p s : str) : option str :=
  if startsWith p s then Some (drop (length p) s) else None.

Fixpoint matchAlternatives (alts : list ActionType) (s : str) : option (ActionType * str) :=
  match alts with
  | [] => None
  | t :: alts' =>
      match stripPrefix (typeName t) s with
      | Some rest => Some (t, rest)
      | None => matchAlternatives alts' s
      end
  end.

Definition isNotQuote (c : char) : bool := negb (c =? dq)%N.

(** [\s*>] *)
Definition matchTagEnd (s : str) : option str :=
  match dropWhile isWhiteSpace s with
  | c :: rest => if (c =? gt)%N then Some rest else None
  | [] => None
  end.

(** [\s+path='([^']+)'] followed by [\s*>] *)
Definition matchPathAttr (s : str) : option (str * str) :=
  match takeWhile isWhiteSpace s with
  | [] => None
  | _ :: _ =>
      rest ← stripPrefix (lit "path=" ++ [dq]) (dropWhile isWhiteSpace s);
      match takeWhile isNotQuote rest with
      | [] => None
      | p =>
          rest' ← stripPrefix [dq] (dropWhile isNotQuote rest);
          rest'' ← matchTagEnd rest';
          Some (p, rest'')
      end
  end.

(** The pattern anchored at the start of [s]: the type, the path group
    ([None] when it did not take part) and the text after the match. *)
Definition matchAt (s : str) : option (ActionType * option str * str) :=
  rest ← stripPrefix (lit "<action type=" ++ [dq]) s;
  '(t, rest1) ← matchAlternatives [CREATE; EDIT; DELETE; COMMAND; TEXT] rest;
  rest2 ← stripPrefix [dq] rest1;
  match matchPathAttr rest2 with
  | Some (p, after) => Some (t, Some p, after)
  | None => after ← matchTagEnd rest2; Some (t, None, after)
  end.

(** The result array of [chunkBuffer.match(actionStartRegex)]. *)
Record RegExpMatch := mkMatch {
  m_index : nat;           (* match.index *)
  m_0 : str;               (* match[0] *)
  m_1 : ActionType;        (* match[1] *)
  m_2 : option str         (* match[2], undefined when the group is absent *)
}.

Fixpoint execFrom (i : nat) (s : str) : option RegExpMatch :=
  match matchAt s with
  | Some (t, p, after) =>
      Some {| m_index := i; m_0 := take (length s - length after) s; m_1 := t; m_2 := p |}
  | None =>
      match s with
      | [] => None
      | _ :: s' => execFrom (S i) s'
      end
  end.

Definition matchActionStart (s : str) : option RegExpMatch := execFrom 0 s.

(** *** [processActionTags]

    One pass through the body of [processActionTags] up to its
    recursive call: [Some (p', out)] when the pass consumed something
    and calls itself again on [p'] after the [addAction] calls [out],
    [None] when the pass returns without a recursive call (it then
    leaves the processor as it is). *)

Definition isCreateOrEdit (t : ActionType) : bool :=
  match t with CREATE | EDIT => true | _ => false end.

(** [generatedFiles[path] = content] on a plain object: the assignment
    makes or updates an own property, except for the key [__proto__]
    when it is not an own property yet, which reaches the setter of
    [Object.prototype]; that setter ignores a string. *)
Definition assign (files : gmap str str) (path content : str) : gmap str str :=
  if bool_decide (path = lit "__proto__") && bool_decide (files !! path = None)
  then files
  else <[path := content]> files.

Definition pass (rp : ResponseProcessor) : option (ResponseProcessor * list Action) :=
  let buf := chunkBuffer rp in
  match currentFileAction rp with
  | Some cur =>
      match indexOf closingTag buf with
      | Some closingIndex =>
          let newContent := substring buf 0 closingIndex in
          let cur' := {| a_type := a_type cur; a_path := a_path cur;
                         a_content := a_content cur ++ newContent |} in
          let files :=
            if isCreateOrEdit (a_type cur') && negb (bool_decide (a_path cur' = []))
            then assign (generatedFiles rp) (a_path cur') (a_content cur')
            else generatedFiles rp in
          Some ({| chunkBuffer := substringFrom buf (closingIndex + length closingTag);
                   fullResponse := fullResponse rp;
                   currentFileAction := None;
                   generatedFiles := files |},
                [cur'])
      | None => None
      end
  | None =>
      match matchActionStart buf with
      | Some m =>
          let actionType := m_1 m in
          let actionPath := default [] (m_2 m) in
          match actionType with
          | TEXT =>
              let textStart := m_index m + length (m_0 m) in
              match indexOfFrom closingTag buf textStart with
              | Some closingIndex =>
                  let textContent := trim (substring buf textStart closingIndex) in
                  Some ({| chunkBuffer := substringFrom buf (closingIndex + length closingTag);
                           fullResponse := fullResponse rp;
                           currentFileAction := None;
                           generatedFiles := generatedFiles rp |},
                        [mkAction TEXT [] textContent])
              | None => None
              end
          | COMMAND =>
              let commandStart := m_index m + length (m_0 m) in
              match indexOfFrom closingTag buf commandStart with
              | Some closingIndex =>
                  let commandContent := trim (substring buf commandStart closingIndex) in
                  Some ({| chunkBuffer := substringFrom buf (m_index m + length (m_0 m));
                           fullResponse := fullResponse rp;
                           currentFileAction := Some (mkAction COMMAND [] commandContent);
                           generatedFiles := generatedFiles rp |},
                        [])
              | None => None
              end
          | CREATE | EDIT | DELETE =>
              if negb (bool_decide (actionType = DELETE)) || negb (bool_decide (actionPath = []))
              then Some ({| chunkBuffer := substringFrom buf (m_index m + length (m_0 m));
                            fullResponse := fullResponse rp;
                            currentFileAction := Some (mkAction actionType actionPath []);
                            generatedFiles := generatedFiles rp |},
                         [])
              else None
          end
      | None => None
      end
  end.

(** The recursion of [processActionTags]; every pass that recurses
    shortens the buffer, so [S (length chunkBuffer)] rounds are enough
    (lemma [processActionTags_quiescent]). *)
Fixpoint passes (fuel : nat) (rp : ResponseProcessor) : ResponseProcessor * list Action :=
  match fuel with
  | 0 => (rp, [])
  | S fuel' =>
      match pass rp with
      | None => (rp, [])
      | Some (rp', out) =>
          let '(rp'', out') := passes fuel' rp' in (rp'', out ++ out')
      end
  end.

Definition processActionTags (rp : ResponseProcessor) : ResponseProcessor * list Action :=
  passes (S (length (chunkBuffer rp))) rp.

(** [processChunk(text)]: the processor afterwards and the actions added
    to the queue during the call. *)
Definition receive (rp : ResponseProcessor) (text : str) : ResponseProcessor :=
  {| chunkBuffer := chunkBuffer rp ++ text;
     fullResponse := fullResponse rp ++ text;
     currentFileAction := currentFileAction rp;
     generatedFiles := generatedFiles rp |}.

Definition processChunk (rp : ResponseProcessor) (text : str) : ResponseProcessor * list Action :=
  processActionTags (receive rp text).

(** The loop of [streamResponse]: every non-empty fragment of the model
    stream goes through [processChunk]; nothing else is done to the
    processor when the stream ends. *)
Fixpoint streamChunks (rp : ResponseProcessor) (chunks : list str) : ResponseProcessor * list Action :=
  match chunks with
  | [] => (rp, [])
  | c :: chunks' =>
      match c with
      | [] => streamChunks rp chunks'
      | _ :: _ =>
          let '(rp', out) := processChunk rp c in
          let '(rp'', out') := streamChunks rp' chunks' in
          (rp'', out ++ out')
      end
  end.

(** Feeding fragments one at a time to [processChunk]. *)
Fixpoint feed (rp : ResponseProcessor) (chunks : list str) : ResponseProcessor * list Action :=
  match chunks with
  | [] => (rp, [])
  | c :: chunks' =>
      let '(rp', out) := processChunk rp c in
      let '(rp'', out') := feed rp' chunks' in
      (rp'', out ++ out')
  end.

End Parser.

Import Parser.

(** ** Regular expressions with back-references

    The patterns of [executeCommand] use greedy quantifiers whose
    choice the rest of the pattern can revise, and back-references; they
    are run by a backtracking matcher that follows the ECMAScript
    semantics: alternatives left to right, greedy quantifiers longest
    first, an iteration of a quantifier that consumes nothing is
    refused, the leftmost starting position wins. *)

Module RegExp.

Inductive regex :=
| Eps
| Chr (c : char)
| Cls (p : char -> bool)
| Seq (r1 r2 : regex)
| Alt (r1 r2 : regex)
| Star (r : regex)
| Group (n : nat) (r : regex)
| Backref (n : nat).

Definition Plus (r : regex) : regex := Seq r (Star r).

Fixpoint Lit (s : str) : regex :=
  match s with
  | [] => Eps
  | c :: s' => Seq (Chr c) (Lit s')
  end.

(** [Canonicalize] under the [i] flag, on the characters the patterns
    below can compare (ASCII and white space): upper-casing of the
    ASCII letters. *)
Definition canonicalize (ignoreCase : bool) (c : char) : char :=
  if ignoreCase && (97 <=? c)%N && (c <=? 122)%N then (c - 32)%N else c.

Fixpoint startsWithCanon (ignoreCase : bool) (p s : str) : bool :=
  match p, s with
  | [], _ => true
  | c :: p', d :: s' =>
      (canonicalize ignoreCase c =? canonicalize ignoreCase d)%N
      && startsWithCanon ignoreCase p' s'
  | _ :: _, [] => false
  end.

Definition captures := gmap nat str.

Section Matcher.
Context {R : Type} (ignoreCase : bool).

(** [matcher r s caps k]: match [r] at the start of [s] and hand the
    rest of the input and the captures to the continuation [k]; [None]
    makes the caller try its next choice. *)
Fixpoint matcher (r : regex) (s : str) (caps : captures)
    (k : str -> captures -> option R) {struct r} : option R :=
  match r with
  | Eps => k s caps
  | Chr c =>
      match s with
      | d :: s' =>
          if (canonicalize ignoreCase c =? canonicalize ignoreCase d)%N
          then k s' caps else None
      | [] => None
      end
  | Cls p =>
      match s with
      | d :: s' => if p d then k s' caps else None
      | [] => None
      end
  | Seq r1 r2 => matcher r1 s caps (fun s' caps' => matcher r2 s' caps' k)
  | Alt r1 r2 =>
      match matcher r1 s caps k with
      | Some x => Some x
      | None => matcher r2 s caps k
      end
  | Star r' =>
      (fix iterate (n : nat) (s : str) (caps : captures) {struct n} : option R :=
         match n with
         | 0 => k s caps
         | S n' =>
             match matcher r' s caps
                     (fun s' caps' =>
                        if bool_decide (length s' < length s)
                        then iterate n' s' caps' else None) with
             | Some x => Some x
             | None => k s caps
             end
         end) (length s) s caps
  | Group n r' =>
      matcher r' s caps
        (fun s' caps' => k s' (<[n := take (length s - length s') s]> caps'))
  | Backref n =>
      match caps !! n with
      | None => k s caps
      | Some v =>
          if startsWithCanon ignoreCase v s then k (drop (length v) s) caps else None
      end
  end.

End Matcher.

(** The result of [RegExp.prototype.exec]: index, matched text and
    captures. *)
Record MatchResult := mkResult {
  r_index : nat;
  r_0 : str;
  r_caps : captures
}.

Fixpoint execAt (ignoreCase : bool) (r : regex) (i : nat) (s : str) : option MatchResult :=
  match matcher ignoreCase r s ∅ (fun s' caps => Some (s', caps)) with
  | Some (s', caps) =>
      Some {| r_index := i; r_0 := take (length s - length s') s; r_caps := caps |}
  | None =>
      match s with
      | [] => None
      | _ :: s' => execAt ignoreCase r (S i) s'
      end
  end.

(** [s.match(r)] for a pattern without the [g] flag. *)
Definition exec (ignoreCase : bool) (r : regex) (s : str) : option MatchResult :=
  execAt ignoreCase r 0 s.

(** [match[n]], [undefined] read as the empty string. *)
Definition group (m : MatchResult) (n : nat) : str := default [] (r_caps m !! n).

(** [s.replace(r, by)] for a pattern with the [g] flag and a
    replacement without [$]: after a match the search resumes behind it,
    one position further when the match is empty. *)
Fixpoint replaceAllFuel (fuel : nat) (ignoreCase : bool) (r : regex) (by_ : str) (s : str) : str :=
  match fuel with
  | 0 => s
  | S fuel' =>
      match exec ignoreCase r s with
      | None => s
      | Some m =>
          let before := take (r_index m) s in
          let after := drop (r_index m + length (r_0 m)) s in
          match r_0 m with
          | [] =>
              match after with
              | [] => before ++ by_
              | c :: after' => before ++ by_ ++ c :: replaceAllFuel fuel' ignoreCase r by_ after'
              end
          | _ :: _ => before ++ by_ ++ replaceAllFuel fuel' ignoreCase r by_ after
          end
      end
  end.

Definition replaceAll (ignoreCase : bool) (r : regex) (by_ s : str) : str :=
  replaceAllFuel (S (length s)) ignoreCase r by_ s.

(** [s.replace(pattern, by)] for a string pattern: the first occurrence
    only. *)
Definition replaceFirst (pattern by_ s : str) : str :=
  match indexOf pattern s with
  | Some i => take i s ++ by_ ++ drop (i + length pattern) s
  | None => s
  end.

(** Character classes. *)
Definition isWordChar (c : char) : bool :=
  ((48 <=? c) && (c <=? 57) || (65 <=? c) && (c <=? 90)
   || (97 <=? c) && (c <=? 122) || (c =? 95))%N.

Definition oneOf (s : str) (c : char) : bool := bool_decide (c ∈ s).

End RegExp.

Import RegExp.

(** ** Node's [path] module (POSIX flavour) *)

Module Path.

(** [s.split('/')] *)
Fixpoint splitOn (sep : char) (s : str) : list str :=
  match s with
  | [] => [[]]
  | c :: s' =>
      if (c =? sep)%N then [] :: splitOn sep s'
      else match splitOn sep s' with
           | seg :: segs => (c :: seg) :: segs
           | [] => [[c]]
           end
  end.

(** [segs.join('/')] *)
Fixpoint joinWith (sep : char) (segs : list str) : str :=
  match segs with
  | [] => []
  | [seg] => seg
  | seg :: segs' => seg ++ sep :: joinWith sep segs'
  end.

Definition dotdot : str := [dot; dot].

(** One segment of [normalizeString]: empty and [.] segments are
    skipped, [..] removes the last kept segment unless there is none or
    it is [..] itself, in which case it is kept when [allowAboveRoot]. *)
Definition pushSegment (allowAboveRoot : bool) (res : list str) (seg : str) : list str :=
  if bool_decide (seg = []) || bool_decide (seg = [dot]) then res
  else if bool_decide (seg = dotdot) then
    match reverse res with
    | last :: _ =>
        if bool_decide (last = dotdot)
        then (if allowAboveRoot then res ++ [dotdot] else res)
        else removelast res
    | [] => if allowAboveRoot then res ++ [dotdot] else res
    end
  else res ++ [seg].

Definition normalizeSegments (allowAboveRoot : bool) (segs : list str) : list str :=
  foldl (pushSegment allowAboveRoot) [] segs.

Definition normalizeString (p : str) (allowAboveRoot : bool) : str :=
  joinWith slash (normalizeSegments allowAboveRoot (splitOn slash p)).

(** [path.isAbsolute(p)] *)
Definition isAbsolute (p : str) : bool :=
  match p with
  | c :: _ => (c =? slash)%N
  | [] => false
  end.

Definition endsWithSlash (p : str) : bool :=
  match reverse p with
  | c :: _ => (c =? slash)%N
  | [] => false
  end.

(** [path.normalize(p)] *)
Definition normalize (p : str) : str :=
  match p with
  | [] => [dot]
  | _ :: _ =>
      let body := normalizeString p (negb (isAbsolute p)) in
      match body with
      | [] =>
          if isAbsolute p then [slash]
          else if endsWithSlash p then [dot; slash] else [dot]
      | _ :: _ =>
          let body' := if endsWithSlash p then body ++ [slash] else body in
          if isAbsolute p then slash :: body' else body'
      end
  end.

(** [path.join(a, b)] *)
Definition join (a b : str) : str :=
  match a, b with
  | [], [] => [dot]
  | [], _ => normalize b
  | _, [] => normalize a
  | _, _ => normalize (a ++ slash :: b)
  end.

(** The directory entry a path names: the segments left after [.] and
    [..] are resolved from the root. *)
Definition location (p : str) : list str :=
  normalizeSegments false (splitOn slash p).

(** [path.dirname(p)], as a location. *)
Definition dirnameLocation (p : str) : list str := removelast (location p).

End Path.

Import Path.
(** ** Path utilities ([path-utils.ts]) *)

Module PathUtils.

Inductive Error :=
| SecurityViolation     (* thrown by [resolveProjectPath] *)
| FsError.              (* an exception of an [fs] call *)

Inductive result (A : Type) :=
| Ok (a : A)
| Throw (e : Error).
Arguments Ok {A} a.
Arguments Throw {A} e.

(** [resolveProjectPath(projectDir, relativePath)] *)
Definition resolveProjectPath (projectDir relativePath : str) : result str :=
  if isAbsolute relativePath then
    if negb (startsWith projectDir relativePath) then Throw SecurityViolation
    else Ok relativePath
  else
    let normalizedPath := normalize relativePath in
    if startsWith dotdot normalizedPath then Throw SecurityViolation
    else Ok (join projectDir normalizedPath).

(** *** The file system the [fs] calls act on

    Entries are keyed by location; every call is recorded in a trace. *)

Inductive node := File (content : str) | Dir.

Inductive FsCall :=
| EnsureDir (loc : list str)
| PathExists (loc : list str)
| ReadFile (loc : list str)
| WriteFile (loc : list str) (content : str)
| Unlink (loc : list str).

Record World := mkWorld {
  entries : gmap (list str) node;
  trace : list FsCall
}.

Definition isWrite (c : FsCall) : bool :=
  match c with WriteFile _ _ | Unlink _ => true | _ => false end.

(** Computations that use the file system and may throw. *)
Definition M (A : Type) : Type := World -> result A * World.

#[global] Instance M_ret : MRet M := fun A a w => (Ok a, w).
#[global] Instance M_bind : MBind M := fun A B f m w =>
  match m w with
  | (Ok a, w') => f a w'
  | (Throw e, w') => (Throw e, w')
  end.

Definition ret {A} (a : A) : M A := mret a.
Definition throw {A} (e : Error) : M A := fun w => (Throw e, w).
Definition try_catch {A} (m : M A) (handler : Error -> M A) : M A :=
  fun w => match m w with
           | (Ok a, w') => (Ok a, w')
           | (Throw e, w') => handler e w'
           end.
Definition lift {A} (r : result A) : M A := fun w => (r, w).
Definition record (c : FsCall) : M unit :=
  fun w => (Ok tt, {| entries := entries w; trace := trace w ++ [c] |}).
Definition perform {A} (f : World -> result A * World) : M A := f.

(** The proper ancestors of a location and the location itself. *)
Definition prefixes (loc : list str) : list (list str) :=
  (fun n => take n loc) <$> seq 1 (length loc).

Definition isFile (w : World) (loc : list str) : bool :=
  match entries w !! loc with Some (File _) => true | _ => false end.

Definition isDir (w : World) (loc : list str) : bool :=
  match loc with
  | [] => true
  | _ => match entries w !! loc with Some Dir => true | _ => false end
  end.

(** [fs.ensureDir(p)] *)
Definition ensureDir (p : str) : M unit :=
  record (EnsureDir (location p)) ;;
  perform (fun w =>
    if existsb (isFile w) (prefixes (location p)) then (Throw FsError, w)
    else (Ok tt,
          {| entries := foldr (fun d m => <[d := Dir]> m) (entries w) (prefixes (location p));
             trace := trace w |})).

(** A path with a trailing slash names a directory: it is resolved as
    the directory of that name and to nothing else. *)

(** [fs.pathExists(p)] *)
Definition pathExists (p : str) : M bool :=
  record (PathExists (location p)) ;;
  perform (fun w =>
    (Ok (if endsWithSlash p then isDir w (location p)
         else bool_decide (location p = []) || bool_decide (is_Some (entries w !! location p))),
     w)).

(** [fs.readFile(p, { encoding })] *)
Definition readFile (p : str) : M str :=
  record (ReadFile (location p)) ;;
  perform (fun w =>
    if endsWithSlash p then (Throw FsError, w)
    else match entries w !! location p with
         | Some (File c) => (Ok c, w)
         | _ => (Throw FsError, w)
         end).

(** The text a file holds after [content] was written to it as UTF-8:
    a surrogate that is not part of a pair has no encoding and is stored
    as U+FFFD, which is what reading the file returns. *)
Definition isHighSurrogate (c : char) : bool := ((55296 <=? c) && (c <=? 56319))%N.
Definition isLowSurrogate (c : char) : bool := ((56320 <=? c) && (c <=? 57343))%N.

Fixpoint toWellFormed (s : str) : str :=
  match s with
  | [] => []
  | c :: s' =>
      if isHighSurrogate c then
        match s' with
        | d :: s'' =>
            if isLowSurrogate d then c :: d :: toWellFormed s''
            else 65533%N :: toWellFormed s'
        | [] => [65533%N]
        end
      else if isLowSurrogate c then 65533%N :: toWellFormed s'
      else c :: toWellFormed s'
  end.

(** [fs.writeFile(p, content)] *)
Definition writeFile (p : str) (content : str) : M unit :=
  record (WriteFile (location p) content) ;;
  perform (fun w =>
    if endsWithSlash p || isDir w (location p) || negb (isDir w (removelast (location p)))
    then (Throw FsError, w)
    else (Ok tt, {| entries := <[location p := File (toWellFormed content)]> (entries w);
                    trace := trace w |})).

(** [fs.unlink(p)] *)
Definition unlink (p : str) : M unit :=
  record (Unlink (location p)) ;;
  perform (fun w =>
    if negb (endsWithSlash p) && isFile w (location p)
    then (Ok tt, {| entries := delete (location p) (entries w); trace := trace w |})
    else (Throw FsError, w)).

(** [fileExistsInProject] *)
Definition fileExistsInProject (projectDir relativePath : str) : M bool :=
  fullPath ← lift (resolveProjectPath projectDir relativePath);
  pathExists fullPath.

(** [readProjectFileAsync] *)
Definition readProjectFileAsync (projectDir relativePath : str) : M str :=
  fullPath ← lift (resolveProjectPath projectDir relativePath);
  readFile fullPath.

(** [path.dirname] is only used to name the directory handed to
    [fs.ensureDir]; [ensureDirOf p] is [fs.ensureDir(path.dirname(p))]. *)
Definition ensureDirOf (p : str) : M unit :=
  record (EnsureDir (dirnameLocation p)) ;;
  perform (fun w =>
    if existsb (isFile w) (prefixes (dirnameLocation p)) then (Throw FsError, w)
    else (Ok tt,
          {| entries := foldr (fun d m => <[d := Dir]> m) (entries w) (prefixes (dirnameLocation p));
             trace := trace w |})).

(** [writeProjectFileAsync] *)
Definition writeProjectFileAsync (projectDir relativePath content : str) : M unit :=
  fullPath ← lift (resolveProjectPath projectDir relativePath);
  ensureDirOf fullPath;;
  writeFile fullPath content.

(** [deleteProjectFileAsync] *)
Definition deleteProjectFileAsync (projectDir relativePath : str) : M unit :=
  fullPath ← lift (resolveProjectPath projectDir relativePath);
  ex ← pathExists fullPath;
  if (ex : bool) then unlink fullPath else ret tt.

End PathUtils.

Import PathUtils.

(** ** File operations ([file-operation-service.ts]) *)

Module FileOps.

(** *** [executeCommand] *)

Definition ws : regex := Cls isWhiteSpace.

(** [/\s*\n+\s*/g] *)
Definition newlineRun : regex := Seq (Star ws) (Seq (Plus (Chr nl)) (Star ws)).

(** [/(npm\s+(install|run)|npx\s+[\w@.-]+)\s+([\w\s@.-]+)(\s+\1\s+\3)/i] *)
Definition npmPattern : regex :=
  Seq (Group 1 (Alt (Seq (Lit (lit "npm"))
                         (Seq (Plus ws) (Group 2 (Alt (Lit (lit "install")) (Lit (lit "run"))))))
                    (Seq (Lit (lit "npx"))
                         (Seq (Plus ws)
                              (Plus (Cls (fun c => isWordChar c || oneOf (lit "@.-") c)))))))
 (Seq (Plus ws)
 (Seq (Group 3 (Plus (Cls (fun c => isWordChar c || isWhiteSpace c || oneOf (lit "@.-") c))))
      (Group 4 (Seq (Plus ws) (Seq (Backref 1) (Seq (Plus ws) (Backref 3))))))).

(** [/(npx\s+shadcn@latest\s+add\s+--yes\s+--overwrite\s+--path=[\w/.-]+)(\s+[\w\s-]+)(\s+\1)/i] *)
Definition shadcnPattern : regex :=
  Seq (Group 1 (Seq (Lit (lit "npx")) (Seq (Plus ws)
               (Seq (Lit (lit "shadcn@latest")) (Seq (Plus ws)
               (Seq (Lit (lit "add")) (Seq (Plus ws)
               (Seq (Lit (lit "--yes")) (Seq (Plus ws)
               (Seq (Lit (lit "--overwrite")) (Seq (Plus ws)
               (Seq (Lit (lit "--path="))
                    (Plus (Cls (fun c => isWordChar c || oneOf (lit "/.-") c)))))))))))))))
 (Seq (Group 2 (Seq (Plus ws)
                    (Plus (Cls (fun c => isWordChar c || isWhiteSpace c || oneOf (lit "-") c)))))
      (Group 3 (Seq (Plus ws) (Backref 1)))).

(** The command line [executeCommand] runs and reports. *)
Definition cleanCommand (command : str) : str :=
  let cleanedCommand := replaceAll false newlineRun [sp] (trim command) in
  if bool_decide (20 < length cleanedCommand) then
    let halfLength := length cleanedCommand / 2 in
    let firstHalf := substring cleanedCommand 0 halfLength in
    let secondHalf := substringFrom cleanedCommand halfLength in
    if startsWith (substring firstHalf 0 (20 `min` length firstHalf)) secondHalf
    then trim firstHalf
    else
      let cleanedCommand1 :=
        match exec true npmPattern cleanedCommand with
        | Some npmMatch => replaceFirst (group npmMatch 4) [] cleanedCommand
        | None => cleanedCommand
        end in
      match exec true shadcnPattern cleanedCommand1 with
      | Some shadcnMatch => group shadcnMatch 1 ++ group shadcnMatch 2
      | None => cleanedCommand1
      end
  else cleanedCommand.

(** What became of the subprocess: it exited with status 0, or the
    promise was rejected (non-zero exit, time-out, spawn failure) with
    the error's [stdout], [stderr] (empty when absent) and [message]. *)
Inductive ExecaOutcome :=
| Exited (stdout stderr : str)
| Rejected (stdout stderr message : str).

(** The process runner: [execa(cmd, args, { cwd, timeout, shell })];
    the subprocess may change the file system. *)
Definition Execa := str -> list str -> str -> N -> World -> ExecaOutcome * World.

Record CommandResult := mkCommandResult {
  cr_success : bool;
  cr_command : str;
  cr_stdout : str;
  cr_stderr : str
}.

Definition executeCommand (execa : Execa) (projectDir command : str) (timeoutMs : N)
    (w : World) : CommandResult * World :=
  let cleanedCommand := cleanCommand command in
  let parts := splitOn sp cleanedCommand in
  let cmd := default [] (head parts) in
  let args := tail parts in
  match execa cmd args projectDir timeoutMs w with
  | (Exited outputBuffer stderrBuffer, w') =>
      ({| cr_success := true; cr_command := cleanedCommand;
          cr_stdout := outputBuffer; cr_stderr := stderrBuffer |}, w')
  | (Rejected stdout stderr message, w') =>
      ({| cr_success := false; cr_command := cleanedCommand;
          cr_stdout := stdout;
          cr_stderr := match stderr with [] => message | _ :: _ => stderr end |}, w')
  end.

(** *** [applyFileChange] *)

(** [/^[^a-zA-Z0-9/._-]+/]: the characters a cleaned path may start with. *)
Definition isPathStart (c : char) : bool :=
  ((97 <=? c) && (c <=? 122) || (65 <=? c) && (c <=? 90) || (48 <=? c) && (c <=? 57)
   || (c =? 47) || (c =? 46) || (c =? 95) || (c =? 45))%N.

Definition cleanFilePath (filePath : str) : str :=
  trim (dropWhile (fun c => negb (isPathStart c)) filePath).

Definition applyFileChange (projectDir : str) (action : ActionType) (filePath content : str)
  : M unit :=
  let filePath := cleanFilePath filePath in
  fullPath ← lift (resolveProjectPath projectDir filePath);
  match action with
  | CREATE =>
      ensureDirOf fullPath;;
      writeProjectFileAsync projectDir filePath content
  | EDIT =>
      ensureDirOf fullPath;;
      oldContent ← try_catch
        (ex ← fileExistsInProject projectDir filePath;
         if (ex : bool) then readProjectFileAsync projectDir filePath else ret [])
        (fun _ => ret []);
      let hasChanges := negb (bool_decide (oldContent = content)) in
      if negb hasChanges then ret tt
      else writeProjectFileAsync projectDir filePath content
  | DELETE =>
      ex ← fileExistsInProject projectDir filePath;
      if (ex : bool) then deleteProjectFileAsync projectDir filePath else ret tt
  | COMMAND | TEXT => ret tt
  end.

End FileOps.

Import FileOps.

(** ** The action execution queue ([action-queue.ts]) *)

Module Queue.

Definition ActionId := str.

Record QueuedAction := mkQueued {
  qa_type : ActionType;
  qa_path : str;            (* empty when the action has no path *)
  qa_content : str;
  processed : bool;
  retryCount : nat;
  qa_id : ActionId
}.

(** An entry of [commandHistory]. *)
Record HistoryEntry := mkEntry {
  h_result : CommandResult;
  h_actionId : ActionId
}.

Definition MAX_RETRIES : nat := 3.

(** Where the running invocation of [startProcessing] is suspended.
    Only one invocation can be inside the loop: a second call returns at
    the [isProcessing] test (theorem [single_dispatch_loop]); the head
    of the queue is the [action] of the current iteration, since only
    the loop removes elements and [addAction] appends at the tail. *)
Inductive Pc :=
| AtLoopTop                    (* about to test the [while] condition *)
| Sleeping                     (* the one-second sleep behind a pending command *)
| AwaitExec                    (* [await executeCommand(...)] *)
| AwaitSettle                  (* the two-second delay after a command *)
| AwaitFile                    (* [await applyFileChange(...)] *)
| AwaitText                    (* [await logAssistantMessage(...)] *)
| AwaitResult (success : bool) (* [await this.processAction(action)] *).

Record ActionQueue := mkQueue {
  queue : list QueuedAction;
  isProcessing : bool;
  projectDir : str;
  paused : bool;
  commandHistory : list HistoryEntry;
  pendingCommands : gset ActionId;
  queueEmptyResolvers : list nat;   (* the waiters of [waitUntilComplete] *)
  resolved : list nat;              (* waiters whose promise was resolved *)
  loop : option Pc;
  world : World
}.

Definition newQueue (projectDir : str) (w : World) : ActionQueue :=
  {| queue := []; isProcessing := false; projectDir := projectDir; paused := false;
     commandHistory := []; pendingCommands := ∅; queueEmptyResolvers := [];
     resolved := []; loop := None; world := w |}.

Definition hasPendingCommands (q : ActionQueue) : bool :=
  bool_decide (0 < size (pendingCommands q)).

Definition setLoop (l : option Pc) (q : ActionQueue) : ActionQueue :=
  {| queue := queue q; isProcessing := isProcessing q; projectDir := projectDir q;
     paused := paused q; commandHistory := commandHistory q;
     pendingCommands := pendingCommands q; queueEmptyResolvers := queueEmptyResolvers q;
     resolved := resolved q; loop := l; world := world q |}.

Definition setQueue (l : list QueuedAction) (q : ActionQueue) : ActionQueue :=
  {| queue := l; isProcessing := isProcessing q; projectDir := projectDir q;
     paused := paused q; commandHistory := commandHistory q;
     pendingCommands := pendingCommands q; queueEmptyResolvers := queueEmptyResolvers q;
     resolved := resolved q; loop := loop q; world := world q |}.

Definition setPending (s : gset ActionId) (q : ActionQueue) : ActionQueue :=
  {| queue := queue q; isProcessing := isProcessing q; projectDir := projectDir q;
     paused := paused q; commandHistory := commandHistory q;
     pendingCommands := s; queueEmptyResolvers := queueEmptyResolvers q;
     resolved := resolved q; loop := loop q; world := world q |}.

Definition setIsProcessing (b : bool) (q : ActionQueue) : ActionQueue :=
  {| queue := queue q; isProcessing := b; projectDir := projectDir q;
     paused := paused q; commandHistory := commandHistory q;
     pendingCommands := pendingCommands q; queueEmptyResolvers := queueEmptyResolvers q;
     resolved := resolved q; loop := loop q; world := world q |}.

Definition setPaused (b : bool) (q : ActionQueue) : ActionQueue :=
  {| queue := queue q; isProcessing := isProcessing q; projectDir := projectDir q;
     paused := b; commandHistory := commandHistory q;
     pendingCommands := pendingCommands q; queueEmptyResolvers := queueEmptyResolvers q;
     resolved := resolved q; loop := loop q; world := world q |}.

(** [checkIfComplete()] *)
Definition isComplete (q : ActionQueue) : bool :=
  bool_decide (queue q = []) && negb (hasPendingCommands q) && negb (isProcessing q).

Definition checkIfComplete (q : ActionQueue) : ActionQueue :=
  if isComplete q then
    {| queue := queue q; isProcessing := isProcessing q; projectDir := projectDir q;
       paused := paused q; commandHistory := commandHistory q;
       pendingCommands := pendingCommands q; queueEmptyResolvers := [];
       resolved := resolved q ++ queueEmptyResolvers q; loop := loop q; world := world q |}
  else q.

(** [waitUntilComplete()] called by waiter [w]. *)
Definition waitUntilComplete (w : nat) (q : ActionQueue) : ActionQueue :=
  if bool_decide (queue q = []) && negb (hasPendingCommands q) then
    {| queue := queue q; isProcessing := isProcessing q; projectDir := projectDir q;
       paused := paused q; commandHistory := commandHistory q;
       pendingCommands := pendingCommands q; queueEmptyResolvers := queueEmptyResolvers q;
       resolved := resolved q ++ [w]; loop := loop q; world := world q |}
  else
    {| queue := queue q; isProcessing := isProcessing q; projectDir := projectDir q;
       paused := paused q; commandHistory := commandHistory q;
       pendingCommands := pendingCommands q; queueEmptyResolvers := queueEmptyResolvers q ++ [w];
       resolved := resolved q; loop := loop q; world := world q |}.

(** The time-out of waiter [w] fires; the timer is cleared when the
    waiter is taken from the list and resolved by [checkIfComplete].
    The callback looks for the original [resolve] in the list, which
    holds the wrapper that replaced it, so it removes nothing; it then
    calls [resolve]. *)
Definition waitTimeout (w : nat) (q : ActionQueue) : ActionQueue :=
  if bool_decide (w ∈ queueEmptyResolvers q) then
    {| queue := queue q; isProcessing := isProcessing q; projectDir := projectDir q;
       paused := paused q; commandHistory := commandHistory q;
       pendingCommands := pendingCommands q;
       queueEmptyResolvers := queueEmptyResolvers q;
       resolved := resolved q ++ [w]; loop := loop q; world := world q |}
  else q.

(** [startProcessing()] up to the entry of its loop. *)
Definition startProcessing (q : ActionQueue) : ActionQueue :=
  if isProcessing q || paused q then q
  else match queue q with
       | [] => checkIfComplete q
       | _ :: _ => setLoop (Some AtLoopTop) (setIsProcessing true q)
       end.

(** [addAction(type, path, content)], [id] being the generated identifier. *)
Definition addAction (type : ActionType) (path content : str) (id : ActionId)
    (q : ActionQueue) : ActionQueue :=
  let action := {| qa_type := type; qa_path := path; qa_content := content;
                   processed := false; retryCount := 0; qa_id := id |} in
  let q' := setQueue (queue q ++ [action]) q in
  if negb (isProcessing q') && negb (paused q') then startProcessing q' else q'.

(** [pause()] and [resume()] *)
Definition pause (q : ActionQueue) : ActionQueue :=
  if negb (paused q) then setPaused true q else q.

Definition resume (q : ActionQueue) : ActionQueue :=
  if paused q then
    let q' := setPaused false q in
    if (negb (bool_decide (queue q' = [])) || hasPendingCommands q') && negb (isProcessing q')
    then startProcessing q' else q'
  else q.

(** The timer set by the [finally] block of [startProcessing]. *)
Definition recheck (q : ActionQueue) : ActionQueue :=
  if negb (isProcessing q) && negb (paused q)
     && (negb (bool_decide (queue q = [])) || hasPendingCommands q)
  then startProcessing q else q.

(** The [finally] block of [startProcessing]. *)
Definition finish (q : ActionQueue) : ActionQueue :=
  let q1 := checkIfComplete (setLoop None (setIsProcessing false q)) in
  if hasPendingCommands q1 then q1
  else if negb (bool_decide (queue q1 = [])) && negb (paused q1) then startProcessing q1
  else q1.

Definition markProcessed (a : QueuedAction) : QueuedAction :=
  {| qa_type := qa_type a; qa_path := qa_path a; qa_content := qa_content a;
     processed := true; retryCount := retryCount a; qa_id := qa_id a |}.

Definition bumpRetry (a : QueuedAction) : QueuedAction :=
  {| qa_type := qa_type a; qa_path := qa_path a; qa_content := qa_content a;
     processed := processed a; retryCount := S (retryCount a); qa_id := qa_id a |}.

(** The end of an iteration: the action is removed once it is processed,
    a command only when it is no longer pending. *)
Definition shiftIfDone (q : ActionQueue) : ActionQueue :=
  match queue q with
  | action :: rest =>
      if processed action
         && (negb (bool_decide (qa_type action = COMMAND))
             || negb (bool_decide (qa_id action ∈ pendingCommands q)))
      then setQueue rest q else q
  | [] => q
  end.

(** The loop body behind [await this.processAction(action)]. *)
Definition afterProcessAction (success : bool) (q : ActionQueue) : ActionQueue :=
  match queue q with
  | action :: rest =>
      if success then
        setLoop (Some AtLoopTop) (shiftIfDone (setQueue (markProcessed action :: rest) q))
      else
        let action' := bumpRetry action in
        if bool_decide (MAX_RETRIES ≤ retryCount action') then
          setLoop (Some AtLoopTop) (shiftIfDone (setQueue (markProcessed action' :: rest) q))
        else
          setLoop (Some AtLoopTop) (setQueue (rest ++ [action']) q)
  | [] => setLoop (Some AtLoopTop) q
  end.

(** The loop from its [while] test to the first [await] of the
    iteration; [processAction] runs up to its first [await]. *)
Definition loopTop (q : ActionQueue) : ActionQueue :=
  match queue q with
  | [] => finish q
  | action :: rest =>
      if paused q then finish q
      else if hasPendingCommands q then setLoop (Some Sleeping) q
      else if bool_decide (MAX_RETRIES ≤ retryCount action) then setQueue rest q
      else if negb (processed action) then
        match qa_type action with
        | COMMAND =>
            if hasPendingCommands q then setLoop (Some (AwaitResult false)) q
            else setLoop (Some AwaitExec)
                   (setPending ({[qa_id action]} ∪ pendingCommands q) q)
        | CREATE | EDIT | DELETE =>
            if bool_decide (qa_path action = []) then setLoop (Some (AwaitResult false)) q
            else setLoop (Some AwaitFile) q
        | TEXT => setLoop (Some AwaitText) q
        end
      else shiftIfDone q
  end.

(** The suspended loop is resumed. *)
Definition continue (execa : Execa) (q : ActionQueue) : ActionQueue :=
  match loop q with
  | None => q
  | Some AtLoopTop => loopTop q
  | Some Sleeping => setLoop (Some AtLoopTop) q
  | Some AwaitExec =>
      match queue q with
      | action :: _ =>
          let '(commandResult, w') :=
            executeCommand execa (projectDir q) (qa_content action) 20000%N (world q) in
          {| queue := queue q; isProcessing := isProcessing q; projectDir := projectDir q;
             paused := paused q;
             commandHistory := commandHistory q
                               ++ [{| h_result := commandResult; h_actionId := qa_id action |}];
             pendingCommands := pendingCommands q;
             queueEmptyResolvers := queueEmptyResolvers q; resolved := resolved q;
             loop := Some AwaitSettle; world := w' |}
      | [] => q
      end
  | Some AwaitSettle =>
      match queue q with
      | action :: _ =>
          setLoop (Some (AwaitResult true))
            (checkIfComplete (setPending (pendingCommands q ∖ {[qa_id action]}) q))
      | [] => q
      end
  | Some AwaitFile =>
      match queue q with
      | action :: _ =>
          match applyFileChange (projectDir q) (qa_type action) (qa_path action)
                  (qa_content action) (world q) with
          | (Ok _, w') =>
              setLoop (Some (AwaitResult true))
                (checkIfComplete
                   {| queue := queue q; isProcessing := isProcessing q;
                      projectDir := projectDir q; paused := paused q;
                      commandHistory := commandHistory q;
                      pendingCommands := pendingCommands q;
                      queueEmptyResolvers := queueEmptyResolvers q; resolved := resolved q;
                      loop := loop q; world := w' |})
          | (Throw _, w') =>
              {| queue := queue q; isProcessing := isProcessing q;
                 projectDir := projectDir q; paused := paused q;
                 commandHistory := commandHistory q;
                 pendingCommands := pendingCommands q;
                 queueEmptyResolvers := queueEmptyResolvers q; resolved := resolved q;
                 loop := Some (AwaitResult false); world := w' |}
          end
      | [] => q
      end
  | Some AwaitText => setLoop (Some (AwaitResult true)) (checkIfComplete q)
  | Some (AwaitResult success) => afterProcessAction success q
  end.

(** What can happen to a queue. *)
Inductive Event :=
| EvAddAction (type : ActionType) (path content : str) (id : ActionId)
| EvPause
| EvResume
| EvRecheck
| EvWait (w : nat)
| EvTimeout (w : nat)
| EvContinue (execa : Execa).

Definition react (e : Event) (q : ActionQueue) : ActionQueue :=
  match e with
  | EvAddAction type path content id => addAction type path content id q
  | EvPause => pause q
  | EvResume => resume q
  | EvRecheck => recheck q
  | EvWait w => waitUntilComplete w q
  | EvTimeout w => waitTimeout w q
  | EvContinue execa => continue execa q
  end.

Definition run (events : list Event) (q : ActionQueue) : ActionQueue :=
  foldl (fun q e => react e q) q events.

Inductive reachable (dir : str) (w : World) : ActionQueue -> Prop :=
| reach_new : reachable dir w (newQueue dir w)
| reach_step q e : reachable dir w q -> reachable dir w (react e q).

(** The dispatch loop left to itself. *)
Fixpoint dispatch (execa : Execa) (n : nat) (q : ActionQueue) : ActionQueue :=
  match n with
  | 0 => q
  | S n' => dispatch execa n' (continue execa q)
  end.

End Queue.

Import Queue.

(** ** The generation supervisor ([code-generation.ts]) *)

Module Supervisor.

(** [execSync('npm run lint:fix')]: the output, or the error thrown on a
    non-zero exit with its [stdout] and [stderr]. *)
Inductive LintOutcome :=
| LintPassed (lintOutput : str)
| LintFailed (stdout stderr : str).

(** [execSync('npm run build')] *)
Inductive BuildOutcome :=
| BuildPassed (buildOutput : str)
| BuildFailed (stdout stderr message : str).

Inductive Message :=
| UserMessage (content : str)
| AssistantMessage (content : str)
| RetryMessage (retryCount : nat) (lintError buildError : option str).

(** The collaborators of one call of [generateProjectCode]:
    [generateCode] answers a conversation or throws ([None]); the
    linter and the build are run once per attempt;
    [formatProjectForClaude] reads the project directory before the
    request of attempt [k] (counted from 0) and [collectProjectFiles]
    reads it for the result: each returns or throws ([None]).  The
    requests of one call are made with conversations of different
    lengths, so what the model answers to each of them (given the
    project structure and the files of that moment) is a function of
    the conversation. *)
Record Collaborators := mkCollaborators {
  generateCode : list Message -> option str;
  runLint : nat -> LintOutcome;
  runBuild : nat -> BuildOutcome;
  formatProjectForClaude : nat -> option str;
  collectProjectFiles : option (list (str * str))
}.

Definition MAX_RETRIES : nat := 5.

Record GenerationResult := mkResult {
  lintError : option str;
  buildError : option str;
  attempts : nat;
  success : bool;
  hasActualLintErrors : bool;
  conversation : list Message
}.

Inductive Outcome :=
| Returned (r : GenerationResult)
| Thrown.

(** The loop ends by a [break] or by its condition, or an awaited call
    inside it throws. *)
Inductive LoopExit :=
| LoopDone (r : GenerationResult)
| LoopThrown.

(** The variables of the retry loop. *)
Record LoopState := mkLoop {
  l_retryCount : nat;
  l_lintError : option str;
  l_buildError : option str;
  l_hasActualLintErrors : bool;
  l_history : list Message
}.

Definition nonEmpty (s : str) : bool := negb (bool_decide (s = [])).

(** The lint step: the text kept for the retry prompt and the
    [hasActualLintErrors] flag. *)
Definition lintStep (o : LintOutcome) : str * bool :=
  match o with
  | LintPassed _ => ([], false)
  | LintFailed stdout stderr =>
      let lintError := stdout in
      if nonEmpty stderr && nonEmpty (trim stderr) then
        (if nonEmpty lintError then lintError ++ [nl; nl] ++ stderr else stderr, true)
      else (lintError, true)
  end.

(** The text kept from a failed build. *)
Definition buildFailureText (stdout stderr message : str) : str :=
  let buildError := if nonEmpty stdout
                    then lit "Build output:" ++ [nl] ++ stdout ++ [nl; nl]
                    else message in
  if nonEmpty stderr
  then buildError ++ lit "Error details:" ++ [nl] ++ stderr ++ [nl; nl]
  else buildError.

Definition result_of (st : LoopState) (success : bool) : GenerationResult :=
  {| lintError := l_lintError st; buildError := l_buildError st;
     attempts := l_retryCount st + 1; success := success;
     hasActualLintErrors := l_hasActualLintErrors st;
     conversation := l_history st |}.

(** The [while (retryCount <= MAX_RETRIES)] loop; [fuel] bounds the
    number of iterations, [None] when it runs out. *)
Fixpoint retryLoop (c : Collaborators) (fuel : nat) (st : LoopState) : option LoopExit :=
  if bool_decide (l_retryCount st ≤ MAX_RETRIES) then
    match fuel with
    | 0 => None
    | S fuel' =>
        let '(lintError, hasErrors) := lintStep (runLint c (l_retryCount st)) in
        match runBuild c (l_retryCount st) with
        | BuildPassed buildOutput =>
            Some (LoopDone (result_of
              {| l_retryCount := l_retryCount st; l_lintError := Some lintError;
                 l_buildError := Some buildOutput; l_hasActualLintErrors := hasErrors;
                 l_history := l_history st |} true))
        | BuildFailed stdout stderr message =>
            let buildError := buildFailureText stdout stderr message in
            if bool_decide (l_retryCount st < MAX_RETRIES) then
              let retryCount := S (l_retryCount st) in
              match formatProjectForClaude c retryCount with
              | None => Some LoopThrown
              | Some projectStructure =>
                  let history := l_history st
                                 ++ [RetryMessage retryCount (Some lintError) (Some buildError)] in
                  match generateCode c history with
                  | None => Some LoopThrown
                  | Some claudeResponse =>
                      retryLoop c fuel'
                        {| l_retryCount := retryCount; l_lintError := Some lintError;
                           l_buildError := Some buildError; l_hasActualLintErrors := hasErrors;
                           l_history := history ++ [AssistantMessage claudeResponse] |}
                  end
              end
            else
              Some (LoopDone (result_of
                {| l_retryCount := l_retryCount st; l_lintError := Some lintError;
                   l_buildError := Some buildError; l_hasActualLintErrors := hasErrors;
                   l_history := l_history st |} false))
        end
    end
  else Some (LoopDone (result_of st false)).

(** [generateProjectCode]: the project structure, the initial
    generation, the loop, then the project files for the result. *)
Definition generateProjectCodeFuel (fuel : nat) (c : Collaborators)
    (existingConversation : list Message) (newPrompt : str) : option Outcome :=
  let history := existingConversation ++ [UserMessage newPrompt] in
  match formatProjectForClaude c 0 with
  | None => Some Thrown
  | Some projectStructure =>
      match generateCode c history with
      | None => Some Thrown
      | Some claudeResponse =>
          match retryLoop c fuel
                  {| l_retryCount := 0; l_lintError := None; l_buildError := None;
                     l_hasActualLintErrors := false;
                     l_history := history ++ [AssistantMessage claudeResponse] |} with
          | None => None
          | Some LoopThrown => Some Thrown
          | Some (LoopDone r) =>
              match collectProjectFiles c with
              | None => Some Thrown
              | Some finalProjectFiles => Some (Returned r)
              end
          end
      end
  end.

Definition generateProjectCode (c : Collaborators)
    (existingConversation : list Message) (newPrompt : str) : option Outcome :=
  generateProjectCodeFuel (S MAX_RETRIES) c existingConversation newPrompt.

End Supervisor.


(** ** The model stream ([streamResponse]) *)

Module StreamService.

(** [getFullResponse()] and [getGeneratedFiles()] of [ResponseProcessor]. *)
Definition getFullResponse (rp : ResponseProcessor) : str := fullResponse rp.
Definition getGeneratedFiles (rp : ResponseProcessor) : gmap str str := generatedFiles rp.

(** How the model stream ends: it is read to its end, or creating or
    reading it throws. *)
Inductive StreamEnd :=
| StreamDone
| StreamBroken.

(** What a call of [streamResponse] comes to: it rethrows the error of
    the stream, throws its empty-response error when no fragment had
    content or the response is white space only, rethrows the error of
    [saveDebugInfo], or returns the response and the tracked files. *)
Inductive StreamOutcome :=
| StreamError
| EmptyResponse
| DebugInfoError
| Streamed (fullResponse : str) (generatedFiles : gmap str str).

(** [streamResponse] from the first fragment on: the processor
    afterwards, the actions handed to the queue and the outcome.
    [saveDebugInfo] is the result of [responseProcessor.saveDebugInfo()]
    after a stream that was not empty: the name of the file, or [None]
    when it rejects. *)
Definition streamResponse (rp : ResponseProcessor) (chunks : list str)
    (streamEnd : StreamEnd) (saveDebugInfo : option str)
  : ResponseProcessor * list Action * StreamOutcome :=
  let '(rp', out) := streamChunks rp chunks in
  match streamEnd with
  | StreamBroken => (rp', out, StreamError)
  | StreamDone =>
      let hasContent := existsb (fun c : str => negb (bool_decide (c = []))) chunks in
      let fullResponse := getFullResponse rp' in
      if negb hasContent || bool_decide (length (trim fullResponse) = 0)
      then (rp', out, EmptyResponse)
      else match saveDebugInfo with
           | None => (rp', out, DebugInfoError)
           | Some savedDebugFile =>
               (rp', out, Streamed fullResponse (getGeneratedFiles rp'))
           end
  end.

End StreamService.

Import StreamService.

(** ** The batch parser ([parseTagBasedOperations] in
    [utils/operation-parser.ts]) *)

Module OperationParser.

(** An operation as the parser builds it: its type is the text of the
    first group in upper case. *)
Record Operation := mkOperation {
  o_type : str;
  o_path : str;
  o_content : str
}.

(** *** The pattern

    [/<action type='([^']+)'(?:\s+path='([^']+)')?>([\s\S]*?)<\/action>/g]
    (in comments ['] stands for the double quote).

    Each greedy run is followed by a character outside its class, the
    optional group starts with white space while its continuation wants
    [>], and the lazy run ends at the first closing tag: at a given
    position the pattern has at most one way to match, so it is written
    as a direct scanner. *)

(** [\s+path='([^']+)'] followed by [>] *)
Definition matchPathAttribute (s : str) : option (str * str) :=
  match takeWhile isWhiteSpace s with
  | [] => None
  | _ :: _ =>
      rest ← stripPrefix (lit "path=" ++ [dq]) (dropWhile isWhiteSpace s);
      match takeWhile isNotQuote rest with
      | [] => None
      | p =>
          rest' ← stripPrefix [dq] (dropWhile isNotQuote rest);
          rest'' ← stripPrefix [gt] rest';
          Some (p, rest'')
      end
  end.

(** The result of a match: the three groups ([None] for the path group
    when it did not take part) and the text after the match. *)
Record OperationMatch := mkOperationMatch {
  om_1 : str;
  om_2 : option str;
  om_3 : str;
  om_after : str
}.

(** The pattern anchored at the start of [s]. *)
Definition matchOperationAt (s : str) : option OperationMatch :=
  rest ← stripPrefix (lit "<action type=" ++ [dq]) s;
  match takeWhile isNotQuote rest with
  | [] => None
  | type =>
      rest2 ← stripPrefix [dq] (dropWhile isNotQuote rest);
      '(path, body) ← match matchPathAttribute rest2 with
                      | Some (p, after) => Some (Some p, after)
                      | None => after ← stripPrefix [gt] rest2; Some (None, after)
                      end;
      closingIndex ← indexOf closingTag body;
      Some {| om_1 := type; om_2 := path;
              om_3 := substring body 0 closingIndex;
              om_after := substringFrom body (closingIndex + length closingTag) |}
  end.

(** [actionRegex.exec(claudeResponse)] from [lastIndex]: [s] is the
    text from [lastIndex] on, the text after the match is the text from
    the new [lastIndex] on. *)
Fixpoint execOperation (s : str) : option OperationMatch :=
  match matchOperationAt s with
  | Some m => Some m
  | None =>
      match s with
      | [] => None
      | _ :: s' => execOperation s'
      end
  end.

Section Parse.

(** [String.prototype.toUpperCase] *)
Variable toUpperCase : str -> str.

Definition isDuplicate (operations : list Operation) (type path content : str) : bool :=
  existsb (fun op => bool_decide (o_type op = type) && bool_decide (o_path op = path)
                     && bool_decide (substring (o_content op) 0 50 = substring content 0 50))
    operations.

(** The [while] loop; a match is not empty, so the loop runs at most
    once per character of the response. *)
Fixpoint parseLoop (fuel : nat) (rest : str) (operations : list Operation) : list Operation :=
  match fuel with
  | 0 => operations
  | S fuel' =>
      match execOperation rest with
      | None => operations
      | Some m =>
          let type := toUpperCase (om_1 m) in
          let path := default [] (om_2 m) in
          let content := trim (om_3 m) in
          parseLoop fuel' (om_after m)
            (if isDuplicate operations type path content then operations
             else operations ++ [{| o_type := type; o_path := path; o_content := content |}])
      end
  end.

Definition parseTagBasedOperations (claudeResponse : str) : list Operation :=
  parseLoop (length claudeResponse) claudeResponse [].

End Parse.

End OperationParser.

(** ** The sequential executor ([executeOperationsSequentially] in
    [file-operation-service.ts]) *)

Module Sequential.
Import OperationParser.

(** [OperationTrackers] *)
Record OperationTrackers := mkTrackers {
  created : list str;
  edited : list str;
  deleted : list str;
  commands : list str;
  texts : list str
}.

(** [s.substring(0, 50)] followed by [...] when [s.length > 50]. *)
Definition preview (s : str) : str :=
  substring s 0 50 ++ (if bool_decide (50 < length s) then lit "..." else []).

(** The entry pushed to [trackers.commands]. *)
Definition commandEntry (content : str) (success : bool) : str :=
  preview content ++ lit " (" ++ (if success then lit "succeeded" else lit "failed") ++ lit ")".

(** [Set.prototype.add]: a [Set] keeps the order of insertion. *)
Definition setAdd (x : str) (s : list str) : list str :=
  if bool_decide (x ∈ s) then s else s ++ [x].

(** [applyFileChange] called with the type of an operation, which is
    any text at run time: the [switch] has a case for CREATE, EDIT and
    DELETE, and every other type takes the [default] branch, which only
    logs (in [FileOps.applyFileChange] the branch of the types without
    a case); the path is cleaned and resolved before the [switch]. *)
Definition applyFileChangeOfType (projectDir type filePath content : str) : M unit :=
  if bool_decide (type = lit "CREATE") then applyFileChange projectDir CREATE filePath content
  else if bool_decide (type = lit "EDIT") then applyFileChange projectDir EDIT filePath content
  else if bool_decide (type = lit "DELETE") then applyFileChange projectDir DELETE filePath content
  else applyFileChange projectDir TEXT filePath content.

(** The tracker array a file operation with a path is pushed to. *)
Definition trackPath (type path : str) (trackers : OperationTrackers) : OperationTrackers :=
  if bool_decide (type = lit "CREATE") then
    {| created := created trackers ++ [path]; edited := edited trackers;
       deleted := deleted trackers; commands := commands trackers;
       texts := texts trackers |}
  else if bool_decide (type = lit "EDIT") then
    {| created := created trackers; edited := edited trackers ++ [path];
       deleted := deleted trackers; commands := commands trackers;
       texts := texts trackers |}
  else if bool_decide (type = lit "DELETE") then
    {| created := created trackers; edited := edited trackers;
       deleted := deleted trackers ++ [path]; commands := commands trackers;
       texts := texts trackers |}
  else trackers.

(** The [for] loop from the operations that are left; [trackers] is
    the caller's object, which keeps what was pushed when the loop
    throws. *)
Fixpoint executeLoop (execa : Execa) (projectDir : str) (operations : list Operation)
    (modifiedFiles : list str) (trackers : OperationTrackers) (w : World)
  : result (list str) * OperationTrackers * World :=
  match operations with
  | [] => (Ok modifiedFiles, trackers, w)
  | operation :: rest =>
      if bool_decide (o_type operation = lit "COMMAND") then
        let '(commandResult, w') :=
          executeCommand execa projectDir (o_content operation) 20000%N w in
        executeLoop execa projectDir rest modifiedFiles
          {| created := created trackers; edited := edited trackers;
             deleted := deleted trackers;
             commands := commands trackers
                         ++ [commandEntry (o_content operation) (cr_success commandResult)];
             texts := texts trackers |} w'
      else if bool_decide (o_type operation = lit "TEXT") then
        executeLoop execa projectDir rest modifiedFiles
          {| created := created trackers; edited := edited trackers;
             deleted := deleted trackers; commands := commands trackers;
             texts := texts trackers ++ [preview (o_content operation)] |} w
      else
        match applyFileChangeOfType projectDir (o_type operation) (o_path operation)
                (o_content operation) w with
        | (Ok _, w') =>
            if negb (bool_decide (o_path operation = [])) then
              executeLoop execa projectDir rest
                (setAdd (o_path operation) modifiedFiles)
                (trackPath (o_type operation) (o_path operation) trackers) w'
            else executeLoop execa projectDir rest modifiedFiles trackers w'
        | (Throw e, w') => (Throw e, trackers, w')
        end
  end.

Definition executeOperationsSequentially (execa : Execa) (projectDir : str)
    (operations : list Operation) (trackers : OperationTrackers) (w : World)
  : result (list str) * OperationTrackers * World :=
  executeLoop execa projectDir operations [] trackers w.

End Sequential.

(** * Properties *)

(** ** The generation supervisor *)

Section SupervisorProofs.
Import Supervisor.

Definition buildFails (o : BuildOutcome) : Prop :=
  match o with BuildPassed _ => False | BuildFailed _ _ _ => True end.

Definition lintFails (o : LintOutcome) : Prop :=
  match o with LintPassed _ => False | LintFailed _ _ => True end.

Definition isRetryMessage (m : Message) : bool :=
  match m with RetryMessage _ _ _ => true | _ => false end.

(** The retry rounds a call has performed: the retry prompts it added
    to the conversation. *)
Definition retryRounds (h : list Message) : nat :=
  length (filter (fun m => isRetryMessage m = true) h).

Definition retriesPerformed (existing : list Message) (r : GenerationResult) : nat :=
  retryRounds (conversation r) - retryRounds existing.

Lemma retryRounds_app h1 h2 : retryRounds (h1 ++ h2) = retryRounds h1 + retryRounds h2.
Proof. unfold retryRounds. by rewrite filter_app, length_app. Qed.

Lemma lintStep_flag o : (lintStep o).2 = true <-> lintFails o.
Proof.
  destruct o as [out|stdout stderr]; simpl; [naive_solver|].
  destruct (nonEmpty stderr && nonEmpty (trim stderr)); simpl; naive_solver.
Qed.

(** The model answers every request. *)
Definition modelAnswers (c : Collaborators) : Prop :=
  forall h, is_Some (generateCode c h).

(** Every read of the project directory succeeds. *)
Definition projectReadable (c : Collaborators) : Prop :=
  (forall k, is_Some (formatProjectForClaude c k)) /\ is_Some (collectProjectFiles c).

(** How the loop ends when started at [retryCount = n] after [n]
    failed builds. *)
Lemma retryLoop_exit (c : Collaborators) (fuel : nat) : forall st : LoopState,
  l_retryCount st + fuel = S Supervisor.MAX_RETRIES ->
  0 < fuel ->
  (forall k, k < l_retryCount st -> buildFails (runBuild c k)) ->
  exists e, retryLoop c fuel st = Some e /\
    match e with
    | LoopDone r =>
        l_retryCount st + 1 <= attempts r <= S Supervisor.MAX_RETRIES
        /\ retryRounds (conversation r) + l_retryCount st + 1
           = retryRounds (l_history st) + attempts r
        /\ (forall k, k < attempts r - 1 -> buildFails (runBuild c k))
        /\ (success r = true <-> ~ buildFails (runBuild c (attempts r - 1)))
        /\ (success r = false -> attempts r = S Supervisor.MAX_RETRIES)
        /\ (hasActualLintErrors r = true <-> lintFails (runLint c (attempts r - 1)))
    | LoopThrown =>
        exists k, l_retryCount st < k <= Supervisor.MAX_RETRIES
          /\ (forall j, j < k -> buildFails (runBuild c j))
          /\ (formatProjectForClaude c k = None \/ exists h, generateCode c h = None)
    end.
Proof.
  induction fuel as [|fuel IH]; intros st Hsum Hpos Hprev; [lia|].
  cbn [retryLoop]. rewrite bool_decide_eq_true_2 by lia.
  pose proof (lintStep_flag (runLint c (l_retryCount st))) as Hlint.
  destruct (lintStep (runLint c (l_retryCount st))) as [lintErr hasErr] eqn:Els.
  simpl in Hlint.
  destruct (runBuild c (l_retryCount st)) as [out|stdout stderr msg] eqn:Eb.
  - eexists; split; [reflexivity|]. simpl.
    replace (l_retryCount st + 1 - 1) with (l_retryCount st) by lia.
    rewrite Eb. simpl. split_and!; try lia; try done; try tauto;
      try (intros k Hk; apply Hprev; lia).
  - assert (forall j, j < S (l_retryCount st) -> buildFails (runBuild c j)) as Hnext.
    { intros j Hj. destruct (decide (j = l_retryCount st)) as [->|];
        [by rewrite Eb | apply Hprev; lia]. }
    case_bool_decide as Hlt.
    + destruct (formatProjectForClaude c (S (l_retryCount st))) as [structure|] eqn:Ef.
      2:{ exists LoopThrown. split; [done|]. exists (S (l_retryCount st)).
          split_and!; [lia|lia|done|by left]. }
      destruct (generateCode c (l_history st ++
         [RetryMessage (S (l_retryCount st)) (Some lintErr)
            (Some (buildFailureText stdout stderr msg))])) as [resp|] eqn:Eg.
      2:{ exists LoopThrown. split; [done|]. exists (S (l_retryCount st)).
          split_and!; [lia|lia|done|right; eauto]. }
      destruct (IH {| l_retryCount := S (l_retryCount st); l_lintError := Some lintErr;
                      l_buildError := Some (buildFailureText stdout stderr msg);
                      l_hasActualLintErrors := hasErr;
                      l_history := (l_history st ++
                         [RetryMessage (S (l_retryCount st)) (Some lintErr)
                            (Some (buildFailureText stdout stderr msg))])
                         ++ [AssistantMessage resp] |})
        as (e & He & Hspec); simpl; auto; try lia.
      exists e. split; [exact He|]. destruct e as [r|]; simpl in Hspec.
      * destruct Hspec as (Hatt & Hcount & Hfail & Hsucc & Hex & Hl).
        rewrite !retryRounds_app in Hcount. unfold retryRounds at 3 4 in Hcount.
        simpl in Hcount. split_and!; try lia; try done; try tauto.
      * destruct Hspec as (k & Hk & Hrest). exists k. split; [lia|exact Hrest].
    + eexists; split; [reflexivity|]. simpl.
      replace (l_retryCount st + 1 - 1) with (l_retryCount st) by lia.
      rewrite Eb. simpl. unfold Supervisor.MAX_RETRIES in *.
      split_and!; try lia; try done; try tauto;
        try (intros k Hk; apply Hprev; lia).
Qed.

(** With a model that answers and a readable project the loop ends by
    itself. *)
Lemma retryLoop_returns (c : Collaborators) (fuel : nat) (st : LoopState) :
  modelAnswers c -> (forall k, is_Some (formatProjectForClaude c k)) ->
  l_retryCount st + fuel = S Supervisor.MAX_RETRIES ->
  0 < fuel ->
  (forall k, k < l_retryCount st -> buildFails (runBuild c k)) ->
  exists r, retryLoop c fuel st = Some (LoopDone r)
    /\ l_retryCount st + 1 <= attempts r <= S Supervisor.MAX_RETRIES
    /\ retryRounds (conversation r) + l_retryCount st + 1 = retryRounds (l_history st) + attempts r
    /\ (forall k, k < attempts r - 1 -> buildFails (runBuild c k))
    /\ (success r = true <-> ~ buildFails (runBuild c (attempts r - 1)))
    /\ (success r = false -> attempts r = S Supervisor.MAX_RETRIES)
    /\ (hasActualLintErrors r = true <-> lintFails (runLint c (attempts r - 1))).
Proof.
  intros Hgen Hfmt Hsum Hpos Hprev.
  destruct (retryLoop_exit c fuel st Hsum Hpos Hprev) as (e & He & Hspec).
  destruct e as [r|]; [by exists r|].
  destruct Hspec as (k & _ & _ & [Hf|[h Hh]]).
  - destruct (Hfmt k) as [s Hs]. congruence.
  - destruct (Hgen h) as [s Hs]. congruence.
Qed.

(** What a returned result says, whatever the collaborators do. *)
Lemma generateProjectCode_returned (c : Collaborators) existing newPrompt r :
  generateProjectCode c existing newPrompt = Some (Returned r) ->
  1 <= attempts r <= S Supervisor.MAX_RETRIES
  /\ attempts r = retriesPerformed existing r + 1
  /\ (forall k, k < attempts r - 1 -> buildFails (runBuild c k))
  /\ (success r = true <-> ~ buildFails (runBuild c (attempts r - 1)))
  /\ (success r = false -> attempts r = S Supervisor.MAX_RETRIES)
  /\ (hasActualLintErrors r = true <-> lintFails (runLint c (attempts r - 1))).
Proof.
  unfold generateProjectCode, generateProjectCodeFuel.
  destruct (formatProjectForClaude c 0) as [structure|]; [|done].
  destruct (generateCode c (existing ++ [UserMessage newPrompt])) as [resp|]; [|done].
  destruct (retryLoop_exit c (S Supervisor.MAX_RETRIES)
              {| l_retryCount := 0; l_lintError := None; l_buildError := None;
                 l_hasActualLintErrors := false;
                 l_history := (existing ++ [UserMessage newPrompt]) ++ [AssistantMessage resp] |})
    as (e & -> & Hspec); simpl; try lia.
  destruct e as [r0|]; [|done].
  destruct (collectProjectFiles c) as [files|]; [|done].
  intros [= ->]. destruct Hspec as (Hatt & Hcount & Hfail & Hsucc & Hex & Hl).
  simpl in Hcount. rewrite !retryRounds_app in Hcount.
  unfold retryRounds at 3 4 in Hcount. simpl in Hcount.
  unfold retriesPerformed. split_and!; try lia; done.
Qed.

Lemma generateProjectCode_returns (c : Collaborators) existing newPrompt :
  modelAnswers c -> projectReadable c ->
  exists r, generateProjectCode c existing newPrompt = Some (Returned r).
Proof.
  intros Hgen [Hfmt Hcol].
  unfold generateProjectCode, generateProjectCodeFuel.
  destruct (Hfmt 0) as [structure ->].
  destruct (Hgen (existing ++ [UserMessage newPrompt])) as [resp ->].
  destruct (retryLoop_returns c (S Supervisor.MAX_RETRIES)
              {| l_retryCount := 0; l_lintError := None; l_buildError := None;
                 l_hasActualLintErrors := false;
                 l_history := (existing ++ [UserMessage newPrompt]) ++ [AssistantMessage resp] |})
    as (r & -> & _); simpl; auto; try lia.
  destruct Hcol as [files ->]. by exists r.
Qed.

(** The claim of C4 as a statement about [generateProjectCode], with
    the failures that exhaust the retries read as those of the initial
    attempt and of the five retry rounds, and a model that answers. *)
Definition ExhaustedRetriesAreReported : Prop :=
  forall (c : Collaborators) (existing : list Message) (newPrompt : str),
    modelAnswers c ->
    (forall k, k <= 5 -> buildFails (runBuild c k)) ->
    exists r, generateProjectCode c existing newPrompt = Some (Returned r)
              /\ success r = false /\ attempts r = 6.

(** A project whose build never passes. *)
Definition neverBuilds : Collaborators :=
  {| generateCode := fun _ => Some (lit "<action type=TEXT>fixed</action>");
     runLint := fun _ => LintPassed [];
     runBuild := fun _ => BuildFailed [] (lit "Type error in app/page.tsx") (lit "Command failed");
     formatProjectForClaude := fun _ => Some (lit "# Current Project Structure");
     collectProjectFiles := Some [] |}.

(** The same project when its directory cannot be read any more at the
    end ([fs.readdir] rejects in [collectProjectFiles]). *)
Definition unreadableAtTheEnd : Collaborators :=
  {| generateCode := generateCode neverBuilds;
     runLint := runLint neverBuilds;
     runBuild := runBuild neverBuilds;
     formatProjectForClaude := formatProjectForClaude neverBuilds;
     collectProjectFiles := None |}.

(** C4, counterexample. The model answers every request and all six
    builds fail, but [collectProjectFiles] rejects: the call throws, no
    result is reported. *)
Lemma exhausted_retries_are_thrown_when_unreadable : ~ ExhaustedRetriesAreReported.
Proof.
  intros H.
  destruct (H unreadableAtTheEnd [] (lit "a todo list")) as (r & Hr & _).
  - intros h. by eexists.
  - intros k _. exact I.
  - vm_compute in Hr. discriminate Hr.
Qed.

(** A project whose build passes at the sixth attempt only. *)
Definition buildsAtLast : Collaborators :=
  {| generateCode := generateCode neverBuilds;
     runLint := runLint neverBuilds;
     runBuild := fun k => if bool_decide (k < 5) then runBuild neverBuilds k
                          else BuildPassed (lit "Compiled successfully");
     formatProjectForClaude := formatProjectForClaude neverBuilds;
     collectProjectFiles := collectProjectFiles neverBuilds |}.

(** Five build failures in a row do not decide the result: when the
    build of the fifth retry round passes, the result has
    [attempts = 6] and [success = true]. *)
Lemma five_failures_then_success :
  (forall k, k < 5 -> buildFails (runBuild buildsAtLast k))
  /\ exists r, generateProjectCode buildsAtLast [] (lit "a todo list") = Some (Returned r)
               /\ attempts r = 6 /\ success r = true.
Proof.
  split.
  - intros k Hk. unfold buildsAtLast. cbn [runBuild].
    by rewrite bool_decide_eq_true_2.
  - eexists. split; [by vm_compute|]. by split.
Qed.

(** C4, amended. With a model that answers every request and a project
    directory that can be read each time, [generateProjectCode] returns
    a result (it does not throw); [attempts] is the number of retry
    rounds performed plus one and at most [MAX_RETRIES + 1 = 6]; every
    build before the last attempt failed and [success] holds exactly
    when the build of the last attempt passed (the loop stops at the
    first build success); after five consecutive build failures the
    sixth attempt is made, and when the build of the initial attempt and
    of each of the five retry rounds fails the result has
    [success = false] and [attempts = 6]. *)
Theorem supervisor_retries_bounded (c : Collaborators) (existing : list Message)
    (newPrompt : str) :
  (forall h, is_Some (generateCode c h)) ->
  (forall k, is_Some (formatProjectForClaude c k)) ->
  is_Some (collectProjectFiles c) ->
  Supervisor.MAX_RETRIES = 5 /\
  exists r, generateProjectCode c existing newPrompt = Some (Returned r)
    /\ attempts r = retriesPerformed existing r + 1
    /\ attempts r <= Supervisor.MAX_RETRIES + 1
    /\ (forall k, k < attempts r - 1 -> buildFails (runBuild c k))
    /\ (success r = true <-> ~ buildFails (runBuild c (attempts r - 1)))
    /\ ((forall k, k < 5 -> buildFails (runBuild c k)) -> attempts r = 6)
    /\ ((forall k, k <= 5 -> buildFails (runBuild c k)) ->
        success r = false /\ attempts r = 6).
Proof.
  intros Hgen Hfmt Hcol. split; [reflexivity|].
  destruct (generateProjectCode_returns c existing newPrompt Hgen (conj Hfmt Hcol)) as [r Hr].
  destruct (generateProjectCode_returned c existing newPrompt r Hr)
    as (Hatt & Hcount & Hfail & Hsucc & Hex & _).
  exists r. split; [exact Hr|].
  unfold Supervisor.MAX_RETRIES in *.
  assert (Hsix : (forall k, k < 5 -> buildFails (runBuild c k)) -> attempts r = 6).
  { intros Hall. destruct (success r) eqn:E; [|by apply Hex].
    destruct (decide (attempts r = 6)) as [|Hne]; [done|].
    exfalso. apply Hsucc; [done|]. apply Hall. lia. }
  split_and!; try lia; try done.
  intros Hall. split; [|apply Hsix; intros; apply Hall; lia].
  destruct (success r) eqn:E; [|done].
  exfalso. apply Hsucc; [done|]. apply Hall. lia.
Qed.

Lemma supervisor_retries_bounded_witness :
  Supervisor.MAX_RETRIES = 5 /\
  exists r, generateProjectCode neverBuilds [] (lit "a todo list") = Some (Returned r)
    /\ attempts r = retriesPerformed [] r + 1
    /\ attempts r <= Supervisor.MAX_RETRIES + 1
    /\ (forall k, k < attempts r - 1 -> buildFails (runBuild neverBuilds k))
    /\ (success r = true <-> ~ buildFails (runBuild neverBuilds (attempts r - 1)))
    /\ ((forall k, k < 5 -> buildFails (runBuild neverBuilds k)) -> attempts r = 6)
    /\ ((forall k, k <= 5 -> buildFails (runBuild neverBuilds k)) ->
        success r = false /\ attempts r = 6).
Proof.
  apply (supervisor_retries_bounded neverBuilds [] (lit "a todo list")).
  - intros h. exists (lit "<action type=TEXT>fixed</action>"). reflexivity.
  - intros k. exists (lit "# Current Project Structure"). reflexivity.
  - exists []. reflexivity.
Defined.

(** The claim of C8 as a statement about [generateProjectCode]: a
    returned result that reports success comes from an attempt whose
    lint step passed. *)
Definition LintFailureForcesRetry : Prop :=
  forall (c : Collaborators) (existing : list Message) (newPrompt : str) (r : GenerationResult),
    generateProjectCode c existing newPrompt = Some (Returned r) ->
    success r = true ->
    ~ lintFails (runLint c (attempts r - 1)).

(** A project with lint errors that builds. *)
Definition lintErrorsButBuilds : Collaborators :=
  {| generateCode := fun _ => Some (lit "<action type=TEXT>done</action>");
     runLint := fun _ => LintFailed (lit "1 error") [];
     runBuild := fun _ => BuildPassed (lit "Compiled successfully");
     formatProjectForClaude := fun _ => Some (lit "# Current Project Structure");
     collectProjectFiles := Some [] |}.

(** The same project without lint errors. *)
Definition lintCleanAndBuilds : Collaborators :=
  {| generateCode := generateCode lintErrorsButBuilds;
     runLint := fun _ => LintPassed [];
     runBuild := runBuild lintErrorsButBuilds;
     formatProjectForClaude := formatProjectForClaude lintErrorsButBuilds;
     collectProjectFiles := collectProjectFiles lintErrorsButBuilds |}.

(** C8, counterexample. The lint step of the first attempt fails, the
    build passes: the loop ends at once with [success = true] and
    [attempts = 1]; no retry round is triggered. *)
Lemma lint_failure_does_not_force_retry : ~ LintFailureForcesRetry.
Proof.
  intros H.
  apply (H lintErrorsButBuilds [] (lit "a todo list")
           {| lintError := Some (lit "1 error");
              buildError := Some (lit "Compiled successfully");
              attempts := 1; success := true; hasActualLintErrors := true;
              conversation := [UserMessage (lit "a todo list");
                               AssistantMessage (lit "<action type=TEXT>done</action>")] |});
    [reflexivity | reflexivity | exact I].
Qed.

(** C8, amended. A lint failure is not fatal and does not decide the
    loop: the build of the same attempt is run all the same, the result
    reports success exactly when the build of the last attempt passed
    and carries [hasActualLintErrors] exactly when the lint step of the
    last attempt failed; two runs whose builds behave alike make the
    same number of attempts and report the same success, whatever their
    lint steps do.  This holds of every result that is returned; with
    models that answer and project directories that can be read, both
    runs return one. *)
Theorem lint_failure_is_reported_not_decisive (c c' : Collaborators)
    (existing : list Message) (newPrompt : str) :
  (forall k, buildFails (runBuild c k) <-> buildFails (runBuild c' k)) ->
  (forall r, generateProjectCode c existing newPrompt = Some (Returned r) ->
     (success r = true <-> ~ buildFails (runBuild c (attempts r - 1)))
     /\ (hasActualLintErrors r = true <-> lintFails (runLint c (attempts r - 1)))
     /\ forall r', generateProjectCode c' existing newPrompt = Some (Returned r') ->
          attempts r = attempts r' /\ success r = success r')
  /\ ((forall h, is_Some (generateCode c h)) ->
      (forall h, is_Some (generateCode c' h)) ->
      projectReadable c -> projectReadable c' ->
      exists r r',
        generateProjectCode c existing newPrompt = Some (Returned r)
        /\ generateProjectCode c' existing newPrompt = Some (Returned r')
        /\ (success r = true <-> ~ buildFails (runBuild c (attempts r - 1)))
        /\ (hasActualLintErrors r = true <-> lintFails (runLint c (attempts r - 1)))
        /\ attempts r = attempts r'
        /\ success r = success r').
Proof.
  intros Hsame.
  assert (forall r r',
    generateProjectCode c existing newPrompt = Some (Returned r) ->
    generateProjectCode c' existing newPrompt = Some (Returned r') ->
    attempts r = attempts r' /\ success r = success r') as Halike.
  { intros r r' Hr Hr'.
    destruct (generateProjectCode_returned c existing newPrompt r Hr)
      as (Hatt & _ & Hfail & Hsucc & Hex & _).
    destruct (generateProjectCode_returned c' existing newPrompt r' Hr')
      as (Hatt' & _ & Hfail' & Hsucc' & Hex' & _).
    assert (Heq : attempts r = attempts r').
    { destruct (lt_eq_lt_dec (attempts r) (attempts r')) as [[Hlt|Heq]|Hgt]; [|done|]; exfalso.
      - assert (buildFails (runBuild c (attempts r - 1))) as F by (apply Hsame, Hfail'; lia).
        destruct (success r) eqn:E; [exact (proj1 Hsucc eq_refl F)|].
        specialize (Hex eq_refl). lia.
      - assert (buildFails (runBuild c' (attempts r' - 1))) as F by (apply Hsame, Hfail; lia).
        destruct (success r') eqn:E; [exact (proj1 Hsucc' eq_refl F)|].
        specialize (Hex' eq_refl). lia. }
    split; [done|].
    destruct (success r) eqn:E, (success r') eqn:E'; try done.
    - symmetry. apply Hsucc'. rewrite <- Heq. intros F. apply Hsame in F.
      exact (proj1 Hsucc eq_refl F).
    - apply Hsucc. rewrite Heq. intros F. apply Hsame in F.
      exact (proj1 Hsucc' eq_refl F). }
  split.
  - intros r Hr.
    destruct (generateProjectCode_returned c existing newPrompt r Hr)
      as (_ & _ & _ & Hsucc & _ & Hl).
    split_and!; [done|done|]. intros r' Hr'. by apply Halike.
  - intros Hgen Hgen' Hread Hread'.
    destruct (generateProjectCode_returns c existing newPrompt Hgen Hread) as [r Hr].
    destruct (generateProjectCode_returns c' existing newPrompt Hgen' Hread') as [r' Hr'].
    destruct (generateProjectCode_returned c existing newPrompt r Hr)
      as (_ & _ & _ & Hsucc & _ & Hl).
    destruct (Halike r r' Hr Hr') as [Ha Hs].
    exists r, r'. by split_and!.
Qed.

Lemma lint_failure_is_reported_not_decisive_witness :
  exists r r',
    generateProjectCode lintErrorsButBuilds [] (lit "a todo list") = Some (Returned r)
    /\ generateProjectCode lintCleanAndBuilds [] (lit "a todo list") = Some (Returned r')
    /\ (success r = true <-> ~ buildFails (runBuild lintErrorsButBuilds (attempts r - 1)))
    /\ (hasActualLintErrors r = true <-> lintFails (runLint lintErrorsButBuilds (attempts r - 1)))
    /\ hasActualLintErrors r' = false
    /\ attempts r = attempts r'
    /\ success r = success r'.
Proof.
  destruct (lint_failure_is_reported_not_decisive lintErrorsButBuilds lintCleanAndBuilds
              [] (lit "a todo list")) as [_ H].
  - intros k. reflexivity.
  - destruct H as (r & r' & Hr & Hr' & Hs & Hl & Ha & He).
    + intros h. eexists. reflexivity.
    + intros h. eexists. reflexivity.
    + split; [intros k|]; eexists; reflexivity.
    + split; [intros k|]; eexists; reflexivity.
    + exists r, r'. split_and!; try done.
      vm_compute in Hr'. by injection Hr' as <-.
Defined.

End SupervisorProofs.

(** ** The action execution queue *)

Section QueueProofs.

Lemma hasPendingCommands_false q : hasPendingCommands q = false <-> pendingCommands q = ∅.
Proof.
  unfold hasPendingCommands. rewrite bool_decide_eq_false.
  rewrite <- (leibniz_equiv_iff (pendingCommands q) ∅), <- size_empty_iff. lia.
Qed.

Lemma hasPendingCommands_true q : hasPendingCommands q = true <-> pendingCommands q ≠ ∅.
Proof.
  rewrite <- hasPendingCommands_false. destruct (hasPendingCommands q); naive_solver.
Qed.

(** What holds of every reachable queue. *)
Record Inv (q : ActionQueue) : Prop := mkInv {
  inv_flag : isProcessing q = true <-> is_Some (loop q);
  inv_pending :
    pendingCommands q = ∅ \/
    exists a rest, queue q = a :: rest /\ qa_type a = COMMAND
      /\ pendingCommands q = {[qa_id a]}
      /\ (loop q = Some AwaitExec \/ loop q = Some AwaitSettle);
  inv_head : forall pc, loop q = Some pc -> pc <> AtLoopTop -> queue q <> [];
  inv_retry : Forall (fun a => retryCount a < Queue.MAX_RETRIES /\ processed a = false) (queue q);
  inv_idle : loop q = None -> paused q = false -> queue q = [];
  inv_nosleep : loop q <> Some Sleeping
}.

Lemma Inv_new dir w : Inv (newQueue dir w).
Proof. split; simpl; try done; auto. Qed.

Ltac queue_simpl :=
  repeat (simpl in *;
          unfold setLoop, setQueue, setPending, setIsProcessing, setPaused in *; simpl in *).

Lemma Inv_loop_none q : Inv q -> isProcessing q = false -> loop q = None.
Proof.
  intros [H1 _ _ _ _ _] Hp. destruct (loop q) eqn:El; [|done].
  assert (is_Some (Some p)) as Hs by eauto. apply H1 in Hs. congruence.
Qed.

Lemma Inv_pending_idle q : Inv q -> loop q = None -> pendingCommands q = ∅.
Proof.
  intros [_ [H2|(a & rest & _ & _ & _ & [?|?])] _ _ _ _] Hl; [done|congruence..].
Qed.

Lemma Inv_checkIfComplete q : Inv q -> Inv (checkIfComplete q).
Proof.
  intros [H1 H2 H3 H4 H5 H6]. unfold checkIfComplete.
  destruct (isComplete q); [|by split]. by split.
Qed.

Lemma Inv_startProcessing q :
  isProcessing q = true <-> is_Some (loop q) ->
  (loop q = None -> pendingCommands q = ∅) ->
  Forall (fun a => retryCount a < Queue.MAX_RETRIES /\ processed a = false) (queue q) ->
  (isProcessing q = true \/ paused q = true -> Inv q) ->
  Inv (startProcessing q).
Proof.
  intros H1 H2 H4 HI. unfold startProcessing.
  destruct (isProcessing q) eqn:Ep; simpl; [by apply HI; left|].
  destruct (paused q) eqn:Epa; simpl; [by apply HI; right|].
  assert (loop q = None) as Hl.
  { destruct (loop q) eqn:El; [|done]. assert (is_Some (Some p)) as Hs by eauto.
    apply H1 in Hs. congruence. }
  destruct (queue q) as [|a rest] eqn:Eq.
  - apply Inv_checkIfComplete. split; rewrite ?Eq, ?Hl, ?Ep; try done; auto.
  - split; queue_simpl; rewrite ?Eq; try done; auto.
Qed.

Lemma Inv_addAction type path content id q : Inv q -> Inv (addAction type path content id q).
Proof.
  intros HI. pose proof HI as [H1 H2 H3 H4 H5 H6].
  set (a0 := {| qa_type := type; qa_path := path; qa_content := content;
                processed := false; retryCount := 0; qa_id := id |}).
  assert (HF : Forall (fun a => retryCount a < Queue.MAX_RETRIES /\ processed a = false)
                 (queue q ++ [a0])).
  { apply Forall_app. split; [done|]. constructor; [|done]. simpl.
    unfold Queue.MAX_RETRIES. split; [lia|done]. }
  assert (HK : isProcessing q = true \/ paused q = true -> Inv (setQueue (queue q ++ [a0]) q)).
  { intros Hor. split; queue_simpl; try done.
    - destruct H2 as [H2|(a & rest & Hq & Ht & Hp & Hl)]; [by left|right].
      exists a, (rest ++ [a0]). rewrite Hq. done.
    - intros pc Hpc Hne. destruct (queue q); done.
    - intros Hl Hp. destruct Hor as [Hor|Hor]; [|congruence].
      apply H1 in Hor. rewrite Hl in Hor. by destruct Hor. }
  unfold addAction. fold a0.
  destruct (negb (isProcessing (setQueue (queue q ++ [a0]) q))
            && negb (paused (setQueue (queue q ++ [a0]) q))) eqn:E.
  - apply Inv_startProcessing; queue_simpl; try done.
    intros Hl. by apply Inv_pending_idle.
  - apply HK. queue_simpl. destruct (isProcessing q), (paused q); simpl in *; auto; done.
Qed.

Lemma Inv_pause q : Inv q -> Inv (pause q).
Proof.
  intros HI. pose proof HI as [H1 H2 H3 H4 H5 H6]. unfold pause.
  destruct (paused q); simpl; [done|]. split; queue_simpl; done.
Qed.

Lemma Inv_resume q : Inv q -> Inv (resume q).
Proof.
  intros HI. pose proof HI as [H1 H2 H3 H4 H5 H6]. unfold resume.
  destruct (paused q) eqn:Epa; [|done].
  destruct ((negb (bool_decide (queue (setPaused false q) = []))
             || hasPendingCommands (setPaused false q))
            && negb (isProcessing (setPaused false q))) eqn:E.
  - apply Inv_startProcessing; queue_simpl; try done.
    + intros Hl. by apply Inv_pending_idle.
    + intros [Hor|Hor]; [|done]. rewrite Hor in E. by rewrite andb_false_r in E.
  - queue_simpl. split; queue_simpl; try done.
    intros Hl _. apply andb_false_iff in E as [E|E].
    + apply orb_false_iff in E as [E _]. apply negb_false_iff in E.
      by apply bool_decide_eq_true in E.
    + apply negb_false_iff in E. apply H1 in E. rewrite Hl in E. by destruct E.
Qed.

Lemma Inv_recheck q : Inv q -> Inv (recheck q).
Proof.
  intros HI. pose proof HI as [H1 H2 H3 H4 H5 H6]. unfold recheck.
  destruct (negb (isProcessing q) && negb (paused q)
            && (negb (bool_decide (queue q = [])) || hasPendingCommands q)); [|done].
  apply Inv_startProcessing; try done. intros Hl. by apply Inv_pending_idle.
Qed.

Lemma Inv_waitUntilComplete w q : Inv q -> Inv (waitUntilComplete w q).
Proof.
  intros [H1 H2 H3 H4 H5 H6]. unfold waitUntilComplete.
  destruct (bool_decide (queue q = []) && negb (hasPendingCommands q)); by split.
Qed.

Lemma Inv_waitTimeout w q : Inv q -> Inv (waitTimeout w q).
Proof.
  intros [H1 H2 H3 H4 H5 H6]. unfold waitTimeout.
  destruct (bool_decide (w ∈ queueEmptyResolvers q)); by split.
Qed.

Lemma checkIfComplete_fields q :
  queue (checkIfComplete q) = queue q /\ isProcessing (checkIfComplete q) = isProcessing q
  /\ paused (checkIfComplete q) = paused q /\ loop (checkIfComplete q) = loop q
  /\ pendingCommands (checkIfComplete q) = pendingCommands q
  /\ commandHistory (checkIfComplete q) = commandHistory q
  /\ world (checkIfComplete q) = world q /\ projectDir (checkIfComplete q) = projectDir q.
Proof. unfold checkIfComplete. by destruct (isComplete q). Qed.

Lemma Inv_finish q : Inv q -> pendingCommands q = ∅ -> Inv (finish q).
Proof.
  intros HI Hp. pose proof HI as [H1 H2 H3 H4 H5 H6]. unfold finish.
  set (q1 := checkIfComplete (setLoop None (setIsProcessing false q))).
  destruct (checkIfComplete_fields (setLoop None (setIsProcessing false q)))
    as (Eq & Ei & Epa & El & Epe & _). fold q1 in Eq, Ei, Epa, El, Epe. queue_simpl.
  assert (hasPendingCommands q1 = false) as -> by (apply hasPendingCommands_false; congruence).
  destruct (negb (bool_decide (queue q1 = [])) && negb (paused q1)) eqn:E.
  - apply Inv_startProcessing; rewrite ?Eq, ?Ei, ?Epa, ?El, ?Epe; try done.
    intros [?|Hpa]; [done|]. rewrite Epa in E. rewrite Hpa in E.
    by rewrite andb_false_r in E.
  - split; rewrite ?Eq, ?Ei, ?Epa, ?El, ?Epe; try done; auto.
    intros _ Hpa. rewrite Eq, Epa, Hpa, andb_true_r in E.
      apply negb_false_iff in E. by apply bool_decide_eq_true in E.
Qed.

Lemma Inv_pending_empty q pc :
  Inv q -> loop q = Some pc -> pc <> AwaitExec -> pc <> AwaitSettle -> pendingCommands q = ∅.
Proof.
  intros [_ [H2|(a & rest & _ & _ & _ & [?|?])] _ _ _ _] Hl ? ?; [done|congruence..].
Qed.

Lemma shiftIfDone_processed a rest q :
  queue q = a :: rest -> processed a = true -> pendingCommands q = ∅ ->
  shiftIfDone q = setQueue rest q.
Proof.
  intros Hq Hp He. unfold shiftIfDone. rewrite Hq, Hp, He. simpl.
  rewrite (bool_decide_eq_false_2 (qa_id a ∈ ∅)) by set_solver.
  by rewrite orb_true_r.
Qed.

Lemma afterProcessAction_queue success a rest q :
  queue q = a :: rest -> pendingCommands q = ∅ ->
  afterProcessAction success q =
    setLoop (Some AtLoopTop)
      (setQueue (if success then rest
                 else if bool_decide (Queue.MAX_RETRIES <= S (retryCount a)) then rest
                      else rest ++ [bumpRetry a]) q).
Proof.
  intros Hq Hp. unfold afterProcessAction. rewrite Hq.
  destruct success.
  - erewrite shiftIfDone_processed; [done..|]. done.
  - simpl. case_bool_decide; [|done].
    erewrite shiftIfDone_processed; [done..|]. done.
Qed.

Lemma flag_some (P : Prop) (pc pc' : Pc) :
  (P <-> is_Some (Some pc)) -> (P <-> is_Some (Some pc')).
Proof. intros ->. split; eauto. Qed.

Lemma Inv_continue execa q : Inv q -> Inv (continue execa q).
Proof.
  intros HI. pose proof HI as [H1 H2 H3 H4 H5 H6]. unfold continue.
  destruct (loop q) as [pc|] eqn:El; [|done].
  destruct pc as [| | | | | |success].
  - (* the while test *)
    assert (pendingCommands q = ∅) as Hp by (by eapply Inv_pending_empty).
    unfold loopTop. destruct (queue q) as [|a rest] eqn:Eq; [by apply Inv_finish|].
    destruct (paused q) eqn:Epa; [by apply Inv_finish|].
    assert (hasPendingCommands q = false) as -> by by apply hasPendingCommands_false.
    apply Forall_cons in H4 as [[Hrc Hpr] H4].
    rewrite bool_decide_eq_false_2 by lia. rewrite Hpr. simpl.
    destruct (qa_type a) eqn:Et; try case_bool_decide;
      split; queue_simpl; rewrite ?Eq, ?Hp; try done; try (by eapply flag_some); auto.
    right. exists a, rest. split_and!; auto. by rewrite union_empty_r_L.
  - done.
  - (* the command has run *)
    destruct (queue q) as [|a rest] eqn:Eq; [done|].
    destruct (executeCommand _ _ _ _ _) as [res w'].
    split; queue_simpl; rewrite ?Eq; try done; try (by eapply flag_some); auto.
    destruct H2 as [H2|(a' & rest' & Hq & Ht & Hp & Hl)]; [by left|right].
    exists a', rest'. split_and!; auto.
  - (* the settle delay is over *)
    destruct (queue q) as [|a rest] eqn:Eq; [done|].
    set (q0 := setPending _ q).
    destruct (checkIfComplete_fields q0) as (Eq' & Ei & Epa & El' & Epe & _).
    split; queue_simpl; rewrite ?Eq', ?Ei, ?Epa, ?El', ?Epe; subst q0; queue_simpl;
      rewrite ?Eq; try done; try (by eapply flag_some); auto.
    left. destruct H2 as [->|(a' & rest' & Hq & Ht & -> & Hl)].
    + apply empty_difference_L.
    + injection Hq as <- <-. apply difference_diag_L.
  - (* the file change has been applied *)
    destruct (queue q) as [|a rest] eqn:Eq; [done|].
    assert (pendingCommands q = ∅) as Hp by (by eapply Inv_pending_empty).
    destruct (applyFileChange _ _ _ _ _) as [[[]|e] w'].
    + match goal with |- context [checkIfComplete ?x] => set (q0 := x) end.
      destruct (checkIfComplete_fields q0) as (Eq' & Ei & Epa & El' & Epe & _).
      split; queue_simpl; rewrite ?Eq', ?Ei, ?Epa, ?El', ?Epe; subst q0; queue_simpl;
        rewrite ?Eq; try done; try (by eapply flag_some); auto.
    + split; queue_simpl; rewrite ?Eq; try done; try (by eapply flag_some); auto.
  - (* the text has been logged *)
    assert (pendingCommands q = ∅) as Hp by (by eapply Inv_pending_empty).
    destruct (checkIfComplete_fields q) as (Eq' & Ei & Epa & El' & Epe & _).
    split; queue_simpl; rewrite ?Eq', ?Ei, ?Epa, ?El', ?Epe; try done;
      try (by eapply flag_some); auto.
    intros pc [= <-] _. by eapply H3.
  - (* [processAction] has returned *)
    assert (pendingCommands q = ∅) as Hp by (by eapply Inv_pending_empty).
    destruct (queue q) as [|a rest] eqn:Eq; [by exfalso; eapply H3|].
    rewrite (afterProcessAction_queue success a rest q Eq Hp).
    apply Forall_cons in H4 as [[Hrc Hpr] H4].
    split; queue_simpl; rewrite ?Hp; try done; try (by eapply flag_some); auto.
    + intros pc [= <-]. done.
    + destruct success; [done|]. case_bool_decide; [done|].
      apply Forall_app. split; [done|]. constructor; [|done]. simpl. split; [lia|done].
Qed.

Lemma Inv_react e q : Inv q -> Inv (react e q).
Proof.
  destruct e; simpl; auto using Inv_addAction, Inv_pause, Inv_resume, Inv_recheck,
    Inv_waitUntilComplete, Inv_waitTimeout, Inv_continue.
Qed.

Lemma reachable_Inv dir w q : reachable dir w q -> Inv q.
Proof. induction 1; [apply Inv_new | by apply Inv_react]. Qed.

(** Only one invocation of [startProcessing] is ever inside the loop:
    [isProcessing] is set exactly while it is. *)
Lemma single_dispatch_loop dir w q :
  reachable dir w q -> (isProcessing q = true <-> is_Some (loop q)).
Proof. intros Hr. by apply reachable_Inv in Hr as []. Qed.

Lemma pending_checkIfComplete q : pendingCommands (checkIfComplete q) = pendingCommands q.
Proof. apply checkIfComplete_fields. Qed.

Lemma pending_startProcessing q : pendingCommands (startProcessing q) = pendingCommands q.
Proof.
  unfold startProcessing. destruct (isProcessing q || paused q); [done|].
  destruct (queue q); [|done]. apply pending_checkIfComplete.
Qed.

Lemma pending_finish q : pendingCommands (finish q) = pendingCommands q.
Proof.
  unfold finish.
  set (q1 := checkIfComplete (setLoop None (setIsProcessing false q))).
  assert (pendingCommands q1 = pendingCommands q) as E
    by (unfold q1; by rewrite pending_checkIfComplete).
  destruct (hasPendingCommands q1); [done|].
  destruct (negb (bool_decide (queue q1 = [])) && negb (paused q1)); [|done].
  by rewrite pending_startProcessing.
Qed.

Lemma pending_shiftIfDone q : pendingCommands (shiftIfDone q) = pendingCommands q.
Proof.
  unfold shiftIfDone. destruct (queue q) as [|a rest]; [done|].
  by destruct (processed a && _).
Qed.

Lemma pending_afterProcessAction success q :
  pendingCommands (afterProcessAction success q) = pendingCommands q.
Proof.
  unfold afterProcessAction. destruct (queue q) as [|a rest]; [done|].
  destruct success; [|case_bool_decide];
    change (pendingCommands (setLoop ?l ?x)) with (pendingCommands x);
    rewrite ?pending_shiftIfDone; done.
Qed.

(** A step that adds a command to [pendingCommands] starts from an
    empty set. *)
Lemma pending_react e q :
  pendingCommands (react e q) ⊆ pendingCommands q
  \/ pendingCommands q = ∅ /\ exists a rest, queue q = a :: rest /\ qa_type a = COMMAND
       /\ loop (react e q) = Some AwaitExec /\ pendingCommands (react e q) = {[qa_id a]}.
Proof.
  destruct e as [type path content id| | | |w|w|execa]; simpl.
  - left. unfold addAction. destruct (_ && _); [rewrite pending_startProcessing|]; done.
  - left. unfold pause. by destruct (negb (paused q)).
  - left. unfold resume. destruct (paused q); [|done].
    destruct (_ && _); [rewrite pending_startProcessing|]; done.
  - left. unfold recheck. destruct (_ && _); [rewrite pending_startProcessing|]; done.
  - left. unfold waitUntilComplete. by destruct (_ && _).
  - left. unfold waitTimeout. by destruct (bool_decide _).
  - unfold continue. destruct (loop q) as [[| | | | | |success]|] eqn:El; try (by left).
    + unfold loopTop. destruct (queue q) as [|a rest] eqn:Eq; [left; by rewrite pending_finish|].
      destruct (paused q); [left; by rewrite pending_finish|].
      destruct (hasPendingCommands q) eqn:Ep; [by left|].
      case_bool_decide; [by left|].
      destruct (processed a); simpl.
      * left. by rewrite pending_shiftIfDone.
      * apply hasPendingCommands_false in Ep.
        destruct (qa_type a) eqn:Et; try case_bool_decide; try (by left).
        right. split; [done|]. exists a, rest. split_and!; try done.
        queue_simpl. rewrite Ep. by rewrite union_empty_r_L.
    + left. destruct (queue q); [done|]. by destruct (executeCommand _ _ _ _ _).
    + left. destruct (queue q); [done|].
      change (pendingCommands (setLoop ?l ?x)) with (pendingCommands x).
      rewrite pending_checkIfComplete. simpl. apply subseteq_difference_l. done.
    + left. destruct (queue q); [done|].
      destruct (applyFileChange _ _ _ _ _) as [[[]|e] w']; [|done].
      change (pendingCommands (setLoop ?l ?x)) with (pendingCommands x).
      by rewrite pending_checkIfComplete.
    + left. change (pendingCommands (setLoop ?l ?x)) with (pendingCommands x).
      by rewrite pending_checkIfComplete.
    + left. by rewrite pending_afterProcessAction.
Qed.

(** C2. In every reachable state of a queue at most one command is
    pending; a pending command is the head of the queue, dispatched by
    the one running loop and not yet completed; no step adds a command
    to the pending set while it is non-empty; the loop, finding at its
    head test a pending command, defers the head action (the queue is
    left as it is) and re-checks after its sleep. *)
Theorem at_most_one_pending_command (dir : str) (w : World) (q : ActionQueue) :
  reachable dir w q ->
  size (pendingCommands q) <= 1
  /\ (forall id, id ∈ pendingCommands q ->
        exists a rest, queue q = a :: rest /\ qa_type a = COMMAND /\ qa_id a = id
          /\ (loop q = Some AwaitExec \/ loop q = Some AwaitSettle))
  /\ (forall e, pendingCommands q <> ∅ -> pendingCommands (react e q) ⊆ pendingCommands q)
  /\ (forall e, size (pendingCommands (react e q)) <= 1)
  /\ (forall q0 execa a rest,
        loop q0 = Some AtLoopTop -> queue q0 = a :: rest -> paused q0 = false ->
        hasPendingCommands q0 = true ->
        continue execa q0 = setLoop (Some Sleeping) q0
        /\ queue (continue execa q0) = a :: rest
        /\ pendingCommands (continue execa q0) = pendingCommands q0
        /\ continue execa (continue execa q0) = q0).
Proof.
  intros Hr. pose proof (reachable_Inv _ _ _ Hr) as HI.
  assert (Hsize : forall q', Inv q' -> size (pendingCommands q') <= 1).
  { intros q' [_ [->|(a & rest & _ & _ & -> & _)] _ _ _ _].
    - rewrite size_empty. lia.
    - rewrite size_singleton. lia. }
  split_and!.
  - by apply Hsize.
  - intros id Hid. destruct HI as [_ [He|(a & rest & Hq & Ht & Hp & Hl)] _ _ _ _].
    + rewrite He in Hid. by apply not_elem_of_empty in Hid.
    + exists a, rest. rewrite Hp in Hid. apply elem_of_singleton in Hid. by subst.
  - intros e Hne. destruct (pending_react e q) as [?|[? _]]; done.
  - intros e. apply Hsize. by apply Inv_react.
  - intros q0 execa a rest Hl Hq Hpa Hpe.
    assert (continue execa q0 = setLoop (Some Sleeping) q0) as E.
    { unfold continue. rewrite Hl. unfold loopTop. by rewrite Hq, Hpa, Hpe. }
    rewrite E. split_and!; try done.
    unfold continue. simpl. destruct q0; simpl in *. by subst.
Qed.

(** A queue with one command being executed. *)
Definition quietExeca : Execa := fun _ _ _ _ w => (Exited [] [], w).

Definition emptyWorld : World := {| entries := ∅; trace := [] |}.

Definition busyQueue : ActionQueue :=
  react (EvContinue quietExeca)
    (react (EvAddAction COMMAND [] (lit "npm install") (lit "action-1"))
       (newQueue (lit "/p1") emptyWorld)).

Lemma at_most_one_pending_command_witness :
  pendingCommands busyQueue = {[lit "action-1"]}
  /\ size (pendingCommands busyQueue) <= 1.
Proof.
  split; [vm_compute; reflexivity|].
  pose proof (at_most_one_pending_command (lit "/p1") emptyWorld busyQueue) as H.
  destruct H as [H _]; [|exact H].
  unfold busyQueue. apply reach_step, reach_step, reach_new.
Defined.

(** *** Retries and draining *)

Definition NoWaiterIdle (q : ActionQueue) : Prop :=
  loop q = None -> queue q = [] -> queueEmptyResolvers q = [].

Lemma NoWaiterIdle_checkIfComplete q :
  Inv q -> NoWaiterIdle q -> NoWaiterIdle (checkIfComplete q).
Proof.
  intros HI Hn Hl Hq. destruct (checkIfComplete_fields q) as (Eq & _ & _ & El & _).
  rewrite El in Hl. rewrite Eq in Hq.
  unfold checkIfComplete. destruct (isComplete q); [done|]. by apply Hn.
Qed.

Lemma NoWaiterIdle_startProcessing q :
  (loop q = None -> queue q = [] -> isComplete q = true) ->
  (isProcessing q = true \/ paused q = true -> NoWaiterIdle q) ->
  NoWaiterIdle (startProcessing q).
Proof.
  intros Hc Hn. unfold startProcessing.
  destruct (isProcessing q) eqn:Ep; simpl; [by apply Hn; left|].
  destruct (paused q) eqn:Epa; simpl; [by apply Hn; right|].
  destruct (queue q) as [|a rest] eqn:Eq; [|done].
  intros Hl Hq. destruct (checkIfComplete_fields q) as (_ & _ & _ & El & _).
  rewrite El in Hl. unfold checkIfComplete. by rewrite Hc.
Qed.

Lemma isComplete_idle q : Inv q -> loop q = None -> queue q = [] -> isComplete q = true.
Proof.
  intros HI Hl Hq. unfold isComplete. rewrite Hq.
  rewrite (proj2 (hasPendingCommands_false q)) by (by apply Inv_pending_idle).
  destruct (isProcessing q) eqn:E; [|done].
  destruct HI as [H1 _ _ _ _ _]. apply H1 in E. rewrite Hl in E. by destruct E.
Qed.

Lemma NoWaiterIdle_finish q :
  Inv q -> pendingCommands q = ∅ -> NoWaiterIdle (finish q).
Proof.
  intros HI Hp. unfold finish.
  set (q0 := setLoop None (setIsProcessing false q)).
  set (q1 := checkIfComplete q0).
  destruct (checkIfComplete_fields q0) as (Eq & Ei & Epa & El & Epe & _).
  fold q1 in Eq, Ei, Epa, El, Epe. subst q0. queue_simpl.
  assert (Hn1 : NoWaiterIdle q1).
  { intros _ Hq. rewrite Eq in Hq. unfold q1, checkIfComplete, isComplete. simpl.
    rewrite Hq. unfold hasPendingCommands. simpl. rewrite Hp, size_empty. done. }
  assert (hasPendingCommands q1 = false) as -> by (apply hasPendingCommands_false; congruence).
  destruct (negb (bool_decide (queue q1 = [])) && negb (paused q1)) eqn:E; [|done].
  apply NoWaiterIdle_startProcessing; [|done].
  intros _ Hq. rewrite Hq in E. done.
Qed.

Lemma NoWaiterIdle_react e q : Inv q -> NoWaiterIdle q -> NoWaiterIdle (react e q).
Proof.
  intros HI Hn. pose proof HI as [H1 H2 H3 H4 H5 H6].
  destruct e as [type path content id| | | |w|w|execa]; simpl.
  - unfold addAction. destruct (_ && _).
    + apply NoWaiterIdle_startProcessing; queue_simpl.
      * intros _ Hq. by destruct (queue q).
      * intros _ _ Hq. by destruct (queue q).
    + intros _ Hq. queue_simpl. by destruct (queue q).
  - unfold pause. by destruct (negb (paused q)).
  - unfold resume. destruct (paused q); [|done]. destruct (_ && _); [|done].
    apply NoWaiterIdle_startProcessing; [|done].
    intros Hl Hq. by apply (isComplete_idle q).
  - unfold recheck. destruct (_ && _); [|done].
    apply NoWaiterIdle_startProcessing; [|done]. by apply isComplete_idle.
  - unfold waitUntilComplete.
    destruct (bool_decide (queue q = []) && negb (hasPendingCommands q)) eqn:E; [done|].
    intros Hl Hq. simpl in *. exfalso. rewrite Hq in E. simpl in E.
    apply negb_false_iff, hasPendingCommands_true in E. by apply E, Inv_pending_idle.
  - unfold waitTimeout. destruct (bool_decide _); [|done].
    intros Hl Hq. simpl in *. by rewrite Hn.
  - unfold continue. destruct (loop q) as [[| | | | | |success]|] eqn:El; try done.
    + assert (pendingCommands q = ∅) as Hp by (by eapply Inv_pending_empty).
      unfold loopTop. destruct (queue q) as [|a rest] eqn:Eq; [by apply NoWaiterIdle_finish|].
      destruct (paused q) eqn:Epa; [by apply NoWaiterIdle_finish|].
      assert (hasPendingCommands q = false) as -> by by apply hasPendingCommands_false.
      apply Forall_cons in H4 as [[Hrc Hpr] H4].
      rewrite bool_decide_eq_false_2 by lia. rewrite Hpr. simpl.
      destruct (qa_type a); try case_bool_decide; done.
    + destruct (queue q); [done|]. by destruct (executeCommand _ _ _ _ _).
    + destruct (queue q); [done|]. done.
    + destruct (queue q); [done|]. by destruct (applyFileChange _ _ _ _ _) as [[[]|e] w'].
    + assert (pendingCommands q = ∅) as Hp by (by eapply Inv_pending_empty).
      destruct (queue q) as [|a rest] eqn:Eq; [by exfalso; eapply H3|].
      by rewrite (afterProcessAction_queue success a rest q Eq Hp).
Qed.

Lemma reachable_NoWaiterIdle dir w q : reachable dir w q -> NoWaiterIdle q.
Proof.
  induction 1; [done|]. apply NoWaiterIdle_react; [|done]. by eapply reachable_Inv.
Qed.

(** The steps the loop still needs: four per remaining attempt of every
    queued action, less those already made in the current iteration. *)
Definition weight (a : QueuedAction) : nat := 4 * (Queue.MAX_RETRIES - retryCount a).

Definition phase (pc : Pc) : nat :=
  match pc with
  | AtLoopTop | Sleeping => 0
  | AwaitExec => 1
  | AwaitSettle | AwaitFile | AwaitText => 2
  | AwaitResult _ => 3
  end.

Definition stepsLeft (q : ActionQueue) : nat :=
  match loop q with
  | None => 0
  | Some pc => 1 + sum_list_with weight (queue q) - phase pc
  end.

Lemma paused_checkIfComplete q : paused (checkIfComplete q) = paused q.
Proof. apply checkIfComplete_fields. Qed.

Lemma paused_startProcessing q : paused (startProcessing q) = paused q.
Proof.
  unfold startProcessing. destruct (isProcessing q || paused q); [done|].
  destruct (queue q); [|done]. apply paused_checkIfComplete.
Qed.

Lemma shiftIfDone_cases q :
  shiftIfDone q = q \/ exists a rest, queue q = a :: rest /\ shiftIfDone q = setQueue rest q.
Proof.
  unfold shiftIfDone. destruct (queue q) as [|a rest]; [by left|].
  destruct (processed a && _); [right; by exists a, rest | by left].
Qed.

Lemma paused_shiftIfDone q : paused (shiftIfDone q) = paused q.
Proof. by destruct (shiftIfDone_cases q) as [->|(a & rest & _ & ->)]. Qed.

Lemma paused_continue execa q : paused (continue execa q) = paused q.
Proof.
  unfold continue. destruct (loop q) as [[| | | | | |success]|]; try done.
  - unfold loopTop, finish.
    assert (forall q, paused (if hasPendingCommands (checkIfComplete (setLoop None (setIsProcessing false q)))
              then checkIfComplete (setLoop None (setIsProcessing false q))
              else if negb (bool_decide (queue (checkIfComplete (setLoop None (setIsProcessing false q))) = []))
                      && negb (paused (checkIfComplete (setLoop None (setIsProcessing false q))))
                   then startProcessing (checkIfComplete (setLoop None (setIsProcessing false q)))
                   else checkIfComplete (setLoop None (setIsProcessing false q))) = paused q) as Hf.
    { intros q'. destruct (hasPendingCommands _); [by rewrite paused_checkIfComplete|].
      destruct (_ && _); rewrite ?paused_startProcessing, paused_checkIfComplete; done. }
    destruct (queue q) as [|a rest] eqn:Eq; [apply Hf|].
    destruct (paused q) eqn:Epa; [by rewrite Hf|].
    destruct (hasPendingCommands q); [done|]. case_bool_decide; [done|].
    destruct (processed a); simpl.
    + by rewrite paused_shiftIfDone.
    + destruct (qa_type a); try case_bool_decide; done.
  - destruct (queue q); [done|]. by destruct (executeCommand _ _ _ _ _).
  - destruct (queue q); [done|].
    change (paused (setLoop ?l ?x)) with (paused x). by rewrite paused_checkIfComplete.
  - destruct (queue q); [done|]. destruct (applyFileChange _ _ _ _ _) as [[[]|e] w']; [|done].
    change (paused (setLoop ?l ?x)) with (paused x). by rewrite paused_checkIfComplete.
  - change (paused (setLoop ?l ?x)) with (paused x). by rewrite paused_checkIfComplete.
  - unfold afterProcessAction. destruct (queue q) as [|a rest]; [done|].
    destruct success; [|case_bool_decide]; try done;
      change (paused (setLoop ?l ?x)) with (paused x); by rewrite paused_shiftIfDone.
Qed.

Lemma weight_pos a : retryCount a < Queue.MAX_RETRIES -> 4 <= weight a.
Proof. unfold weight. lia. Qed.

Lemma weight_bump a :
  S (retryCount a) < Queue.MAX_RETRIES -> weight (bumpRetry a) + 4 = weight a.
Proof. unfold weight, bumpRetry. cbn [retryCount]. lia. Qed.

Lemma stepsLeft_checkIfComplete q : stepsLeft (checkIfComplete q) = stepsLeft q.
Proof.
  unfold stepsLeft. by destruct (checkIfComplete_fields q) as (-> & _ & _ & -> & _).
Qed.

Lemma stepsLeft_finish q : pendingCommands q = ∅ -> queue q = [] -> stepsLeft (finish q) = 0.
Proof.
  intros Hp Hq. unfold finish. set (q1 := checkIfComplete _).
  assert (hasPendingCommands q1 = false) as ->.
  { apply hasPendingCommands_false. unfold q1. by rewrite pending_checkIfComplete. }
  assert (queue q1 = []) as ->.
  { unfold q1. by destruct (checkIfComplete_fields (setLoop None (setIsProcessing false q)))
      as (-> & _). }
  simpl. unfold q1. by rewrite stepsLeft_checkIfComplete.
Qed.

Opaque weight.

Ltac fold_fmap :=
  repeat match goal with
  | |- context [list_fmap ?A ?B ?f ?l] => change (list_fmap A B f l) with (f <$> l)
  end.

Lemma continue_decreases execa q :
  Inv q -> paused q = false -> is_Some (loop q) ->
  stepsLeft (continue execa q) < stepsLeft q.
Proof.
  intros HI Hpa [pc El]. pose proof HI as [H1 H2 H3 H4 H5 H6].
  unfold stepsLeft at 2. rewrite El. unfold continue. rewrite El.
  destruct pc as [| | | | | |success].
  - assert (pendingCommands q = ∅) as Hp by (by eapply Inv_pending_empty).
    unfold loopTop. rewrite Hpa.
    destruct (queue q) as [|a rest] eqn:Eq; [rewrite stepsLeft_finish by done; simpl; fold_fmap; lia|].
    assert (hasPendingCommands q = false) as -> by by apply hasPendingCommands_false.
    apply Forall_cons in H4 as [[Hrc Hpr] H4].
    rewrite bool_decide_eq_false_2 by lia. rewrite Hpr. simpl.
    pose proof (weight_pos a Hrc).
    destruct (qa_type a); try case_bool_decide; unfold stepsLeft; simpl; rewrite ?Eq; simpl; fold_fmap; lia.
  - done.
  - destruct (queue q) as [|a rest] eqn:Eq; [by exfalso; eapply H3|].
    apply Forall_cons in H4 as [[Hrc Hpr] H4]. pose proof (weight_pos a Hrc).
    destruct (executeCommand _ _ _ _ _). unfold stepsLeft. simpl. rewrite ?Eq. simpl; fold_fmap; lia.
  - destruct (queue q) as [|a rest] eqn:Eq; [by exfalso; eapply H3|].
    apply Forall_cons in H4 as [[Hrc Hpr] H4]. pose proof (weight_pos a Hrc).
    unfold stepsLeft. unfold setLoop. cbn [loop queue].
    match goal with |- context [queue (checkIfComplete ?x)] =>
      destruct (checkIfComplete_fields x) as (-> & _) end.
    unfold setPending. cbn [queue]. rewrite ?Eq. simpl; fold_fmap; lia.
  - destruct (queue q) as [|a rest] eqn:Eq; [by exfalso; eapply H3|].
    apply Forall_cons in H4 as [[Hrc Hpr] H4]. pose proof (weight_pos a Hrc).
    destruct (applyFileChange _ _ _ _ _) as [[[]|e] w']; unfold stepsLeft, setLoop; cbn [loop queue].
    + match goal with |- context [queue (checkIfComplete ?x)] =>
        destruct (checkIfComplete_fields x) as (-> & _) end.
      cbn [queue]. rewrite ?Eq. simpl; fold_fmap; lia.
    + rewrite ?Eq. simpl; fold_fmap; lia.
  - destruct (queue q) as [|a rest] eqn:Eq; [by exfalso; eapply H3|].
    apply Forall_cons in H4 as [[Hrc Hpr] H4]. pose proof (weight_pos a Hrc).
    unfold stepsLeft, setLoop. cbn [loop queue].
    destruct (checkIfComplete_fields q) as (-> & _). rewrite ?Eq. simpl; fold_fmap; lia.
  - assert (pendingCommands q = ∅) as Hp by (by eapply Inv_pending_empty).
    destruct (queue q) as [|a rest] eqn:Eq; [by exfalso; eapply H3|].
    rewrite (afterProcessAction_queue success a rest q Eq Hp).
    apply Forall_cons in H4 as [[Hrc Hpr] H4]. pose proof (weight_pos a Hrc).
    unfold stepsLeft, setLoop, setQueue. cbn [loop queue].
    destruct success; [simpl; fold_fmap; lia|]. case_bool_decide; [simpl; fold_fmap; lia|].
    rewrite sum_list_with_app. simpl.
    pose proof (weight_bump a ltac:(lia)). lia.
Qed.

Transparent weight.

Lemma dispatch_idle execa n q : loop q = None -> dispatch execa n q = q.
Proof.
  intros Hl. induction n as [|n IH]; [done|]. simpl.
  unfold continue at 1. rewrite Hl. exact IH.
Qed.

Lemma dispatch_Inv execa n : forall q, Inv q -> Inv (dispatch execa n q).
Proof. induction n as [|n IH]; intros q HI; [done|]. simpl. by apply IH, Inv_continue. Qed.

Lemma stepsLeft_pos q : Inv q -> is_Some (loop q) -> 0 < stepsLeft q.
Proof.
  intros [H1 H2 H3 H4 H5 H6] [pc El]. unfold stepsLeft. rewrite El.
  assert (pc = AtLoopTop \/ pc <> AtLoopTop) as [->|Hne]
    by (destruct pc; auto; by right); [simpl; lia|].
  specialize (H3 pc El Hne). destruct (queue q) as [|a rest]; [done|].
  apply Forall_cons in H4 as [[Hrc _] _]. pose proof (weight_pos a Hrc).
  simpl. destruct pc; simpl; lia.
Qed.

Lemma dispatch_stops execa n : forall q,
  Inv q -> paused q = false -> stepsLeft q <= n ->
  loop (dispatch execa n q) = None /\ paused (dispatch execa n q) = false.
Proof.
  induction n as [|n IH]; intros q HI Hpa Hs.
  - simpl. split; [|done]. destruct (loop q) eqn:El; [|done].
    pose proof (stepsLeft_pos q HI ltac:(rewrite El; eauto)). lia.
  - destruct (loop q) as [pc|] eqn:El.
    + simpl. apply IH.
      * by apply Inv_continue.
      * by rewrite paused_continue.
      * pose proof (continue_decreases execa q HI Hpa) as Hd.
        rewrite El in Hd. specialize (Hd ltac:(eauto)). lia.
    + by rewrite dispatch_idle.
Qed.

Definition waiters (q : ActionQueue) : list nat := queueEmptyResolvers q ++ resolved q.

Lemma waiters_checkIfComplete q w0 : w0 ∈ waiters q -> w0 ∈ waiters (checkIfComplete q).
Proof.
  unfold waiters, checkIfComplete. destruct (isComplete q); [|done]. simpl.
  rewrite !elem_of_app. tauto.
Qed.

Lemma waiters_startProcessing q w0 : w0 ∈ waiters q -> w0 ∈ waiters (startProcessing q).
Proof.
  unfold startProcessing. destruct (isProcessing q || paused q); [done|].
  destruct (queue q); [apply waiters_checkIfComplete|done].
Qed.

Lemma waiters_finish q w0 : w0 ∈ waiters q -> w0 ∈ waiters (finish q).
Proof.
  intros Hw. unfold finish.
  assert (w0 ∈ waiters (checkIfComplete (setLoop None (setIsProcessing false q)))) as Hw'
    by by apply waiters_checkIfComplete.
  destruct (hasPendingCommands _); [done|].
  destruct (_ && _); [by apply waiters_startProcessing|done].
Qed.

Lemma waiters_shiftIfDone q : waiters (shiftIfDone q) = waiters q.
Proof. by destruct (shiftIfDone_cases q) as [->|(a & rest & _ & ->)]. Qed.

Lemma waiters_continue execa q w0 : w0 ∈ waiters q -> w0 ∈ waiters (continue execa q).
Proof.
  intros Hw. unfold continue. destruct (loop q) as [[| | | | | |success]|]; try done.
  - unfold loopTop. destruct (queue q) as [|a rest] eqn:Eq; [by apply waiters_finish|].
    destruct (paused q); [by apply waiters_finish|].
    destruct (hasPendingCommands q); [done|]. case_bool_decide; [done|].
    destruct (processed a); simpl.
    + by rewrite waiters_shiftIfDone.
    + destruct (qa_type a); try case_bool_decide; done.
  - destruct (queue q); [done|]. by destruct (executeCommand _ _ _ _ _).
  - destruct (queue q); [done|].
    change (waiters (setLoop ?l ?x)) with (waiters x). by apply waiters_checkIfComplete.
  - destruct (queue q); [done|]. destruct (applyFileChange _ _ _ _ _) as [[[]|e] w']; [|done].
    change (waiters (setLoop ?l ?x)) with (waiters x). by apply waiters_checkIfComplete.
  - change (waiters (setLoop ?l ?x)) with (waiters x). by apply waiters_checkIfComplete.
  - unfold afterProcessAction. destruct (queue q) as [|a rest]; [done|].
    destruct success; [|case_bool_decide]; try done;
      change (waiters (setLoop ?l ?x)) with (waiters x); by rewrite waiters_shiftIfDone.
Qed.

Lemma waiters_dispatch execa n w0 : forall q,
  w0 ∈ waiters q -> w0 ∈ waiters (dispatch execa n q).
Proof.
  induction n as [|n IH]; intros q Hw; [done|]. simpl. by apply IH, waiters_continue.
Qed.

Lemma NoWaiterIdle_dispatch execa n : forall q,
  Inv q -> NoWaiterIdle q -> NoWaiterIdle (dispatch execa n q).
Proof.
  induction n as [|n IH]; intros q HI Hn; [done|]. simpl.
  apply IH; [by apply Inv_continue|]. by apply (NoWaiterIdle_react (EvContinue execa)).
Qed.

Lemma stepsLeft_bound q :
  stepsLeft q <= 1 + 4 * Queue.MAX_RETRIES * length (queue q).
Proof.
  unfold stepsLeft, Queue.MAX_RETRIES. destruct (loop q); [|lia].
  assert (sum_list_with weight (queue q) <= 12 * length (queue q)); [|lia].
  induction (queue q) as [|a l IH]; cbn [sum_list_with length]; [lia|].
  unfold weight at 1, Queue.MAX_RETRIES. lia.
Qed.

(** The claim of C3 on one failure: an action that has failed at most
    [MAX_RETRIES] times, the present failure included, goes back to the
    tail of the queue. *)
Definition FailuresRequeuedUpToMaxRetries : Prop :=
  forall (dir : str) (w : World) (q : ActionQueue) (execa : Execa)
         (a : QueuedAction) (rest : list QueuedAction),
    reachable dir w q ->
    loop q = Some (AwaitResult false) ->
    queue q = a :: rest ->
    S (retryCount a) <= Queue.MAX_RETRIES ->
    queue (continue execa q) = rest ++ [bumpRetry a].

Lemma reachable_run dir w events : reachable dir w (run events (newQueue dir w)).
Proof.
  unfold run. induction events as [|e events IH] using rev_ind; [apply reach_new|].
  rewrite foldl_app. simpl. by apply reach_step.
Qed.

(** A DELETE whose path leaves the project, about to fail for the third
    time: it was added, then the loop was resumed eight times. *)
Definition escapingDelete : list Event :=
  EvAddAction DELETE (lit "../../etc/passwd") [] (lit "action-1")
  :: replicate 8 (EvContinue quietExeca).

(** C3, counterexample. The third failure of an action, which brings
    [retryCount] to [MAX_RETRIES = 3], does not move it to the tail: the
    action is dropped, after three attempts and not four. *)
Lemma third_failure_drops_the_action : ~ FailuresRequeuedUpToMaxRetries.
Proof.
  intros H.
  pose proof (H (lit "/p1") emptyWorld (run escapingDelete (newQueue (lit "/p1") emptyWorld))
                quietExeca
                {| qa_type := DELETE; qa_path := lit "../../etc/passwd"; qa_content := [];
                   processed := false; retryCount := 2; qa_id := lit "action-1" |} []
                (reachable_run _ _ _)) as H'.
  assert (queue (continue quietExeca (run escapingDelete (newQueue (lit "/p1") emptyWorld)))
          = []) as E by (vm_compute; reflexivity).
  rewrite E in H'. discriminate H'.
  - vm_compute. reflexivity.
  - vm_compute. reflexivity.
  - unfold Queue.MAX_RETRIES. simpl. lia.
Qed.

(** C3, amended. Every failure increments [retryCount]; while the count
    stays below [MAX_RETRIES] the action moves to the tail of the queue,
    and the failure that brings it to [MAX_RETRIES] (the third) drops
    the action, so an action is attempted at most [MAX_RETRIES] times
    and no queued action has a [retryCount] of [MAX_RETRIES] or more.
    Left to itself, an unpaused queue empties in a bounded number of
    steps whatever its actions do, its loop ends and [checkIfComplete]
    resolves every waiter of [waitUntilComplete]; the time-out of a
    waiter resolves it in any case. *)
Theorem failing_action_is_dropped_and_queue_drains (dir : str) (w : World) (q : ActionQueue) :
  reachable dir w q ->
  Forall (fun a => retryCount a < Queue.MAX_RETRIES) (queue q)
  /\ (forall execa a rest,
        loop q = Some (AwaitResult false) -> queue q = a :: rest ->
        S (retryCount a) <= Queue.MAX_RETRIES
        /\ queue (continue execa q) =
             if bool_decide (S (retryCount a) < Queue.MAX_RETRIES)
             then rest ++ [bumpRetry a] else rest)
  /\ stepsLeft q <= 1 + 4 * Queue.MAX_RETRIES * length (queue q)
  /\ (paused q = false ->
      forall execa n, stepsLeft q <= n ->
        queue (dispatch execa n q) = []
        /\ loop (dispatch execa n q) = None
        /\ isComplete (dispatch execa n q) = true
        /\ queueEmptyResolvers (dispatch execa n q) = []
        /\ forall w0, w0 ∈ queueEmptyResolvers q -> w0 ∈ resolved (dispatch execa n q))
  /\ (forall w0, w0 ∈ queueEmptyResolvers q -> w0 ∈ resolved (waitTimeout w0 q)).
Proof.
  intros Hr. pose proof (reachable_Inv _ _ _ Hr) as HI.
  pose proof (reachable_NoWaiterIdle _ _ _ Hr) as Hn.
  pose proof HI as [H1 H2 H3 H4 H5 H6].
  split_and!.
  - eapply Forall_impl; [exact H4|]. by intros a [? _].
  - intros execa a rest Hl Hq.
    assert (pendingCommands q = ∅) as Hp by (by eapply Inv_pending_empty).
    rewrite Hq in H4. apply Forall_cons in H4 as [[Hrc _] _]. split; [lia|].
    unfold continue. rewrite Hl, (afterProcessAction_queue false a rest q Hq Hp). simpl.
    repeat case_bool_decide; try done; lia.
  - apply stepsLeft_bound.
  - intros Hpa execa n Hs.
    destruct (dispatch_stops execa n q HI Hpa Hs) as [Hl Hpa'].
    pose proof (dispatch_Inv execa n q HI) as HI'.
    pose proof (NoWaiterIdle_dispatch execa n q HI Hn) as Hn'.
    assert (queue (dispatch execa n q) = []) as Hq by by apply HI'.
    split_and!; try done.
    + by apply isComplete_idle.
    + by apply Hn'.
    + intros w0 Hw0.
      assert (w0 ∈ waiters (dispatch execa n q)) as Hw.
      { apply waiters_dispatch. unfold waiters. apply elem_of_app. by left. }
      unfold waiters in Hw. rewrite (Hn' Hl Hq) in Hw. done.
  - intros w0 Hw0. unfold waitTimeout. rewrite bool_decide_eq_true_2 by done. simpl.
    apply elem_of_app. right. by apply list_elem_of_singleton.
Qed.

Lemma failing_action_is_dropped_and_queue_drains_witness :
  queue (dispatch quietExeca 2 (run escapingDelete (newQueue (lit "/p1") emptyWorld))) = []
  /\ loop (dispatch quietExeca 2 (run escapingDelete (newQueue (lit "/p1") emptyWorld))) = None.
Proof.
  pose proof (failing_action_is_dropped_and_queue_drains (lit "/p1") emptyWorld
                (run escapingDelete (newQueue (lit "/p1") emptyWorld))
                (reachable_run _ _ _)) as (_ & _ & _ & Hd & _).
  destruct (Hd eq_refl quietExeca 2) as (Hq & Hl & _).
  - vm_compute. lia.
  - split; [exact Hq | exact Hl].
Defined.

End QueueProofs.

(** ** The file mutator *)

Section FileMutatorProofs.

Lemma ensured_entries_file (ds : list (list str)) (m : gmap (list str) node) l c :
  Forall (fun d => forall c', m !! d <> Some (File c')) ds ->
  foldr (fun d m => <[d := Dir]> m) m ds !! l = Some (File c) <-> m !! l = Some (File c).
Proof.
  induction ds as [|d ds IH]; intros Hds; [done|].
  apply Forall_cons in Hds as [Hd Hds]. simpl.
  destruct (decide (d = l)) as [->|Hne].
  - rewrite lookup_insert_eq. split; [done|]. intros Hl. by apply Hd in Hl.
  - rewrite lookup_insert_ne by done. by apply IH.
Qed.

Lemma no_file_prefix w ds :
  existsb (isFile w) ds = false ->
  Forall (fun d => forall c', entries w !! d <> Some (File c')) ds.
Proof.
  intros He. apply Forall_forall. intros d Hd c' Hc.
  assert (existsb (isFile w) ds = true) as Ht; [|congruence].
  apply existsb_exists. exists d. split; [by apply list_elem_of_In|].
  unfold isFile. by rewrite Hc.
Qed.

(** [fs.ensureDir(path.dirname(p))] writes no file and leaves every
    file as it is. *)
Lemma ensureDirOf_spec p w :
  exists r w', ensureDirOf p w = (r, w')
    /\ trace w' = trace w ++ [EnsureDir (dirnameLocation p)]
    /\ (forall l c, entries w' !! l = Some (File c) <-> entries w !! l = Some (File c)).
Proof.
  unfold ensureDirOf, mbind, M_bind, record, perform. simpl.
  destruct (existsb _ _) eqn:E; eexists _, _; (split; [reflexivity|]); simpl; split; try done.
  intros l c. apply ensured_entries_file.
  by apply (no_file_prefix (mkWorld (entries w) (trace w ++ [EnsureDir (dirnameLocation p)]))).
Qed.

Lemma run_bind {A B} (m : M A) (f : A -> M B) (w : World) :
  (m ≫= f) w = match m w with
               | (Ok a, w') => f a w'
               | (Throw e, w') => (Throw e, w')
               end.
Proof. reflexivity. Qed.

Lemma run_lift {A} (r : result A) (w : World) : lift r w = (r, w).
Proof. reflexivity. Qed.

Lemma run_pathExists p w :
  pathExists p w =
    (Ok (if endsWithSlash p then isDir w (location p)
         else bool_decide (location p = []) || bool_decide (is_Some (entries w !! location p))),
     {| entries := entries w; trace := trace w ++ [PathExists (location p)] |}).
Proof. unfold pathExists, record, perform. rewrite run_bind. simpl. by destruct (endsWithSlash p). Qed.

Lemma run_readFile p w :
  readFile p w =
    (if endsWithSlash p then Throw FsError
     else match entries w !! location p with Some (File c) => Ok c | _ => Throw FsError end,
     {| entries := entries w; trace := trace w ++ [ReadFile (location p)] |}).
Proof.
  unfold readFile, record, perform. rewrite run_bind. simpl.
  destruct (endsWithSlash p); [done|].
  by destruct (entries w !! location p) as [[c|]|].
Qed.

(** C7. For a path the resolver accepts: an EDIT whose content is what
    [fs.readFile] returns for the file performs no write ([fs.writeFile]
    and [fs.unlink] are not called) and leaves every file as it is; a
    DELETE of a path for which [fs.pathExists] is false calls nothing
    but [fs.pathExists], changes nothing and returns without error. *)
Theorem identical_edit_and_absent_delete_write_nothing
    (projectDir filePath content fullPath : str) (w : World) :
  resolveProjectPath projectDir (cleanFilePath filePath) = Ok fullPath ->
  (fst (readFile fullPath w) = Ok content ->
   exists r w' calls,
     applyFileChange projectDir EDIT filePath content w = (r, w')
     /\ trace w' = trace w ++ calls
     /\ Forall (fun c => isWrite c = false) calls
     /\ (forall l c, entries w' !! l = Some (File c) <-> entries w !! l = Some (File c))
     /\ entries w' !! location fullPath = Some (File content))
  /\ (fst (pathExists fullPath w) = Ok false ->
      applyFileChange projectDir DELETE filePath content w
      = (Ok tt, {| entries := entries w;
                   trace := trace w ++ [PathExists (location fullPath)] |})).
Proof.
  intros Hres. split.
  - intros Hread.
    assert (endsWithSlash fullPath = false
            /\ entries w !! location fullPath = Some (File content)) as [Hslash Hfile].
    { rewrite run_readFile in Hread. cbn [fst] in Hread.
      destruct (endsWithSlash fullPath); [done|].
      destruct (entries w !! location fullPath) as [[c|]|]; by simplify_eq. }
    destruct (ensureDirOf_spec fullPath w) as (r0 & w0 & He & Ht & Hf).
    unfold applyFileChange. rewrite run_bind, run_lift, Hres, run_bind, He.
    destruct r0 as [[]|e].
    + assert (entries w0 !! location fullPath = Some (File content)) as Hfile0 by by apply Hf.
      rewrite run_bind. unfold try_catch, fileExistsInProject, readProjectFileAsync.
      rewrite !run_bind, !run_lift, Hres, run_pathExists, Hslash.
      rewrite (bool_decide_eq_true_2 (is_Some _)) by (rewrite Hfile0; eauto).
      rewrite orb_true_r, run_bind, run_lift, run_readFile, Hslash. simpl. rewrite Hfile0.
      rewrite bool_decide_eq_true_2 by done. simpl.
      eexists _, _, _. split; [reflexivity|]. simpl. rewrite Ht, <- !app_assoc. simpl.
      split_and!; [reflexivity| |done|done].
      repeat constructor.
    + eexists _, _, _. split; [reflexivity|]. rewrite Ht.
      split_and!; [reflexivity| |done|by apply Hf].
      repeat constructor.
  - intros Hex. rewrite run_pathExists in Hex. simpl in Hex. injection Hex as Hex.
    unfold applyFileChange, fileExistsInProject.
    rewrite !run_bind, !run_lift, Hres, ?run_bind, ?run_lift, ?Hres, run_pathExists, Hex.
    reflexivity.
Qed.

(** A project holding [a.txt]. *)
Definition smallProject : World :=
  {| entries := <[[lit "p1"; lit "a.txt"] := File (lit "hello")]> (<[[lit "p1"] := Dir]> ∅);
     trace := [] |}.

Lemma identical_edit_and_absent_delete_write_nothing_witness :
  (exists r w' calls,
     applyFileChange (lit "/p1") EDIT (lit "a.txt") (lit "hello") smallProject = (r, w')
     /\ trace w' = trace smallProject ++ calls
     /\ Forall (fun c => isWrite c = false) calls
     /\ (forall l c, entries w' !! l = Some (File c)
                     <-> entries smallProject !! l = Some (File c))
     /\ entries w' !! location (lit "/p1/a.txt") = Some (File (lit "hello")))
  /\ applyFileChange (lit "/p1") DELETE (lit "gone.txt") [] smallProject
     = (Ok tt, {| entries := entries smallProject;
                  trace := trace smallProject ++ [PathExists (location (lit "/p1/gone.txt"))] |}).
Proof.
  split.
  - apply (identical_edit_and_absent_delete_write_nothing
             (lit "/p1") (lit "a.txt") (lit "hello") (lit "/p1/a.txt") smallProject);
      vm_compute; reflexivity.
  - apply (identical_edit_and_absent_delete_write_nothing
             (lit "/p1") (lit "gone.txt") [] (lit "/p1/gone.txt") smallProject);
      vm_compute; reflexivity.
Defined.

(** *** Path resolution *)

Definition plainSegment (seg : str) : Prop :=
  seg <> [] /\ seg <> [dot] /\ seg <> dotdot.

Definition skippedSegment (seg : str) : Prop := seg = [] \/ seg = [dot].

Lemma splitOn_nonempty sep s : splitOn sep s <> [].
Proof.
  destruct s as [|c s]; simpl; [done|]. destruct (c =? sep)%N; [done|].
  by destruct (splitOn sep s).
Qed.

Lemma splitOn_app_sep sep a b :
  splitOn sep (a ++ sep :: b) = splitOn sep a ++ splitOn sep b.
Proof.
  induction a as [|c a IH]; simpl.
  - by rewrite N.eqb_refl.
  - rewrite IH. destruct (c =? sep)%N; [done|].
    pose proof (splitOn_nonempty sep a). by destruct (splitOn sep a).
Qed.

Lemma splitOn_no_sep sep s : sep ∉ s -> splitOn sep s = [s].
Proof.
  induction s as [|c s IH]; intros Hs; [done|]. simpl.
  apply not_elem_of_cons in Hs as [Hc Hs].
  destruct (N.eqb_spec c sep) as [->|_]; [done|]. by rewrite IH.
Qed.

Lemma splitOn_joinWith sep segs :
  segs <> [] -> Forall (fun seg => sep ∉ seg) segs ->
  splitOn sep (joinWith sep segs) = segs.
Proof.
  induction segs as [|seg segs IH]; intros Hne Hall; [done|].
  apply Forall_cons in Hall as [Hseg Hall].
  destruct segs as [|seg' segs]; simpl.
  - by apply splitOn_no_sep.
  - rewrite splitOn_app_sep, splitOn_no_sep by done. simpl in IH. by rewrite IH.
Qed.

Lemma splitOn_segments sep s : Forall (fun seg => sep ∉ seg) (splitOn sep s).
Proof.
  induction s as [|c s IH]; simpl.
  - constructor; [apply not_elem_of_nil|done].
  - destruct (N.eqb_spec c sep) as [->|Hne].
    + constructor; [apply not_elem_of_nil|done].
    + destruct (splitOn sep s) as [|seg segs].
      * constructor; [|done]. apply not_elem_of_cons. split; [done|apply not_elem_of_nil].
      * apply Forall_cons in IH as [Hseg IH]. constructor; [|done].
        apply not_elem_of_cons. split; [done|done].
Qed.

Lemma push_skipped b res seg : skippedSegment seg -> pushSegment b res seg = res.
Proof. intros [-> | ->]; reflexivity. Qed.

Lemma push_plain b res seg : plainSegment seg -> pushSegment b res seg = res ++ [seg].
Proof.
  intros (H1 & H2 & H3). unfold pushSegment.
  by rewrite !bool_decide_eq_false_2 by done.
Qed.

Lemma segment_cases seg : skippedSegment seg \/ seg = dotdot \/ plainSegment seg.
Proof.
  unfold skippedSegment, plainSegment.
  destruct (decide (seg = [])); [tauto|]. destruct (decide (seg = [dot])); [tauto|].
  destruct (decide (seg = dotdot)); tauto.
Qed.

Lemma push_dotdot_plain_last b res seg :
  plainSegment seg -> pushSegment b (res ++ [seg]) dotdot = res.
Proof.
  intros (H1 & H2 & H3). unfold pushSegment. simpl.
  rewrite reverse_snoc. rewrite bool_decide_eq_false_2 by done.
  by rewrite removelast_last.
Qed.

Lemma push_dotdot_above k :
  pushSegment true (replicate k dotdot) dotdot = replicate (S k) dotdot.
Proof.
  destruct k as [|k]; [reflexivity|].
  unfold pushSegment. rewrite reverse_replicate.
  rewrite (bool_decide_eq_false_2 (dotdot = [])) by done.
  rewrite (bool_decide_eq_false_2 (dotdot = [dot])) by done.
  rewrite !(bool_decide_eq_true_2 (dotdot = dotdot)) by done.
  cbn [orb replicate]. rewrite (bool_decide_eq_true_2 (dotdot = dotdot)) by done.
  simpl. f_equal. by rewrite <- replicate_S_end.
Qed.

Lemma push_dotdot_below : pushSegment false [] dotdot = [].
Proof. reflexivity. Qed.

(** With [allowAboveRoot] the kept segments are a run of [..] followed
    by what is kept without it, and the latter are plain segments. *)
Lemma normalizeSegments_above segs :
  exists k, normalizeSegments true segs = replicate k dotdot ++ normalizeSegments false segs
    /\ Forall plainSegment (normalizeSegments false segs).
Proof.
  unfold normalizeSegments. induction segs as [|seg segs IH] using rev_ind.
  - exists 0. by split.
  - destruct IH as (k & Ht & Hf). rewrite !foldl_app. simpl. rewrite Ht.
    destruct (segment_cases seg) as [Hs|[->|Hp]].
    + exists k. by rewrite !push_skipped.
    + destruct (foldl (pushSegment false) [] segs) as [|f fs _] using rev_ind.
      * exists (S k). rewrite !app_nil_r, push_dotdot_above, push_dotdot_below.
        by split.
      * apply Forall_app in Hf as [Hfs Hf]. apply Forall_cons in Hf as [Hf _].
        exists k. rewrite app_assoc, (push_dotdot_plain_last true _ f Hf),
          (push_dotdot_plain_last false _ f Hf). by split.
    + exists k. rewrite !push_plain by done. rewrite app_assoc. split; [done|].
      apply Forall_app. split; [done|]. by constructor.
Qed.

Lemma fold_plain res segs :
  Forall plainSegment segs -> foldl (pushSegment false) res segs = res ++ segs.
Proof.
  revert res. induction segs as [|seg segs IH]; intros res Hall; simpl.
  - by rewrite app_nil_r.
  - apply Forall_cons in Hall as [Hseg Hall]. rewrite push_plain, IH by done.
    by rewrite <- app_assoc.
Qed.

Lemma fold_skipped b res segs :
  Forall skippedSegment segs -> foldl (pushSegment b) res segs = res.
Proof.
  revert res. induction segs as [|seg segs IH]; intros res Hall; simpl; [done|].
  apply Forall_cons in Hall as [Hseg Hall]. by rewrite push_skipped, IH.
Qed.

Lemma fold_dotdots k : foldl (pushSegment false) [] (replicate k dotdot) = [].
Proof. induction k as [|k IH]; simpl; [done|]. exact IH. Qed.

(** Resolving a resolved list of segments changes nothing. *)
Lemma normalizeSegments_idem b segs :
  normalizeSegments false (normalizeSegments b segs) = normalizeSegments false segs.
Proof.
  destruct (normalizeSegments_above segs) as (k & Ht & Hf).
  destruct b.
  - rewrite Ht. unfold normalizeSegments at 1. rewrite foldl_app, fold_dotdots.
    by rewrite fold_plain.
  - unfold normalizeSegments at 1. by rewrite fold_plain.
Qed.

Lemma push_elements b (res : list str) (seg : str) (segs : list str) :
  Forall (fun x => x ∈ segs) res -> seg ∈ segs ->
  Forall (fun x => x ∈ segs) (pushSegment b res seg).
Proof.
  intros Hres Hseg. unfold pushSegment.
  assert (Forall (fun x => x ∈ segs) (res ++ [dotdot]) \/ seg <> dotdot) as Hdd.
  { destruct (decide (seg = dotdot)) as [->|]; [left|by right].
    apply Forall_app. split; [done|]. by constructor. }
  assert (Forall (fun x => x ∈ segs) (removelast res)) as Hrl.
  { destruct res as [|r res _] using rev_ind; [done|]. rewrite removelast_last.
    by apply Forall_app in Hres as [? _]. }
  repeat case_bool_decide; simpl; try done.
  - destruct Hdd as [?|?]; [|done]. by destruct (reverse res); repeat case_bool_decide; destruct b.
  - apply Forall_app. split; [done|]. by constructor.
Qed.

Lemma normalizeSegments_elements b (segs : list str) :
  Forall (fun x => x ∈ segs) (normalizeSegments b segs).
Proof.
  unfold normalizeSegments.
  assert (forall l res, Forall (fun x => x ∈ segs) res -> Forall (fun x => x ∈ segs) l ->
            Forall (fun x => x ∈ segs) (foldl (pushSegment b) res l)) as H.
  { induction l as [|seg l IH]; intros res Hres Hl; [done|]. simpl.
    apply Forall_cons in Hl as [Hseg Hl]. apply IH; [|done]. by apply push_elements. }
  apply H; [done|]. by apply Forall_forall.
Qed.

Lemma normalizeSegments_no_slash b s :
  Forall (fun seg => slash ∉ seg) (normalizeSegments b (splitOn slash s)).
Proof.
  pose proof (splitOn_segments slash s) as Hs.
  eapply Forall_impl; [apply normalizeSegments_elements|].
  intros seg Hseg. simpl in Hseg. by eapply Forall_forall in Hs.
Qed.

Lemma normalizeSegments_nonempty b segs :
  Forall (fun seg => seg <> []) (normalizeSegments b segs).
Proof.
  destruct (normalizeSegments_above segs) as (k & Ht & Hf).
  assert (Forall (fun seg : str => seg <> []) (normalizeSegments false segs)) as Hf'
    by (eapply Forall_impl; [exact Hf|]; by intros seg (? & _)).
  destruct b; [|done]. rewrite Ht. apply Forall_app. split; [|done].
  by apply Forall_replicate.
Qed.

Lemma joinWith_nil sep segs :
  Forall (fun seg => seg <> []) segs -> joinWith sep segs = [] -> segs = [].
Proof.
  destruct segs as [|seg [|seg' segs]]; intros Hall Hj; [done|..];
    apply Forall_cons in Hall as [Hseg _]; simpl in Hj; by destruct seg.
Qed.

Lemma splitOn_trailing sep s : splitOn sep (s ++ [sep]) = splitOn sep s ++ [[]].
Proof. by rewrite splitOn_app_sep. Qed.

(** [path.normalize] keeps the location of a path. *)
Lemma location_normalize s : location (normalize s) = location s.
Proof.
  destruct s as [|c s']; [reflexivity|]. set (s := c :: s').
  unfold normalize. fold s. unfold normalizeString.
  set (N := normalizeSegments (negb (isAbsolute s)) (splitOn slash s)).
  assert (normalizeSegments false N = location s) as Hidem
    by apply normalizeSegments_idem.
  assert (Forall (fun seg => slash ∉ seg) N) as Hslash by apply normalizeSegments_no_slash.
  assert (Forall (fun seg => seg <> []) N) as Hne by apply normalizeSegments_nonempty.
  destruct (joinWith slash N) as [|b body] eqn:Ej.
  - apply joinWith_nil in Ej; [|done]. rewrite Ej in Hidem. rewrite <- Hidem.
    by destruct (isAbsolute s), (endsWithSlash s).
  - assert (N <> []) as HN by (intros E; by rewrite E in Ej).
    rewrite <- Ej, <- Hidem. clear Hidem. unfold location.
    assert (splitOn slash (joinWith slash N) = N) as Hsplit by by apply splitOn_joinWith.
    destruct (isAbsolute s), (endsWithSlash s); simpl; rewrite ?N.eqb_refl.
    + rewrite splitOn_trailing, Hsplit. unfold normalizeSegments. simpl.
      rewrite foldl_app. simpl. by rewrite push_skipped by by left.
    + rewrite Hsplit. done.
    + rewrite splitOn_trailing, Hsplit. unfold normalizeSegments.
      rewrite foldl_app. simpl. by rewrite push_skipped by by left.
    + by rewrite Hsplit.
Qed.

Lemma startsWith_app a b : startsWith a (a ++ b) = true.
Proof. induction a as [|c a IH]; [done|]. simpl. by rewrite N.eqb_refl. Qed.

Lemma startsWith_joined_dotdot segs post :
  startsWith dotdot (joinWith slash (dotdot :: segs) ++ post) = true.
Proof.
  destruct segs as [|seg segs]; [apply startsWith_app|].
  change (joinWith slash (dotdot :: seg :: segs))
    with (dotdot ++ slash :: joinWith slash (seg :: segs)).
  rewrite <- app_assoc. apply startsWith_app.
Qed.

Lemma normalize_unfold p :
  p <> [] ->
  normalize p =
    match joinWith slash (normalizeSegments (negb (isAbsolute p)) (splitOn slash p)) with
    | [] => if isAbsolute p then [slash]
            else if endsWithSlash p then [dot; slash] else [dot]
    | b :: body =>
        if isAbsolute p
        then slash :: (if endsWithSlash p then (b :: body) ++ [slash] else b :: body)
        else (if endsWithSlash p then (b :: body) ++ [slash] else b :: body)
    end.
Proof.
  intros Hp. destruct p as [|c p]; [done|]. unfold normalize, normalizeString.
  destruct (joinWith slash _); destruct (isAbsolute (c :: p)), (endsWithSlash (c :: p));
    reflexivity.
Qed.

(** A relative path whose normal form does not start with [..] has no
    [..] segment left in it. *)
Lemma normalize_no_dotdot p :
  isAbsolute p = false -> startsWith dotdot (normalize p) = false ->
  Forall (fun seg => seg <> dotdot) (splitOn slash (normalize p)).
Proof.
  intros Hrel Hsw. destruct (decide (p = [])) as [->|Hp]; [by repeat constructor|].
  rewrite normalize_unfold in Hsw |- * by done. rewrite Hrel in Hsw |- *.
  change (negb false) with true in *.
  destruct (normalizeSegments_above (splitOn slash p)) as (k & Ht & Hf).
  pose proof (normalizeSegments_no_slash true p) as Hslash.
  pose proof (normalizeSegments_nonempty true (splitOn slash p)) as Hne.
  assert (Forall (fun seg : str => seg <> dotdot) (normalizeSegments false (splitOn slash p)))
    as Hplain by (eapply Forall_impl; [exact Hf|]; by intros seg (_ & _ & ?)).
  destruct (joinWith slash (normalizeSegments true (splitOn slash p))) as [|b body] eqn:Ej.
  { destruct (endsWithSlash p); by repeat constructor. }
  assert (normalizeSegments true (splitOn slash p) <> []) as HN
    by (intros E; by rewrite E in Ej).
  destruct k as [|k].
  - simpl in Ht. rewrite <- Ej.
    assert (splitOn slash (joinWith slash (normalizeSegments true (splitOn slash p)))
            = normalizeSegments true (splitOn slash p)) as Hsplit
      by by apply splitOn_joinWith.
    destruct (endsWithSlash p).
    + rewrite splitOn_trailing, Hsplit, Ht. apply Forall_app. split; [done|].
      by repeat constructor.
    + by rewrite Hsplit, Ht.
  - exfalso. rewrite <- Ej, Ht in Hsw.
    change (replicate (S k) dotdot ++ ?F) with (dotdot :: (replicate k dotdot ++ F)) in Hsw.
    destruct (endsWithSlash p).
    + by rewrite startsWith_joined_dotdot in Hsw.
    + pose proof (startsWith_joined_dotdot
        (replicate k dotdot ++ normalizeSegments false (splitOn slash p)) []) as E.
      rewrite app_nil_r in E. by rewrite E in Hsw.
Qed.

Lemma fold_no_dotdot res segs :
  Forall (fun seg => seg <> dotdot) segs ->
  res `prefix_of` foldl (pushSegment false) res segs.
Proof.
  revert res. induction segs as [|seg segs IH]; intros res Hall; simpl; [done|].
  apply Forall_cons in Hall as [Hseg Hall].
  etrans; [|by apply IH].
  destruct (segment_cases seg) as [Hs|[->|Hp]]; [|done|].
  - by rewrite push_skipped.
  - rewrite push_plain by done. by apply prefix_app_r.
Qed.

Lemma normalize_nonempty p : normalize p <> [].
Proof.
  destruct (decide (p = [])) as [->|Hp]; [done|]. rewrite normalize_unfold by done.
  destruct (joinWith slash _); destruct (isAbsolute p), (endsWithSlash p); done.
Qed.

(** An accepted relative path resolves to a location inside the
    project directory. *)
Lemma relative_path_stays_inside projectDir p fullPath :
  isAbsolute p = false ->
  resolveProjectPath projectDir p = Ok fullPath ->
  fullPath = join projectDir (normalize p)
  /\ location projectDir `prefix_of` location fullPath.
Proof.
  intros Hrel Hres. unfold resolveProjectPath in Hres. rewrite Hrel in Hres.
  destruct (startsWith dotdot (normalize p)) eqn:Hsw; [done|]. injection Hres as <-.
  split; [done|].
  pose proof (normalize_no_dotdot p Hrel Hsw) as Hsegs.
  pose proof (normalize_nonempty p) as Hn.
  destruct (normalize p) as [|n0 n'] eqn:En; [done|].
  destruct projectDir as [|d0 d'].
  - change (location []) with (@nil str). apply prefix_nil.
  - change (join (d0 :: d') (n0 :: n')) with (normalize ((d0 :: d') ++ slash :: n0 :: n')).
    rewrite location_normalize. unfold location.
    rewrite splitOn_app_sep. unfold normalizeSegments. rewrite foldl_app.
    by apply fold_no_dotdot.
Qed.

(** An absolute path written as the project directory, a slash and
    plain segments is accepted as it is and names the location of the
    project directory followed by these segments. *)
Lemma absolute_path_inside_is_accepted projectDir (segs : list str) :
  isAbsolute projectDir = true ->
  Forall (fun seg => plainSegment seg /\ slash ∉ seg) segs ->
  resolveProjectPath projectDir (projectDir ++ slash :: joinWith slash segs)
    = Ok (projectDir ++ slash :: joinWith slash segs)
  /\ location (projectDir ++ slash :: joinWith slash segs) = location projectDir ++ segs.
Proof.
  intros Habs Hsegs. split.
  - unfold resolveProjectPath.
    assert (isAbsolute (projectDir ++ slash :: joinWith slash segs) = true) as ->
      by (by destruct projectDir).
    by rewrite startsWith_app.
  - unfold location, normalizeSegments. rewrite splitOn_app_sep, foldl_app.
    destruct (decide (segs = [])) as [->|Hne].
    + simpl. by rewrite app_nil_r.
    + rewrite splitOn_joinWith; [|done|].
      * apply fold_plain. eapply Forall_impl; [exact Hsegs|]. by intros seg [H _].
      * eapply Forall_impl; [exact Hsegs|]. by intros seg [_ H].
Qed.

(** The plain segments without a slash, as a test. *)
Definition isPlainSegment (seg : str) : bool :=
  negb (bool_decide (seg = [])) && negb (bool_decide (seg = [dot]))
  && negb (bool_decide (seg = dotdot)) && negb (bool_decide (slash ∈ seg)).

Lemma plain_segments_by_test segs :
  forallb isPlainSegment segs = true ->
  Forall (fun seg => plainSegment seg /\ slash ∉ seg) segs.
Proof.
  intros H. apply Forall_forall. intros seg Hseg.
  rewrite forallb_forall in H. apply list_elem_of_In, H in Hseg.
  unfold isPlainSegment in Hseg. rewrite !andb_true_iff, !negb_true_iff in Hseg.
  destruct Hseg as (((H1 & H2) & H3) & H4). apply bool_decide_eq_false in H1, H2, H3, H4.
  by repeat split.
Qed.

(** The claim of C6 on absolute paths: the resolver rejects them. *)
Definition AbsolutePathsAreRejected : Prop :=
  forall projectDir filePath : str,
    isAbsolute (cleanFilePath filePath) = true ->
    resolveProjectPath projectDir (cleanFilePath filePath) = Throw SecurityViolation.

(** C6, counterexample. For the project [/p1] the absolute path
    [/p1/src/app.ts] is not rejected: it is accepted as it is. *)
Lemma absolute_path_with_project_prefix_accepted : ~ AbsolutePathsAreRejected.
Proof.
  intros H.
  pose proof (H (lit "/p1") (lit "/p1/src/app.ts") eq_refl) as Habs.
  vm_compute in Habs. discriminate Habs.
Qed.

(** The test on absolute paths compares the text of the path with the
    project directory: [/p1/../etc/passwd] passes it for the project
    [/p1] and names [/etc/passwd]. *)
Lemma prefix_test_is_textual :
  resolveProjectPath (lit "/p1") (cleanFilePath (lit "/p1/../etc/passwd"))
    = Ok (lit "/p1/../etc/passwd")
  /\ location (lit "/p1/../etc/passwd") = [lit "etc"; lit "passwd"].
Proof. split; by vm_compute. Qed.

(** C6, amended. [applyFileChange] resolves the cleaned path before
    anything else and throws, without any file system call, when the
    resolver does.  A relative path whose normal form starts with [..]
    is rejected ([../../etc/passwd] for every project); an absolute
    path that does not start with the project directory is rejected;
    every other relative path is accepted, joined to the project
    directory, and resolves to a location inside it; an absolute path
    written as the project directory, a slash and plain segments (none
    empty, [.] or [..]) is accepted as it is and names a location
    inside the project directory. *)
Theorem project_paths_are_validated (projectDir filePath : str) :
  (isAbsolute (cleanFilePath filePath) = false ->
   startsWith dotdot (normalize (cleanFilePath filePath)) = true ->
   resolveProjectPath projectDir (cleanFilePath filePath) = Throw SecurityViolation)
  /\ (isAbsolute (cleanFilePath filePath) = true ->
      startsWith projectDir (cleanFilePath filePath) = false ->
      resolveProjectPath projectDir (cleanFilePath filePath) = Throw SecurityViolation)
  /\ (isAbsolute (cleanFilePath filePath) = false ->
      startsWith dotdot (normalize (cleanFilePath filePath)) = false ->
      resolveProjectPath projectDir (cleanFilePath filePath)
        = Ok (join projectDir (normalize (cleanFilePath filePath)))
      /\ location projectDir
           `prefix_of` location (join projectDir (normalize (cleanFilePath filePath))))
  /\ (forall segs,
        isAbsolute projectDir = true ->
        Forall (fun seg => plainSegment seg /\ slash ∉ seg) segs ->
        cleanFilePath filePath = projectDir ++ slash :: joinWith slash segs ->
        resolveProjectPath projectDir (cleanFilePath filePath) = Ok (cleanFilePath filePath)
        /\ location (cleanFilePath filePath) = location projectDir ++ segs)
  /\ (forall e action content w,
        resolveProjectPath projectDir (cleanFilePath filePath) = Throw e ->
        applyFileChange projectDir action filePath content w = (Throw e, w))
  /\ resolveProjectPath projectDir (cleanFilePath (lit "../../etc/passwd"))
     = Throw SecurityViolation.
Proof.
  split_and!.
  - intros Hrel Hsw. unfold resolveProjectPath. by rewrite Hrel, Hsw.
  - intros Habs Hsw. unfold resolveProjectPath. by rewrite Habs, Hsw.
  - intros Hrel Hsw.
    assert (resolveProjectPath projectDir (cleanFilePath filePath)
            = Ok (join projectDir (normalize (cleanFilePath filePath)))) as Hres
      by (unfold resolveProjectPath; by rewrite Hrel, Hsw).
    split; [done|]. by apply (relative_path_stays_inside _ _ _ Hrel Hres).
  - intros segs Habs Hsegs ->. by apply absolute_path_inside_is_accepted.
  - intros e action content w Hres. unfold applyFileChange.
    by rewrite run_bind, run_lift, Hres.
  - reflexivity.
Qed.

Lemma project_paths_are_validated_witness :
  resolveProjectPath (lit "/p1") (cleanFilePath (lit "src/../app/page.tsx"))
    = Ok (lit "/p1/app/page.tsx")
  /\ location (lit "/p1") `prefix_of` location (lit "/p1/app/page.tsx")
  /\ resolveProjectPath (lit "/p1") (cleanFilePath (lit "src/../../p2/x"))
     = Throw SecurityViolation
  /\ resolveProjectPath (lit "/p1") (cleanFilePath (lit "/etc/passwd"))
     = Throw SecurityViolation
  /\ resolveProjectPath (lit "/p1") (cleanFilePath (lit "/p1/src/app.ts"))
     = Ok (cleanFilePath (lit "/p1/src/app.ts"))
  /\ location (cleanFilePath (lit "/p1/src/app.ts")) = location (lit "/p1") ++ [lit "src"; lit "app.ts"].
Proof.
  pose proof (project_paths_are_validated (lit "/p1") (lit "src/../app/page.tsx"))
    as (_ & _ & Hin & _).
  pose proof (project_paths_are_validated (lit "/p1") (lit "src/../../p2/x"))
    as (Hup & _).
  pose proof (project_paths_are_validated (lit "/p1") (lit "/etc/passwd"))
    as (_ & Hout & _).
  pose proof (project_paths_are_validated (lit "/p1") (lit "/p1/src/app.ts"))
    as (_ & _ & _ & Habs & _ & _).
  assert (resolveProjectPath (lit "/p1") (cleanFilePath (lit "src/../app/page.tsx"))
          = Ok (lit "/p1/app/page.tsx")) as Hres by (vm_compute; reflexivity).
  destruct (Habs [lit "src"; lit "app.ts"]) as [Hok Hloc].
  { vm_compute; reflexivity. }
  { apply plain_segments_by_test. vm_compute; reflexivity. }
  { vm_compute; reflexivity. }
  split_and!.
  - exact Hres.
  - destruct Hin as [_ Hin]; [vm_compute; reflexivity|vm_compute; reflexivity|].
    replace (lit "/p1/app/page.tsx")
      with (join (lit "/p1") (normalize (cleanFilePath (lit "src/../app/page.tsx"))))
      by (vm_compute; reflexivity).
    exact Hin.
  - apply Hup; vm_compute; reflexivity.
  - apply Hout; vm_compute; reflexivity.
  - exact Hok.
  - exact Hloc.
Defined.

End FileMutatorProofs.

(** ** The stream tag parser *)

Section StringLemmas.

Lemma startsWith_spec (p s : str) : startsWith p s = true <-> exists r, s = p ++ r.
Proof.
  revert s. induction p as [|c p IH]; intros s; simpl.
  - split; [by exists s|done].
  - destruct s as [|d s]; [split; [done|by intros [r Hr]]|].
    rewrite andb_true_iff, N.eqb_eq, IH. split.
    + intros [-> [r ->]]. by exists r.
    + intros [r [= -> ->]]. eauto.
Qed.

Lemma startsWith_false_long (p s x : str) :
  startsWith p s = false -> length p <= length s -> startsWith p (s ++ x) = false.
Proof.
  revert s. induction p as [|c p IH]; intros s Hf Hl; simpl in *; [done|].
  destruct s as [|d s]; simpl in *; [lia|].
  destruct (c =? d)%N; [|done]. simpl in *. apply IH; [done|lia].
Qed.

Lemma stripPrefix_Some (p s r : str) : stripPrefix p s = Some r <-> s = p ++ r.
Proof.
  unfold stripPrefix. destruct (startsWith p s) eqn:E.
  - apply startsWith_spec in E as [r' ->]. rewrite drop_app_length.
    split; [by intros [= ->]|]. intros Hr. by apply app_inv_head in Hr as ->.
  - split; [done|]. intros ->.
    assert (startsWith p (p ++ r) = true) as Ht by (apply startsWith_spec; eauto).
    congruence.
Qed.

Lemma stripPrefix_app (p r : str) : stripPrefix p (p ++ r) = Some r.
Proof. by apply stripPrefix_Some. Qed.

Lemma takeWhile_dropWhile (f : char -> bool) (s : str) :
  s = takeWhile f s ++ dropWhile f s.
Proof.
  induction s as [|c s IH]; [done|]. simpl. destruct (f c); [|done]. simpl. by f_equal.
Qed.

Lemma takeWhile_Forall (f : char -> bool) (s : str) :
  Forall (fun c => f c = true) (takeWhile f s).
Proof.
  induction s as [|c s IH]; simpl; [done|]. destruct (f c) eqn:E; [|done]. by constructor.
Qed.

Lemma dropWhile_head (f : char -> bool) (s : str) c r :
  dropWhile f s = c :: r -> f c = false.
Proof.
  induction s as [|d s IH]; simpl; [done|]. destruct (f d) eqn:E; [done|].
  by intros [= <- <-].
Qed.

Lemma takeWhile_app_stop (f : char -> bool) (a : str) c r :
  Forall (fun c => f c = true) a -> f c = false ->
  takeWhile f (a ++ c :: r) = a /\ dropWhile f (a ++ c :: r) = c :: r.
Proof.
  intros Ha Hc. induction Ha as [|d a Hd Ha IH]; simpl.
  - by rewrite Hc.
  - rewrite Hd. destruct IH as [-> ->]. done.
Qed.

(** *** [indexOf] *)

Lemma search_Some needle s k :
  search needle s = Some k ->
  exists a b, s = a ++ needle ++ b /\ length a = k.
Proof.
  revert k. induction s as [|c s IH]; intros k; simpl.
  - destruct (startsWith needle []) eqn:E; [|done]. intros [= <-].
    apply startsWith_spec in E as [r Hr]. by exists [], r.
  - destruct (startsWith needle (c :: s)) eqn:E.
    + intros [= <-]. apply startsWith_spec in E as [r Hr]. by exists [], r.
    + destruct (search needle s) as [k'|] eqn:Es; [|done]. simpl. intros [= <-].
      destruct (IH k' eq_refl) as (a & b & -> & <-). by exists (c :: a), b.
Qed.

Lemma search_bound needle s k :
  search needle s = Some k -> k + length needle <= length s.
Proof.
  intros H. apply search_Some in H as (a & b & -> & <-). rewrite !length_app. lia.
Qed.

Lemma search_app needle s x k :
  search needle s = Some k -> search needle (s ++ x) = Some k.
Proof.
  revert k. induction s as [|c s IH]; intros k; simpl.
  - destruct (startsWith needle []) eqn:E; [|done]. intros [= <-].
    destruct needle; [|done]. by destruct x.
  - destruct (startsWith needle (c :: s)) eqn:E.
    + intros [= <-]. apply startsWith_spec in E as [r Hr].
      assert (startsWith needle (c :: s ++ x) = true) as ->; [|done].
      apply startsWith_spec. exists (r ++ x).
      change (c :: s ++ x) with ((c :: s) ++ x). by rewrite Hr, app_assoc.
    + destruct (search needle s) as [k'|] eqn:Es; [|done]. simpl. intros [= <-].
      pose proof (search_bound _ _ _ Es) as Hb.
      change (c :: s ++ x) with ((c :: s) ++ x).
      rewrite (startsWith_false_long needle (c :: s) x E) by (simpl; lia).
      by rewrite (IH k' eq_refl).
Qed.

Lemma indexOfFrom_bound needle s from k :
  indexOfFrom needle s from = Some k -> from `min` length s <= k /\ k + length needle <= length s.
Proof.
  unfold indexOfFrom. destruct (search _ _) as [k'|] eqn:E; [|done]. simpl. intros [= <-].
  apply search_bound in E. rewrite length_drop in E. lia.
Qed.

Lemma indexOfFrom_app needle s x from k :
  from <= length s ->
  indexOfFrom needle s from = Some k -> indexOfFrom needle (s ++ x) from = Some k.
Proof.
  intros Hf. unfold indexOfFrom. rewrite length_app.
  replace (from `min` length s) with from by lia.
  replace (from `min` (length s + length x)) with from by lia.
  rewrite drop_app_le by done.
  destruct (search needle (drop from s)) as [k'|] eqn:E; [|done].
  by rewrite (search_app _ _ _ _ E).
Qed.

Lemma indexOf_app needle s x k :
  indexOf needle s = Some k -> indexOf needle (s ++ x) = Some k.
Proof. apply indexOfFrom_app. lia. Qed.

Lemma substring_app s x a b :
  a <= b -> b <= length s -> substring (s ++ x) a b = substring s a b.
Proof.
  intros Hab Hb. unfold substring.
  replace (a `min` b) with a by lia. replace (a `max` b) with b by lia.
  rewrite drop_app_le by lia. rewrite take_app_le; [done|]. rewrite length_drop. lia.
Qed.

Lemma substringFrom_app s x a :
  a <= length s -> substringFrom (s ++ x) a = substringFrom s a ++ x.
Proof. intros Ha. unfold substringFrom. by rewrite drop_app_le. Qed.

End StringLemmas.

(** *** The start tag *)

Section StartTag.

#[local] Arguments stripPrefix : simpl never.
#[local] Arguments matchTagEnd : simpl never.
#[local] Arguments matchPathAttr : simpl never.

Definition openLit : str := lit "<action type=" ++ [dq].
Definition pathLit : str := lit "path=" ++ [dq].

#[local] Arguments openLit : simpl never.
#[local] Arguments pathLit : simpl never.

Definition white (s : str) : Prop := Forall (fun c => isWhiteSpace c = true) s.

(** The optional path attribute of a tag. *)
Definition attrText (p : option str) (ws1 : str) : str :=
  match p with
  | None => []
  | Some path => ws1 ++ pathLit ++ path ++ [dq]
  end.

Definition attrOk (p : option str) (ws1 : str) : Prop :=
  match p with
  | None => ws1 = []
  | Some path => ws1 <> [] /\ white ws1 /\ path <> [] /\ dq ∉ path
  end.

(** The text of a start tag of type [t] with path group [p]. *)
Definition tagText (t : ActionType) (p : option str) (ws1 ws2 : str) : str :=
  openLit ++ typeName t ++ [dq] ++ attrText p ws1 ++ ws2 ++ [gt].

(** [s] starts with a start tag, followed by [after]. *)
Definition TagAt (s : str) (t : ActionType) (p : option str) (after : str) : Prop :=
  exists ws1 ws2, s = tagText t p ws1 ws2 ++ after /\ attrOk p ws1 /\ white ws2.

Lemma matchTagEnd_Some s after :
  matchTagEnd s = Some after <-> exists ws2, s = ws2 ++ gt :: after /\ white ws2.
Proof.
  unfold matchTagEnd. split.
  - destruct (dropWhile isWhiteSpace s) as [|c r] eqn:E; [done|].
    destruct (N.eqb_spec c gt) as [->|]; [|done]. intros [= ->].
    exists (takeWhile isWhiteSpace s). split; [|apply takeWhile_Forall].
    rewrite (takeWhile_dropWhile isWhiteSpace s) at 1. by rewrite E.
  - intros (ws2 & -> & Hws).
    destruct (takeWhile_app_stop isWhiteSpace ws2 gt after Hws eq_refl) as [_ Hd].
    rewrite Hd. by rewrite N.eqb_refl.
Qed.

Lemma white_not_quote c : isNotQuote c = false -> c = dq.
Proof. unfold isNotQuote. intros H. apply negb_false_iff in H. by apply N.eqb_eq. Qed.

Lemma notQuote_Forall (s : str) : dq ∉ s <-> Forall (fun c => isNotQuote c = true) s.
Proof.
  rewrite Forall_forall. split.
  - intros Hn c Hc. unfold isNotQuote. apply negb_true_iff, N.eqb_neq. by intros ->.
  - intros Hall Hd. apply Hall in Hd. done.
Qed.

Lemma matchPathAttr_Some s path after :
  matchPathAttr s = Some (path, after) <->
  exists ws1 ws2, s = ws1 ++ pathLit ++ path ++ [dq] ++ ws2 ++ gt :: after
    /\ attrOk (Some path) ws1 /\ white ws2.
Proof.
  unfold matchPathAttr. fold pathLit. split.
  - pose proof (takeWhile_dropWhile isWhiteSpace s) as Hs.
    pose proof (takeWhile_Forall isWhiteSpace s) as Hws1.
    destruct (takeWhile isWhiteSpace s) as [|w ws1] eqn:E1; [done|].
    destruct (stripPrefix pathLit (dropWhile isWhiteSpace s)) as [rest|] eqn:E2; [|done].
    simpl. apply stripPrefix_Some in E2.
    pose proof (takeWhile_dropWhile isNotQuote rest) as Hr.
    pose proof (takeWhile_Forall isNotQuote rest) as Hp.
    destruct (takeWhile isNotQuote rest) as [|p0 p] eqn:E3; [done|].
    destruct (stripPrefix [dq] (dropWhile isNotQuote rest)) as [rest'|] eqn:E4; [|done].
    simpl. apply stripPrefix_Some in E4.
    destruct (matchTagEnd rest') as [rest''|] eqn:E5; [|done]. simpl.
    intros [= <- <-]. apply matchTagEnd_Some in E5 as (ws2 & -> & Hws2).
    exists (w :: ws1), ws2. split_and!; try done.
    + rewrite Hs at 1. rewrite E2, Hr, E4. by rewrite <- ?app_assoc.
    + by apply notQuote_Forall.
  - intros (ws1 & ws2 & -> & (Hne & Hws1 & Hpne & Hq) & Hws2).
    change (ws1 ++ pathLit ++ path ++ [dq] ++ ws2 ++ gt :: after)
      with (ws1 ++ 112%N :: (lit "ath=" ++ [dq]) ++ path ++ [dq] ++ ws2 ++ gt :: after).
    destruct (takeWhile_app_stop isWhiteSpace ws1 112%N
                ((lit "ath=" ++ [dq]) ++ path ++ [dq] ++ ws2 ++ gt :: after) Hws1 eq_refl)
      as [Ht Hd]. rewrite Ht, Hd. clear Ht Hd.
    destruct ws1 as [|w ws1]; [done|].
    change (112%N :: (lit "ath=" ++ [dq]) ++ path ++ [dq] ++ ws2 ++ gt :: after)
      with (pathLit ++ path ++ [dq] ++ ws2 ++ gt :: after).
    rewrite stripPrefix_app. simpl.
    apply notQuote_Forall in Hq.
    change (path ++ dq :: ws2 ++ gt :: after) with (path ++ dq :: (ws2 ++ gt :: after)).
    destruct (takeWhile_app_stop isNotQuote path dq (ws2 ++ gt :: after) Hq eq_refl)
      as [Ht Hd]. rewrite Ht, Hd. clear Ht Hd.
    destruct path as [|p0 p]; [done|].
    change (stripPrefix [dq] (dq :: ws2 ++ gt :: after)) with (Some (ws2 ++ gt :: after)).
    simpl. assert (matchTagEnd (ws2 ++ gt :: after) = Some after) as ->; [|done].
    apply matchTagEnd_Some. by exists ws2.
Qed.

Lemma matchAlternatives_Some s t rest :
  matchAlternatives [CREATE; EDIT; DELETE; COMMAND; TEXT] s = Some (t, rest)
  <-> s = typeName t ++ rest.
Proof.
  split.
  - simpl. repeat (destruct (stripPrefix _ s) as [r|] eqn:E;
      [apply stripPrefix_Some in E; by intros [= <- <-]|clear E]). done.
  - intros ->. by destruct t.
Qed.

#[local] Arguments matchAlternatives : simpl never.

(** The scanner finds a tag exactly where the text of one starts. *)
Lemma matchAt_Some s t p after :
  matchAt s = Some (t, p, after) <-> TagAt s t p after.
Proof.
  unfold matchAt, TagAt, tagText. fold openLit. split.
  - intros H.
    destruct (stripPrefix openLit s) as [rest|] eqn:E1; [|done].
    apply stripPrefix_Some in E1. simpl in H.
    destruct (matchAlternatives [CREATE; EDIT; DELETE; COMMAND; TEXT] rest)
      as [[t' rest1]|] eqn:E2; [|done].
    apply matchAlternatives_Some in E2. simpl in H.
    destruct (stripPrefix [dq] rest1) as [rest2|] eqn:E3; [|done].
    apply stripPrefix_Some in E3. simpl in H.
    destruct (matchPathAttr rest2) as [[path after']|] eqn:E4.
    + injection H as <- <- <-.
      apply matchPathAttr_Some in E4 as (ws1 & ws2 & -> & Hok & Hws2).
      exists ws1, ws2. split_and!; try done. rewrite E1, E2, E3.
      unfold attrText. by rewrite <- !app_assoc.
    + destruct (matchTagEnd rest2) as [after'|] eqn:E5; [|done]. simpl in H.
      injection H as <- <- <-. apply matchTagEnd_Some in E5 as (ws2 & -> & Hws2).
      exists [], ws2. split_and!; try done. rewrite E1, E2, E3.
      unfold attrText. by rewrite <- !app_assoc.
  - intros (ws1 & ws2 & -> & Hok & Hws2).
    rewrite <- !app_assoc. rewrite stripPrefix_app. simpl.
    rewrite (proj2 (matchAlternatives_Some _ t _) eq_refl). simpl.
    change (stripPrefix [dq] (dq :: ?r)) with (Some r). simpl.
    destruct p as [path|]; simpl in Hok; unfold attrText.
    + erewrite (proj2 (matchPathAttr_Some _ path after)); [done|].
      exists ws1, ws2. split_and!; try done. by rewrite <- ?app_assoc.
    + subst ws1. rewrite app_nil_l, ?drop_0.
      assert (matchTagEnd (ws2 ++ gt :: after) = Some after) as Hend
        by (apply matchTagEnd_Some; by exists ws2).
      assert (matchPathAttr (ws2 ++ gt :: after) = None) as ->; [|by rewrite Hend].
      destruct (matchPathAttr (ws2 ++ gt :: after)) as [[path after']|] eqn:E; [|done].
      exfalso. apply matchPathAttr_Some in E as (ws1' & ws2' & E & (Hne & Hws1 & _) & _).
      pose proof (takeWhile_app_stop isWhiteSpace ws2 gt after Hws2 eq_refl) as [_ Hd].
      rewrite E in Hd.
      change (ws1' ++ pathLit ++ path ++ [dq] ++ ws2' ++ gt :: after')
        with (ws1' ++ 112%N :: (lit "ath=" ++ [dq]) ++ path ++ [dq] ++ ws2' ++ gt :: after')
        in Hd.
      pose proof (takeWhile_app_stop isWhiteSpace ws1' 112%N
         ((lit "ath=" ++ [dq]) ++ path ++ [dq] ++ ws2' ++ gt :: after') Hws1 eq_refl)
        as [_ Hd'].
      rewrite Hd' in Hd. discriminate Hd.
Qed.

(** *** Start tags do not nest *)

Lemma skip_segment (x : N) (l1 l2 pre rest : list N) :
  l1 ++ l2 = pre ++ x :: rest -> x ∉ l1 ->
  exists pre', pre = l1 ++ pre' /\ l2 = pre' ++ x :: rest.
Proof.
  revert pre. induction l1 as [|a l1 IH]; intros pre E Hx.
  - by exists pre.
  - destruct pre as [|b pre]; simpl in E.
    + injection E as -> _. exfalso. apply Hx. left.
    + injection E as -> E. destruct (IH pre E) as (pre' & -> & ->).
      * intros H. apply Hx. by right.
      * by exists pre'.
Qed.

Lemma not_in_middle (x : N) (l pre rest : list N) :
  l = pre ++ x :: rest -> x ∉ l -> False.
Proof. intros -> H. apply H. apply elem_of_app. right. left. Qed.

Lemma white_notin c w : isWhiteSpace c = false -> white w -> c ∉ w.
Proof.
  intros Hc Hw Hin. unfold white in Hw. rewrite Forall_forall in Hw.
  apply Hw in Hin. congruence.
Qed.

Lemma typeName_head t :
  exists c r, typeName t = c :: r /\ isWhiteSpace c = false /\ c <> gt.
Proof. destruct t; eexists _, _; (split; [reflexivity|split; [by vm_compute|done]]). Qed.

Lemma lt_notin_typeName t : lt ∉ typeName t.
Proof. destruct t; apply (bool_decide_unpack _); by vm_compute. Qed.

Definition openTail : str := lit "action type=".

Lemma openLit_unfold : openLit = lt :: openTail ++ [dq].
Proof. reflexivity. Qed.

Lemma lt_notin_openTail : lt ∉ openTail.
Proof. apply (bool_decide_unpack _); by vm_compute. Qed.

Lemma lt_notin_pathLit : lt ∉ pathLit.
Proof. apply (bool_decide_unpack _); by vm_compute. Qed.

Lemma dq_notin_tagEnd w : white w -> dq ∉ w ++ [gt].
Proof.
  intros Hw Hin. apply elem_of_app in Hin as [Hin|Hin].
  - by apply (white_notin dq w).
  - by apply list_elem_of_singleton in Hin.
Qed.

Opaque openTail pathLit.

(** No start tag begins strictly inside another one: inside a tag, [<]
    can only occur in the path, which holds no double quote, and what
    follows the quote that ends the path is white space or [>]. *)
Lemma no_tag_inside t' p' w1' w2' pre t p w1 w2 post :
  attrOk p' w1' -> white w2' -> pre <> [] ->
  tagText t' p' w1' w2' = pre ++ tagText t p w1 w2 ++ post -> False.
Proof.
  intros Hok Hw Hpre E. destruct pre as [|c pre]; [done|]. clear Hpre.
  unfold tagText in E. rewrite !openLit_unfold in E.
  rewrite <- ?app_assoc, <- ?app_comm_cons in E. injection E as <- E.
  rewrite <- ?app_assoc in E.
  apply skip_segment in E as (pre1 & -> & E); [|apply lt_notin_openTail].
  change ([dq] ++ ?r) with (dq :: r) in E.
  destruct pre1 as [|d pre1]; [discriminate E|]. injection E as <- E.
  apply skip_segment in E as (pre2 & -> & E); [|apply lt_notin_typeName].
  destruct pre2 as [|d pre2]; [discriminate E|]. injection E as <- E.
  set (R := attrText p w1 ++ _) in E. clearbody R.
  set (REST := typeName t ++ dq :: R) in E.
  destruct p' as [path|]; simpl in Hok.
  - destruct Hok as (_ & Hw1 & _ & Hq). unfold attrText in E.
    rewrite <- ?app_assoc in E.
    apply skip_segment in E as (pre3 & -> & E); [|by apply white_notin].
    apply skip_segment in E as (pre4 & -> & E); [|apply lt_notin_pathLit].
    replace (pre4 ++ lt :: openTail ++ dq :: REST)
      with ((pre4 ++ lt :: openTail) ++ dq :: REST) in E
      by (by rewrite <- app_assoc).
    apply skip_segment in E as (pre5 & E5 & E); [|done].
    destruct pre5 as [|d pre5].
    + injection E as E. subst REST.
      destruct (typeName_head t) as (c & r & Ht & Hc & Hg). rewrite Ht in E.
      destruct w2' as [|w w2']; injection E as E1 E2; [congruence|].
      apply Forall_cons in Hw as [Hw _]. congruence.
    + injection E as <- E. by apply not_in_middle in E; [|apply dq_notin_tagEnd].
  - subst w1'. unfold attrText in E. rewrite app_nil_l in E.
    apply skip_segment in E as (pre3 & -> & E); [|by apply white_notin].
    apply not_in_middle in E; [done|]. apply (bool_decide_unpack _). by vm_compute.
Qed.

Transparent openTail pathLit.

End StartTag.

(** *** The leftmost match *)

Section LeftmostMatch.

Lemma execFrom_unfold i s :
  execFrom i s =
  match matchAt s with
  | Some (t, p, after) =>
      Some {| m_index := i; m_0 := take (length s - length after) s; m_1 := t; m_2 := p |}
  | None => match s with [] => None | _ :: s' => execFrom (S i) s' end
  end.
Proof. by destruct s. Qed.

Lemma tagText_nonempty t p ws1 ws2 : 0 < length (tagText t p ws1 ws2).
Proof. unfold tagText. rewrite openLit_unfold. simpl. lia. Qed.

(** What a match is: a start tag at [m_index], with no start tag
    matching before it. *)
Lemma execFrom_Some i s m :
  execFrom i s = Some m ->
  exists pre after ws1 ws2,
    s = pre ++ m_0 m ++ after /\ m_index m = i + length pre /\
    m_0 m = tagText (m_1 m) (m_2 m) ws1 ws2 /\ attrOk (m_2 m) ws1 /\ white ws2.
Proof.
  revert i. induction s as [|c s IH]; intros i; rewrite execFrom_unfold.
  - destruct (matchAt []) as [[[t p] after]|] eqn:E; [|done].
    apply matchAt_Some in E as (ws1 & ws2 & E & _). exfalso.
    pose proof (tagText_nonempty t p ws1 ws2) as Hl.
    apply (f_equal length) in E. rewrite length_app in E. simpl in E. lia.
  - destruct (matchAt (c :: s)) as [[[t p] after]|] eqn:E.
    + apply matchAt_Some in E as (ws1 & ws2 & E & Hok & Hw). rewrite E.
      intros H. apply (inj Some) in H. subst m.
      exists [], after, ws1, ws2. cbn [m_0 m_1 m_2 m_index].
      rewrite length_app, Nat.add_sub, take_app_length. by split_and!.
    + intros H. apply IH in H as (pre & after & ws1 & ws2 & -> & Hi & Hm & Hok & Hw).
      exists (c :: pre), after, ws1, ws2. split_and!; try done. simpl. lia.
Qed.

Lemma execFrom_bound i s m :
  execFrom i s = Some m ->
  i <= m_index m /\ 0 < length (m_0 m) /\ m_index m + length (m_0 m) <= i + length s.
Proof.
  intros H. apply execFrom_Some in H as (pre & after & ws1 & ws2 & -> & Hi & Hm & _).
  rewrite Hi, !length_app. rewrite Hm at 1.
  pose proof (tagText_nonempty (m_1 m) (m_2 m) ws1 ws2). lia.
Qed.

Lemma TagAt_app s t p after y : TagAt s t p after -> TagAt (s ++ y) t p (after ++ y).
Proof.
  intros (ws1 & ws2 & -> & Hok & Hw). exists ws1, ws2. by rewrite <- app_assoc.
Qed.

(** Text appended to the buffer does not change the leftmost match. *)
Lemma execFrom_app i s y m :
  execFrom i s = Some m -> execFrom i (s ++ y) = Some m.
Proof.
  revert i. induction s as [|c s IH]; intros i H.
  { apply execFrom_bound in H. simpl in H. lia. }
  rewrite execFrom_unfold in H. rewrite execFrom_unfold.
  destruct (matchAt (c :: s)) as [[[t p] after]|] eqn:E.
  - apply (inj Some) in H. subst m. pose proof E as E'. apply matchAt_Some in E'.
    pose proof (TagAt_app _ _ _ _ y E') as E2. apply matchAt_Some in E2. rewrite E2.
    destruct E' as (ws1 & ws2 & E' & _). do 2 f_equal. rewrite E'.
    rewrite <- !app_assoc, !length_app.
    replace (length (tagText t p ws1 ws2) + (length after + length y)
             - (length after + length y)) with (length (tagText t p ws1 ws2)) by lia.
    replace (length (tagText t p ws1 ws2) + length after - length after)
      with (length (tagText t p ws1 ws2)) by lia.
    by rewrite !take_app_length.
  - destruct (matchAt ((c :: s) ++ y)) as [[[t' p'] after']|] eqn:E2.
    + exfalso. apply matchAt_Some in E2 as (w1' & w2' & E2 & Hok' & Hw').
      apply List.app_eq_app in E2 as [l [[E3 E4]|[E3 E4]]].
      * assert (matchAt (c :: s) = Some (t', p', l)) as E5; [|congruence].
        apply matchAt_Some. by exists w1', w2'.
      * apply execFrom_Some in H as (pre & after & ws1 & ws2 & Hs & _ & Hm & _).
        rewrite Hs, Hm in E3.
        apply (no_tag_inside t' p' w1' w2' (c :: pre) (m_1 m) (m_2 m) ws1 ws2 (after ++ l));
          [done|done|done|].
        rewrite E3. rewrite <- !app_comm_cons. by rewrite <- !app_assoc.
    + simpl. by apply IH.
Qed.

Lemma matchActionStart_app s y m :
  matchActionStart s = Some m -> matchActionStart (s ++ y) = Some m.
Proof. apply execFrom_app. Qed.

End LeftmostMatch.

(** *** One pass of [processActionTags] *)

Section Passes.

Lemma closingTag_length : length closingTag = 9.
Proof. reflexivity. Qed.

Lemma receive_receive rp x y : receive (receive rp x) y = receive rp (x ++ y).
Proof. unfold receive. simpl. by rewrite !app_assoc. Qed.

Lemma receive_nil rp : receive rp [] = rp.
Proof. destruct rp. unfold receive. simpl. by rewrite !app_nil_r. Qed.

(** A pass that consumes something does the same, with the same
    [addAction] calls, when more text follows in the buffer. *)
Lemma pass_receive rp y rp' out :
  pass rp = Some (rp', out) -> pass (receive rp y) = Some (receive rp' y, out).
Proof.
  destruct rp as [buf full cur files]. unfold pass, receive.
  cbn [chunkBuffer fullResponse currentFileAction generatedFiles].
  destruct cur as [cur|].
  - destruct (indexOf closingTag buf) as [ci|] eqn:E; [|done].
    pose proof (indexOfFrom_bound _ _ _ _ E) as [_ Hb].
    rewrite (indexOf_app _ _ y _ E).
    rewrite substring_app by lia. rewrite substringFrom_app by lia.
    intros H. apply (inj Some) in H. by injection H as <- <-.
  - destruct (matchActionStart buf) as [m|] eqn:E; [|done].
    pose proof (execFrom_bound _ _ _ E) as (_ & Hl & Hb). rewrite Nat.add_0_l in Hb.
    rewrite (matchActionStart_app _ y _ E).
    destruct (m_1 m).
    1-3: destruct (_ || _); [|done]; rewrite substringFrom_app by lia;
         intros H; apply (inj Some) in H; by injection H as <- <-.
    + destruct (indexOfFrom closingTag buf _) as [ci|] eqn:E2; [|done].
      rewrite (indexOfFrom_app _ _ y _ _ Hb E2).
      pose proof (indexOfFrom_bound _ _ _ _ E2) as [Hc1 Hc2].
      rewrite substring_app by lia. rewrite substringFrom_app by lia.
      intros H. apply (inj Some) in H. by injection H as <- <-.
    + destruct (indexOfFrom closingTag buf _) as [ci|] eqn:E2; [|done].
      rewrite (indexOfFrom_app _ _ y _ _ Hb E2).
      pose proof (indexOfFrom_bound _ _ _ _ E2) as [Hc1 Hc2].
      rewrite substring_app by lia. rewrite substringFrom_app by lia.
      intros H. apply (inj Some) in H. by injection H as <- <-.
Qed.

(** A pass that consumes something shortens the buffer. *)
Lemma pass_shortens rp rp' out :
  pass rp = Some (rp', out) -> length (chunkBuffer rp') < length (chunkBuffer rp).
Proof.
  destruct rp as [buf full cur files]. unfold pass.
  cbn [chunkBuffer fullResponse currentFileAction generatedFiles].
  destruct cur as [cur|].
  - destruct (indexOf closingTag buf) as [ci|] eqn:E; [|done].
    pose proof (indexOfFrom_bound _ _ _ _ E) as [_ Hb]. rewrite closingTag_length in *.
    intros H. apply (inj Some) in H. injection H as <- _.
    cbn [chunkBuffer]. unfold substringFrom. rewrite length_drop. lia.
  - destruct (matchActionStart buf) as [m|] eqn:E; [|done].
    pose proof (execFrom_bound _ _ _ E) as (_ & Hl & Hb). rewrite Nat.add_0_l in Hb.
    destruct (m_1 m).
    1-3: destruct (_ || _); [|done]; intros H; apply (inj Some) in H;
         injection H as <- _; cbn [chunkBuffer]; unfold substringFrom;
         rewrite length_drop; lia.
    + destruct (indexOfFrom closingTag buf _) as [ci|] eqn:E2; [|done].
      intros H. apply (inj Some) in H. injection H as <- _.
      cbn [chunkBuffer]. unfold substringFrom. rewrite length_drop. lia.
    + destruct (indexOfFrom closingTag buf _) as [ci|] eqn:E2; [|done].
      pose proof (indexOfFrom_bound _ _ _ _ E2) as [Hc1 Hc2].
      rewrite closingTag_length in *.
      intros H. apply (inj Some) in H. injection H as <- _.
      cbn [chunkBuffer]. unfold substringFrom. rewrite length_drop. lia.
Qed.

End Passes.

(** *** The recursion of [processActionTags] and the stream *)

Section Chunks.

Lemma passes_fuel n m rp :
  length (chunkBuffer rp) < n -> length (chunkBuffer rp) < m -> passes n rp = passes m rp.
Proof.
  revert m rp. induction n as [|n IH]; intros m rp Hn Hm; [lia|].
  destruct m as [|m]; [lia|]. simpl.
  destruct (pass rp) as [[rp' out]|] eqn:E; [|done].
  apply pass_shortens in E. by rewrite (IH m rp') by lia.
Qed.

Lemma passes_length n rp :
  length (chunkBuffer (passes n rp).1) <= length (chunkBuffer rp).
Proof.
  revert rp. induction n as [|n IH]; intros rp; simpl; [done|].
  destruct (pass rp) as [[rp' out]|] eqn:E; [|done].
  apply pass_shortens in E. specialize (IH rp').
  destruct (passes n rp') as [rp'' out']. simpl in *. lia.
Qed.

Lemma passes_quiescent n rp :
  length (chunkBuffer rp) < n -> pass (passes n rp).1 = None.
Proof.
  revert rp. induction n as [|n IH]; intros rp Hn; [lia|]. simpl.
  destruct (pass rp) as [[rp' out]|] eqn:E; [|done].
  apply pass_shortens in E. specialize (IH rp' ltac:(lia)).
  by destruct (passes n rp') as [rp'' out'].
Qed.

(** [processActionTags] returns only when a pass has nothing left to
    consume. *)
Lemma processActionTags_quiescent rp : pass (processActionTags rp).1 = None.
Proof. apply passes_quiescent. lia. Qed.

Lemma passes_S n rp :
  passes (S n) rp =
  match pass rp with
  | None => (rp, [])
  | Some (rp', out) => let '(rp'', out') := passes n rp' in (rp'', out ++ out')
  end.
Proof. reflexivity. Qed.

Lemma passes_stuck n rp : pass rp = None -> passes n rp = (rp, []).
Proof. intros H. destruct n; simpl; [done|]. by rewrite H. Qed.

Lemma passes_receive n m rp y :
  length (chunkBuffer rp) < n -> length (chunkBuffer rp) + length y < m ->
  passes m (receive rp y) =
  let '(rp1, o1) := passes n rp in
  let '(rp2, o2) := passes m (receive rp1 y) in (rp2, o1 ++ o2).
Proof.
  revert m rp. induction n as [|n IH]; intros m rp Hn Hm; [lia|]. simpl.
  destruct (pass rp) as [[rp' out]|] eqn:E.
  - pose proof (pass_shortens _ _ _ E) as Hs.
    destruct m as [|m]; [lia|].
    pose proof (IH m rp' ltac:(lia) ltac:(lia)) as IH'.
    pose proof (passes_length n rp') as Hl.
    destruct (passes n rp') as [rp1 o1]. simpl in Hl.
    rewrite <- (passes_fuel m (S m) (receive rp1 y))
      by (unfold receive; simpl; rewrite length_app; lia).
    change (passes (S m) (receive rp y))
      with (match pass (receive rp y) with
            | None => (receive rp y, [])
            | Some (rp', out) => let '(rp'', out') := passes m rp' in (rp'', out ++ out')
            end).
    rewrite (pass_receive _ y _ _ E), IH'.
    destruct (passes m (receive rp1 y)) as [rp2 o2]. by rewrite app_assoc.
  - by destruct (passes m (receive rp y)).
Qed.

(** Two calls of [processChunk] do what one call on the joined text
    does. *)
Lemma processChunk_app rp x y :
  processChunk rp (x ++ y) =
  let '(rp1, o1) := processChunk rp x in
  let '(rp2, o2) := processChunk rp1 y in (rp2, o1 ++ o2).
Proof.
  unfold processChunk, processActionTags. rewrite <- receive_receive.
  rewrite (passes_receive (S (length (chunkBuffer (receive rp x)))) _ (receive rp x) y).
  - pose proof (passes_length (S (length (chunkBuffer (receive rp x)))) (receive rp x)) as Hl.
    destruct (passes _ (receive rp x)) as [rp1 o1]. simpl in Hl.
    rewrite (passes_fuel _ (S (length (chunkBuffer (receive rp1 y)))) (receive rp1 y)); [done| |lia].
    unfold receive in *. simpl in *. rewrite !length_app in *. lia.
  - lia.
  - unfold receive. simpl. rewrite !length_app. lia.
Qed.

Lemma processChunk_nil rp : pass rp = None -> processChunk rp [] = (rp, []).
Proof.
  intros H. unfold processChunk, processActionTags. rewrite receive_nil.
  by apply passes_stuck.
Qed.

Lemma processChunk_quiescent rp c : pass (processChunk rp c).1 = None.
Proof. apply processActionTags_quiescent. Qed.

Lemma feed_concat rp chunks :
  pass rp = None -> feed rp chunks = processChunk rp (concat chunks).
Proof.
  revert rp. induction chunks as [|c chunks IH]; intros rp Hq; simpl.
  - by rewrite processChunk_nil.
  - rewrite processChunk_app. pose proof (processChunk_quiescent rp c) as Hq'.
    destruct (processChunk rp c) as [rp1 o1]. simpl in Hq'. by rewrite (IH rp1 Hq').
Qed.

Lemma streamChunks_feed rp chunks :
  pass rp = None -> streamChunks rp chunks = feed rp chunks.
Proof.
  revert rp. induction chunks as [|c chunks IH]; intros rp Hq; simpl; [done|].
  destruct c as [|d c].
  - rewrite (processChunk_nil rp Hq), (IH rp Hq). by destruct (feed rp chunks).
  - pose proof (processChunk_quiescent rp (d :: c)) as Hq'.
    destruct (processChunk rp (d :: c)) as [rp1 o1]. simpl in Hq'. by rewrite (IH rp1 Hq').
Qed.

Lemma initialProcessor_quiescent files : pass (initialProcessor files) = None.
Proof. reflexivity. Qed.

End Chunks.

(** *** A run on less text

    The passes of a run look at the text they consume and, for a
    COMMAND, at its closing tag: a run on the buffer cut after the text
    it consumes makes the same passes. *)

Section Truncation.

(** The processor with another buffer. *)
Definition cut (rp : ResponseProcessor) (b : str) : ResponseProcessor :=
  {| chunkBuffer := b; fullResponse := fullResponse rp;
     currentFileAction := currentFileAction rp; generatedFiles := generatedFiles rp |}.

(** The processor with another record of the response. *)
Definition setFull (rp : ResponseProcessor) (f : str) : ResponseProcessor :=
  {| chunkBuffer := chunkBuffer rp; fullResponse := f;
     currentFileAction := currentFileAction rp; generatedFiles := generatedFiles rp |}.

Lemma cut_self rp : cut rp (chunkBuffer rp) = rp.
Proof. by destruct rp. Qed.

Lemma cut_cut rp b b' : cut (cut rp b) b' = cut rp b'.
Proof. reflexivity. Qed.

Lemma pass_setFull rp f :
  pass (setFull rp f)
  = match pass rp with
    | Some (rp', out) => Some (setFull rp' f, out)
    | None => None
    end.
Proof.
  destruct rp as [buf full cur files]. unfold pass, setFull.
  cbn [chunkBuffer fullResponse currentFileAction generatedFiles].
  destruct cur as [cur|].
  - by destruct (indexOf closingTag buf).
  - destruct (matchActionStart buf) as [m|]; [|done].
    destruct (m_1 m).
    1-3: by destruct (_ || _).
    + by destruct (indexOfFrom closingTag buf _).
    + by destruct (indexOfFrom closingTag buf _).
Qed.

Lemma pass_fullResponse rp rp' out :
  pass rp = Some (rp', out) -> fullResponse rp' = fullResponse rp.
Proof.
  destruct rp as [buf full cur files]. unfold pass.
  cbn [chunkBuffer fullResponse currentFileAction generatedFiles].
  destruct cur as [cur|].
  - destruct (indexOf closingTag buf); [|done]. by intros [= <- _].
  - destruct (matchActionStart buf) as [m|]; [|done].
    destruct (m_1 m).
    1-3: destruct (_ || _); [|done]; by intros [= <- _].
    + destruct (indexOfFrom closingTag buf _); [|done]. by intros [= <- _].
    + destruct (indexOfFrom closingTag buf _); [|done]. by intros [= <- _].
Qed.

(** A pass drops a prefix of the buffer. *)
Lemma pass_suffix rp rp' out :
  pass rp = Some (rp', out) -> exists p, chunkBuffer rp = p ++ chunkBuffer rp'.
Proof.
  destruct rp as [buf full cur files]. unfold pass, substringFrom.
  cbn [chunkBuffer fullResponse currentFileAction generatedFiles].
  destruct cur as [cur|].
  - destruct (indexOf closingTag buf) as [ci|]; [|done]. intros [= <- _].
    eexists. cbn [chunkBuffer]. by rewrite take_drop.
  - destruct (matchActionStart buf) as [m|]; [|done].
    destruct (m_1 m).
    1-3: destruct (_ || _); [|done]; intros [= <- _]; eexists; cbn [chunkBuffer];
         by rewrite take_drop.
    + destruct (indexOfFrom closingTag buf _); [|done]. intros [= <- _].
      eexists. cbn [chunkBuffer]. by rewrite take_drop.
    + destruct (indexOfFrom closingTag buf _); [|done]. intros [= <- _].
      eexists. cbn [chunkBuffer]. by rewrite take_drop.
Qed.

Lemma pass_cut_app rp b y t' out :
  pass (cut rp b) = Some (t', out) ->
  pass (cut rp (b ++ y)) = Some (cut t' (chunkBuffer t' ++ y), out).
Proof.
  intros H. pose proof (pass_fullResponse _ _ _ H) as Hf.
  change (cut rp (b ++ y)) with (setFull (receive (cut rp b) y) (fullResponse rp)).
  rewrite pass_setFull, (pass_receive _ y _ _ H). do 2 f_equal.
  unfold setFull, cut, receive. cbn. cbn in Hf. by rewrite Hf.
Qed.

Lemma search_exists needle a b : is_Some (search needle (a ++ needle ++ b)).
Proof.
  induction a as [|c a IH].
  - assert (startsWith needle (needle ++ b) = true) as H
      by (apply startsWith_spec; by exists b).
    cbn [app]. destruct (needle ++ b); simpl; rewrite H; by eexists.
  - cbn [app search]. destruct (startsWith needle _); [by eexists|].
    destruct IH as [k ->]. by eexists.
Qed.

Lemma indexOfFrom_exists needle p a b :
  is_Some (indexOfFrom needle (p ++ a ++ needle ++ b) (length p)).
Proof.
  unfold indexOfFrom. rewrite length_app.
  replace (length p `min` (length p + length (a ++ needle ++ b))) with (length p) by lia.
  rewrite drop_app_length. destruct (search_exists needle a b) as [k ->]. by eexists.
Qed.

Lemma prefix_cover {A} (u v w y : list A) :
  u ++ y = v ++ w -> length v <= length u -> exists x, u = v ++ x /\ w = x ++ y.
Proof.
  intros H Hl. apply List.app_eq_app in H as [l [[-> ->]|[-> ->]]]; [by exists l|].
  rewrite length_app in Hl. destruct l; [|simpl in Hl; lia].
  exists []. by rewrite !app_nil_r.
Qed.

Lemma execFrom_exists pre : forall i s t p after,
  TagAt s t p after -> is_Some (execFrom i (pre ++ s)).
Proof.
  induction pre as [|c pre IH]; intros i s t p after H; rewrite execFrom_unfold.
  - apply matchAt_Some in H. cbn [app]. rewrite H. by eexists.
  - destruct (matchAt _) as [[[t' p'] after']|]; [by eexists|]. cbn [app]. by eapply IH.
Qed.

(** The leftmost start tag is found again in a prefix of the buffer
    that holds it. *)
Lemma matchActionStart_prefix s y m :
  matchActionStart (s ++ y) = Some m -> m_index m + length (m_0 m) <= length s ->
  matchActionStart s = Some m.
Proof.
  intros H Hl. pose proof H as H'.
  apply execFrom_Some in H' as (pre & after & ws1 & ws2 & Hs & Hi & Hm & Hok & Hw).
  simpl in Hi. rewrite app_assoc in Hs.
  destruct (prefix_cover s (pre ++ m_0 m) after y Hs) as (x & Hx & _).
  { rewrite length_app. lia. }
  assert (is_Some (matchActionStart s)) as [m' Hm'].
  { rewrite Hx, <- app_assoc. apply (execFrom_exists pre 0 _ (m_1 m) (m_2 m) x).
    exists ws1, ws2. by rewrite Hm. }
  pose proof (matchActionStart_app _ y _ Hm') as H2. congruence.
Qed.

Lemma indexOf_search needle s : indexOf needle s = search needle s.
Proof.
  unfold indexOf, indexOfFrom. rewrite Nat.min_0_l, drop_0.
  by destruct (search needle s).
Qed.

Lemma drop_is_suffix {A} (p x : list A) k :
  drop k (p ++ x) = x -> k <= length (p ++ x) -> k = length p.
Proof.
  intros H Hk. apply (f_equal length) in H. rewrite length_drop, length_app in *. lia.
Qed.

(** A pass of a run is made again on the buffer cut behind the text
    [x] that the next passes consume, where [x] holds the closing tag
    when the pass opens an action. *)
Lemma pass_truncate rp p x y rp1 o1 :
  pass (cut rp (p ++ x ++ y)) = Some (rp1, o1) ->
  chunkBuffer rp1 = x ++ y ->
  currentFileAction rp1 = None \/ is_Some (indexOf closingTag x) ->
  pass (cut rp (p ++ x)) = Some (cut rp1 x, o1).
Proof.
  intros H Hbuf Hlook. pose proof closingTag_length as Hct.
  assert (is_Some (pass (cut rp (p ++ x)))) as [[t' o] Ht].
  { destruct rp as [buf full cur files]. unfold cut, pass in H |- *.
    cbn [chunkBuffer fullResponse currentFileAction generatedFiles] in H |- *.
    set (B := p ++ x ++ y) in *.
    assert (forall k, drop k B = x ++ y -> k <= length B -> k = length p) as Hdrop.
    { intros k. apply (drop_is_suffix p (x ++ y)). }
    destruct cur as [c|].
    - destruct (indexOf closingTag B) as [ci|] eqn:E; [|done].
      pose proof (indexOfFrom_bound _ _ _ _ E) as [_ Hb].
      apply (inj Some) in H. injection H as <- <-. cbn [chunkBuffer] in Hbuf.
      apply Hdrop in Hbuf; [|done].
      rewrite indexOf_search in E. apply search_Some in E as (a & bb & EB & Ha).
      destruct (prefix_cover p (a ++ closingTag) bb (x ++ y)) as (x0 & Hp & _).
      { by rewrite <- app_assoc. }
      { rewrite length_app. lia. }
      assert (x0 = []) as ->.
      { apply (f_equal length) in Hp. rewrite !length_app in Hp.
        destruct x0; [done|]. simpl in Hp. lia. }
      rewrite app_nil_r in Hp. rewrite Hp, <- !app_assoc, indexOf_search.
      destruct (search_exists closingTag a x) as [k ->]. by eexists.
    - destruct (matchActionStart B) as [m|] eqn:E; [|done].
      pose proof (execFrom_bound _ _ _ E) as (_ & Hl & Hb). rewrite Nat.add_0_l in Hb.
      assert (forall k, m_index m + length (m_0 m) <= k -> k = length p ->
                matchActionStart (p ++ x) = Some m) as Hstart.
      { intros k Hk Hp. apply (matchActionStart_prefix _ y).
        - by rewrite <- app_assoc.
        - rewrite length_app. lia. }
      destruct (m_1 m) eqn:Et.
      1-3: destruct (_ || _) eqn:Ec; [|done]; apply (inj Some) in H;
           injection H as <- <-; cbn [chunkBuffer] in Hbuf;
           apply Hdrop in Hbuf; [|done];
           rewrite (Hstart _ (Nat.le_refl _) Hbuf), Et, Ec; by eexists.
      + destruct (indexOfFrom closingTag B _) as [ci|] eqn:E2; [|done].
        apply (inj Some) in H. injection H as <- <-.
        cbn [chunkBuffer currentFileAction] in Hbuf, Hlook.
        apply Hdrop in Hbuf; [|done].
        destruct Hlook as [Hlook|Hlook]; [done|].
        rewrite (Hstart _ (Nat.le_refl _) Hbuf), Et.
        rewrite indexOf_search in Hlook. destruct Hlook as [k Hk].
        unfold indexOfFrom at 1. rewrite Hbuf, length_app.
        replace (length p `min` (length p + length x)) with (length p) by lia.
        rewrite drop_app_length, Hk. by eexists.
      + destruct (indexOfFrom closingTag B _) as [ci|] eqn:E2; [|done].
        pose proof (indexOfFrom_bound _ _ _ _ E2) as [Hc1 Hc2].
        apply (inj Some) in H. injection H as <- <-. cbn [chunkBuffer] in Hbuf.
        apply Hdrop in Hbuf; [|done].
        assert (m_index m + length (m_0 m) <= ci) as Hts by lia.
        rewrite (Hstart (ci + length closingTag) ltac:(lia) Hbuf), Et.
        unfold indexOfFrom in E2.
        replace ((m_index m + length (m_0 m)) `min` length B)
          with (m_index m + length (m_0 m)) in E2 by lia.
        destruct (search closingTag (drop (m_index m + length (m_0 m)) B))
          as [k|] eqn:Es; [|done].
        apply search_Some in Es as (a & bb & EB & Ha).
        pose proof (take_drop (m_index m + length (m_0 m)) B) as HB. rewrite EB in HB.
        destruct (prefix_cover p (take (m_index m + length (m_0 m)) B ++ a ++ closingTag)
                    bb (x ++ y)) as (x0 & Hp & _).
        { by rewrite <- !app_assoc. }
        { rewrite !length_app, length_take. simpl in E2. apply (inj Some) in E2. lia. }
        assert (x0 = []) as ->.
        { apply (f_equal length) in Hp. rewrite !length_app, length_take in Hp.
          simpl in E2. apply (inj Some) in E2. destruct x0; [done|]. simpl in Hp. lia. }
        rewrite app_nil_r in Hp. rewrite Hp, <- !app_assoc.
        assert (m_index m + length (m_0 m)
                = length (take (m_index m + length (m_0 m)) B)) as Hlen
          by (rewrite length_take; lia).
        set (tk := take (m_index m + length (m_0 m)) B) in *. rewrite Hlen.
        destruct (indexOfFrom_exists closingTag tk a x) as [k' ->].
        by eexists. }
  pose proof (pass_cut_app rp (p ++ x) y t' o Ht) as H2.
  rewrite <- app_assoc, H in H2. apply (inj Some) in H2. injection H2 as -> ->.
  cbn [cut chunkBuffer] in Hbuf. apply app_inv_tail in Hbuf.
  rewrite Ht. do 2 f_equal. rewrite cut_cut, <- Hbuf. by rewrite cut_self.
Qed.

Lemma passes_setFull n : forall rp f,
  passes n (setFull rp f) = let '(rp', out) := passes n rp in (setFull rp' f, out).
Proof.
  induction n as [|n IH]; intros rp f; [done|]. rewrite !passes_S, pass_setFull.
  destruct (pass rp) as [[rp1 o1]|]; [|done]. rewrite IH.
  by destruct (passes n rp1).
Qed.

(** A pass that leaves an action open has started it. *)
Lemma pass_opens rp rp1 o1 c :
  pass rp = Some (rp1, o1) -> currentFileAction rp1 = Some c ->
  currentFileAction rp = None /\ o1 = [].
Proof.
  destruct rp as [buf full cur files]. unfold pass.
  cbn [chunkBuffer fullResponse currentFileAction generatedFiles].
  destruct cur as [cur|].
  - destruct (indexOf closingTag buf); [|done]. by intros [= <- <-].
  - destruct (matchActionStart buf) as [m|]; [|done].
    destruct (m_1 m).
    1-3: destruct (_ || _); [|done]; by intros [= <- <-].
    + destruct (indexOfFrom closingTag buf _); [|done]. by intros [= <- <-].
    + destruct (indexOfFrom closingTag buf _); [|done]. by intros [= <- <-].
Qed.

Lemma pass_open_needs_closing rp c x :
  currentFileAction rp = Some c ->
  is_Some (pass (cut rp x)) -> is_Some (indexOf closingTag x).
Proof.
  intros Hc. unfold pass, cut. cbn [chunkBuffer currentFileAction]. rewrite Hc.
  destruct (indexOf closingTag x); [by eexists|]. by intros [? ?].
Qed.

Lemma pass_nothing rp :
  currentFileAction rp = None -> pass (cut rp []) = None.
Proof. intros Hc. unfold pass, cut. cbn [chunkBuffer currentFileAction]. by rewrite Hc. Qed.

(** A run from a processor that is not waiting for a closing tag:
    the buffer is the text [consumed] by the passes that emit the
    actions, followed by the text [pend] that is left or that the last
    pass opens an action in; the run on [consumed] alone emits the same
    actions and ends with an empty buffer and no open action. *)
Lemma run_split n : forall rp rpF out,
  length (chunkBuffer rp) < n -> passes n rp = (rpF, out) ->
  currentFileAction rp = None \/ is_Some (pass rp) ->
  exists consumed pend E,
    chunkBuffer rp = consumed ++ pend
    /\ passes n (cut rp consumed) = (E, out)
    /\ chunkBuffer E = [] /\ currentFileAction E = None
    /\ (rpF = cut E pend \/ pass (cut E pend) = Some (rpF, [])).
Proof.
  induction n as [|n IH]; intros rp rpF out Hn Hrun Hstart; [lia|].
  rewrite passes_S in Hrun.
  destruct (pass rp) as [[rp1 o1]|] eqn:Ep.
  2: { apply (inj2 pair) in Hrun as [<- <-].
       destruct Hstart as [Hc|[? ?]]; [|done].
       exists [], (chunkBuffer rp), (cut rp []).
       split_and!; [done| |done|done|left; by rewrite cut_cut, cut_self].
       apply passes_stuck. by apply pass_nothing. }
  destruct (passes n rp1) as [rpF' o'] eqn:Er. apply (inj2 pair) in Hrun as [<- <-].
  pose proof (pass_shortens _ _ _ Ep) as Hs. pose proof (pass_suffix _ _ _ Ep) as [p Hp].
  assert (currentFileAction rp1 = None \/ is_Some (pass rp1)
          \/ (is_Some (currentFileAction rp1) /\ pass rp1 = None)) as [H1|[H1|[[c1 Hc1] Hp1]]].
  { destruct (currentFileAction rp1); [|by left]. right.
    destruct (pass rp1); [left; by eexists|right; split; [by eexists|done]]. }
  1-2: destruct (IH rp1 rpF' o' ltac:(lia) Er ltac:(tauto))
         as (consumed1 & pend1 & E & Hb1 & Hrun1 & HE1 & HE2 & Hfin);
       exists (p ++ consumed1), pend1, E;
       (split_and!; [by rewrite Hp, Hb1, app_assoc| |done|done|done]);
       rewrite passes_S;
       (assert (pass (cut rp (p ++ consumed1)) = Some (cut rp1 consumed1, o1)) as ->;
        [|by rewrite Hrun1]);
       (apply (pass_truncate rp p consumed1 pend1);
        [by rewrite <- Hb1, <- Hp, cut_self|done|]);
       (destruct (currentFileAction rp1) as [c1|] eqn:Ec1; [right|by left]);
       apply (pass_open_needs_closing rp1 c1 _ Ec1);
       (destruct n as [|n']; [apply (inj2 pair) in Hrun1 as [<- _]; cbn in HE2; congruence|]);
       rewrite passes_S in Hrun1;
       (destruct (pass (cut rp1 consumed1)) as [[? ?]|]; [by eexists|]);
       apply (inj2 pair) in Hrun1 as [<- _]; cbn in HE2; congruence.
  rewrite (passes_stuck _ _ Hp1) in Er. apply (inj2 pair) in Er as [<- <-].
  destruct (pass_opens _ _ _ _ Ep Hc1) as [Hc ->].
  exists [], (chunkBuffer rp), (cut rp []).
  split_and!; [done| |done|done|right; by rewrite cut_cut, cut_self].
  apply passes_stuck. by apply pass_nothing.
Qed.

(** The pass that opens the action a run ends in. *)
Lemma opening_pass rp rpF :
  currentFileAction rp = None -> pass rp = Some (rpF, []) -> pass rpF = None ->
  exists m,
    matchActionStart (chunkBuffer rp) = Some m
    /\ m_1 m ∈ [CREATE; EDIT; DELETE]
    /\ (m_1 m = DELETE -> default [] (m_2 m) <> [])
    /\ rpF = {| chunkBuffer := drop (m_index m + length (m_0 m)) (chunkBuffer rp);
                fullResponse := fullResponse rp;
                currentFileAction := Some (mkAction (m_1 m) (default [] (m_2 m)) []);
                generatedFiles := generatedFiles rp |}.
Proof.
  destruct rp as [buf full cur files]. unfold pass at 1.
  cbn [chunkBuffer fullResponse currentFileAction generatedFiles]. intros ->.
  destruct (matchActionStart buf) as [m|] eqn:E; [|done].
  pose proof (execFrom_bound _ _ _ E) as (_ & Hl & Hb). rewrite Nat.add_0_l in Hb.
  destruct (m_1 m) eqn:Et.
  1-3: destruct (_ || _) eqn:Ec; [|done]; intros H _; apply (inj Some) in H;
       injection H as <-; exists m; rewrite Et; split_and!; [done|set_solver| |done].
  - done.
  - done.
  - intros _. apply orb_true_iff in Ec as [Ec|Ec]; [done|].
    by apply negb_true_iff, bool_decide_eq_false in Ec.
  - destruct (indexOfFrom closingTag buf _) as [ci|] eqn:E2; [|done].
    intros H Hq. apply (inj Some) in H. injection H as <-. exfalso.
    unfold pass in Hq. cbn [chunkBuffer currentFileAction] in Hq.
    unfold indexOfFrom in E2.
    replace ((m_index m + length (m_0 m)) `min` length buf)
      with (m_index m + length (m_0 m)) in E2 by lia.
    unfold substringFrom in Hq. rewrite indexOf_search in Hq.
    by destruct (search closingTag (drop (m_index m + length (m_0 m)) buf)).
  - destruct (indexOfFrom closingTag buf _); [|done]. intros H. by apply (inj Some) in H.
Qed.

(** No start tag lies before the leftmost one. *)
Lemma no_tag_before junk rest m :
  matchActionStart (junk ++ rest) = Some m -> m_index m = length junk ->
  matchActionStart junk = None.
Proof.
  intros H Hi. destruct (matchActionStart junk) as [m'|] eqn:E; [|done]. exfalso.
  pose proof (matchActionStart_app _ rest _ E) as E'.
  pose proof (execFrom_bound _ _ _ E) as (_ & Hl & Hb). simpl in Hb.
  rewrite H in E'. apply (inj Some) in E'. subst m'. lia.
Qed.

(** What the text before the last start tag emits. *)
Lemma emitted_by_prefix files T consumed junk E out :
  passes (S (length T)) (cut (receive (initialProcessor files) T) consumed) = (E, out) ->
  chunkBuffer E = [] -> currentFileAction E = None -> length consumed <= length T ->
  matchActionStart junk = None ->
  (processChunk (initialProcessor files) (consumed ++ junk)).2 = out
  /\ currentFileAction (processChunk (initialProcessor files) (consumed ++ junk)).1 = None.
Proof.
  intros Hrun HE1 HE2 Hl Hj. rewrite processChunk_app.
  assert (processChunk (initialProcessor files) consumed = (setFull E consumed, out)) as ->.
  { unfold processChunk, processActionTags.
    change (receive (initialProcessor files) consumed)
      with (setFull (cut (receive (initialProcessor files) T) consumed) consumed).
    rewrite passes_setFull.
    rewrite (passes_fuel _ (S (length T))) by (cbn [setFull cut chunkBuffer]; lia).
    by rewrite Hrun. }
  assert (processChunk (setFull E consumed) junk = (receive (setFull E consumed) junk, []))
    as ->.
  { unfold processChunk, processActionTags. apply passes_stuck.
    unfold pass, receive, setFull. cbn [chunkBuffer currentFileAction].
    by rewrite HE1, HE2, app_nil_l, Hj. }
  cbn [fst snd receive setFull currentFileAction]. by rewrite app_nil_r.
Qed.

End Truncation.

Section ChunkInvariance.

Definition threeFragments : list str :=
  [ lit "<action typ";
    lit "e=" ++ [dq] ++ lit "CREATE" ++ [dq] ++ lit " path=" ++ [dq] ++ lit "a.txt"
      ++ [dq] ++ lit ">hel";
    lit "lo</action>" ].

(** C1. Chunk-boundary invariance: for every text and every way of
    splitting it into fragments, feeding the fragments one at a time to
    [processChunk] (as [feed] does, and as the loop of [streamResponse]
    does, which skips empty fragments) emits the same list of actions, in
    the same order, and leaves the processor in the same state, as one
    call on the whole text; and the three fragments [<action typ],
    [e='CREATE' path='a.txt'>hel], [lo</action>] emit exactly one CREATE
    action for [a.txt] with content [hello]. *)
Theorem chunk_boundary_invariance :
  (forall (files : gmap str str) (chunks : list str),
     feed (initialProcessor files) chunks
       = processChunk (initialProcessor files) (concat chunks)
     /\ streamChunks (initialProcessor files) chunks
       = processChunk (initialProcessor files) (concat chunks))
  /\ (feed (initialProcessor ∅) threeFragments).2
       = [ {| a_type := CREATE; a_path := lit "a.txt"; a_content := lit "hello" |} ].
Proof.
  split.
  - intros files chunks.
    rewrite streamChunks_feed by apply initialProcessor_quiescent.
    by rewrite feed_concat by apply initialProcessor_quiescent.
  - by vm_compute.
Qed.

End ChunkInvariance.

(** *** The end of the stream *)

Section StreamEnd.

(** The reading under which an action still open when the stream ends
    would be handed over: some emitted action carries its type and path. *)
Definition OpenActionExposedAtStreamEnd : Prop :=
  forall (files : gmap str str) (chunks : list str) rp out cur,
    streamChunks (initialProcessor files) chunks = (rp, out) ->
    currentFileAction rp = Some cur ->
    exists a, a ∈ out /\ a_type a = a_type cur /\ a_path a = a_path cur.

Definition openCreate : list str :=
  [ lit "<action typ";
    lit "e=" ++ [dq] ++ lit "CREATE" ++ [dq] ++ lit " path=" ++ [dq] ++ lit "a.txt"
      ++ [dq] ++ lit ">hel" ].

Lemma pass_idle rp :
  chunkBuffer rp = [] -> currentFileAction rp = None -> pass rp = None.
Proof. destruct rp as [buf full cur files]. simpl. by intros -> ->. Qed.

Lemma matchActionStart_at_start t p ws1 ws2 after :
  attrOk p ws1 -> white ws2 ->
  matchActionStart (tagText t p ws1 ws2 ++ after)
  = Some {| m_index := 0; m_0 := tagText t p ws1 ws2; m_1 := t; m_2 := p |}.
Proof.
  intros Hok Hw. unfold matchActionStart. rewrite execFrom_unfold.
  assert (matchAt (tagText t p ws1 ws2 ++ after) = Some (t, p, after)) as ->.
  { apply matchAt_Some. by exists ws1, ws2. }
  by rewrite length_app, Nat.add_sub, take_app_length.
Qed.

(** C5, the code as it is: a stream that stops inside a CREATE action
    emits nothing, although the text [hel] has arrived. *)
Lemma open_action_is_not_emitted_at_stream_end : ~ OpenActionExposedAtStreamEnd.
Proof.
  intros H.
  assert (streamChunks (initialProcessor ∅) openCreate
          = ({| chunkBuffer := lit "hel"; fullResponse := concat openCreate;
                currentFileAction :=
                  Some {| a_type := CREATE; a_path := lit "a.txt"; a_content := [] |};
                generatedFiles := ∅ |}, [])) as E by by vm_compute.
  destruct (H _ _ _ _ _ E eq_refl) as (a & Hin & _).
  by apply elem_of_nil in Hin.
Qed.

(** The run of the whole stream, split at the text still pending. *)
Lemma stream_split files chunks rp out :
  streamChunks (initialProcessor files) chunks = (rp, out) ->
  pass rp = None
  /\ exists consumed pend E,
       concat chunks = consumed ++ pend
       /\ passes (S (length (concat chunks)))
            (cut (receive (initialProcessor files) (concat chunks)) consumed) = (E, out)
       /\ chunkBuffer E = [] /\ currentFileAction E = None
       /\ (rp = cut E pend \/ pass (cut E pend) = Some (rp, [])).
Proof.
  intros H. rewrite streamChunks_feed, feed_concat in H by apply initialProcessor_quiescent.
  split.
  { pose proof (processChunk_quiescent (initialProcessor files) (concat chunks)) as Hq.
    by rewrite H in Hq. }
  unfold processChunk, processActionTags in H.
  apply run_split in H as (consumed & pend & E & Hb & Hrun & HE1 & HE2 & Hfin).
  - exists consumed, pend, E. by split_and!.
  - lia.
  - by left.
Qed.

(** C5, amended. A stream that ends inside an action emits nothing for
    it, however the text was split into fragments: the actions emitted
    are those that the text before the start tag of that action emits.
    When the stream ends with an action in [currentFileAction], this is
    a CREATE, EDIT or DELETE (a DELETE with a path) whose content is
    still empty; the text of the stream is some text, the start tag of
    that action and the chunk buffer, which holds no closing tag.  When
    the stream ends with no action in [currentFileAction] and a start
    tag in the chunk buffer, this is the tag of a TEXT or a COMMAND
    with no closing tag behind it, or that of a DELETE without a path;
    the buffer holds the start tag and all the text after it. *)
Theorem open_action_stays_pending_at_stream_end
    (files : gmap str str) (chunks : list str) (rp : ResponseProcessor) (out : list Action) :
  streamChunks (initialProcessor files) chunks = (rp, out) ->
  (forall cur, currentFileAction rp = Some cur ->
     a_type cur ∈ [CREATE; EDIT; DELETE] /\ a_content cur = []
     /\ (a_type cur = DELETE -> a_path cur <> [])
     /\ indexOf closingTag (chunkBuffer rp) = None
     /\ exists before p ws1 ws2,
          concat chunks = before ++ tagText (a_type cur) p ws1 ws2 ++ chunkBuffer rp
          /\ attrOk p ws1 /\ white ws2 /\ a_path cur = default [] p
          /\ (processChunk (initialProcessor files) before).2 = out
          /\ currentFileAction (processChunk (initialProcessor files) before).1 = None)
  /\ (forall m, currentFileAction rp = None ->
        matchActionStart (chunkBuffer rp) = Some m ->
        (m_1 m = TEXT \/ m_1 m = COMMAND \/ (m_1 m = DELETE /\ m_2 m = None))
        /\ (m_1 m = TEXT \/ m_1 m = COMMAND ->
            indexOfFrom closingTag (chunkBuffer rp) (m_index m + length (m_0 m)) = None)
        /\ exists consumed,
             concat chunks = consumed ++ chunkBuffer rp
             /\ (processChunk (initialProcessor files)
                   (consumed ++ take (m_index m) (chunkBuffer rp))).2 = out
             /\ currentFileAction
                  (processChunk (initialProcessor files)
                     (consumed ++ take (m_index m) (chunkBuffer rp))).1 = None).
Proof.
  intros H. apply stream_split in H
    as (Hq & consumed & pend & E & Hb & Hrun & HE1 & HE2 & Hfin).
  assert (length consumed <= length (concat chunks)) as Hlen
    by (rewrite Hb, length_app; lia).
  split.
  - intros cur Hcur. destruct Hfin as [->|Hopen]; [cbn in Hcur; congruence|].
    apply opening_pass in Hopen as (m & Hm & Ht & Hd & ->); [|done|done].
    cbn [cut chunkBuffer fullResponse currentFileAction generatedFiles] in *.
    apply (inj Some) in Hcur. subst cur. cbn [a_type a_path a_content].
    pose proof Hm as Hm'.
    apply execFrom_Some in Hm' as (pre & after & ws1 & ws2 & Hs & Hi & Hm0 & Hok & Hw).
    simpl in Hi.
    assert (drop (m_index m + length (m_0 m)) pend = after) as Hafter.
    { rewrite Hs, Hi, app_assoc, <- length_app. apply drop_app_length. }
    rewrite Hafter in *. split_and!; [done|done|done| |].
    { unfold pass in Hq. cbn [chunkBuffer currentFileAction] in Hq.
      by destruct (indexOf closingTag after). }
    exists (consumed ++ pre), (m_2 m), ws1, ws2. split_and!; try done.
    + by rewrite Hb, Hs, Hm0, <- app_assoc.
    + eapply emitted_by_prefix; try done. apply (no_tag_before pre (m_0 m ++ after) m).
      * by rewrite <- Hs.
      * done.
    + eapply emitted_by_prefix; try done. apply (no_tag_before pre (m_0 m ++ after) m).
      * by rewrite <- Hs.
      * done.
  - intros m Hcur Hm.
    destruct Hfin as [->|Hopen].
    2: { apply opening_pass in Hopen as (m' & _ & _ & _ & ->); [|done|done].
         cbn in Hcur. congruence. }
    cbn [cut chunkBuffer] in *.
    pose proof Hm as Hm'.
    apply execFrom_Some in Hm' as (pre & after & ws1 & ws2 & Hs & Hi & Hm0 & Hok & Hw).
    simpl in Hi.
    assert (take (m_index m) pend = pre) as Hpre.
    { rewrite Hs, Hi. apply take_app_length. }
    unfold pass in Hq. cbn [cut chunkBuffer currentFileAction] in Hq. rewrite HE2, Hm in Hq.
    split_and!.
    + destruct (m_1 m); try (by left); try (by right; left).
      right; right. split; [done|].
      destruct (m_2 m) as [path|]; [|done]. exfalso.
      destruct Hok as (_ & _ & Hp & _).
      assert (bool_decide (path = []) = false) as Hd by by apply bool_decide_eq_false.
      cbn [default] in Hq. unfold id in Hq. rewrite Hd in Hq.
      by rewrite orb_true_r in Hq.
    + intros [Ht|Ht]; rewrite Ht in Hq;
        by destruct (indexOfFrom closingTag pend (m_index m + length (m_0 m))).
    + exists consumed. rewrite Hpre. split; [done|].
      eapply emitted_by_prefix; try done. apply (no_tag_before pre (m_0 m ++ after) m).
      * by rewrite <- Hs.
      * done.
Qed.

Lemma open_action_stays_pending_at_stream_end_witness :
  exists rp before p ws1 ws2,
    streamChunks (initialProcessor ∅) openCreate = (rp, [])
    /\ currentFileAction rp
       = Some {| a_type := CREATE; a_path := lit "a.txt"; a_content := [] |}
    /\ indexOf closingTag (chunkBuffer rp) = None
    /\ concat openCreate = before ++ tagText CREATE p ws1 ws2 ++ chunkBuffer rp
    /\ (processChunk (initialProcessor ∅) before).2 = [].
Proof.
  destruct (streamChunks (initialProcessor ∅) openCreate) as [rp out] eqn:E.
  pose proof (open_action_stays_pending_at_stream_end ∅ openCreate rp out E) as [H _].
  assert (out = [] /\ currentFileAction rp
          = Some {| a_type := CREATE; a_path := lit "a.txt"; a_content := [] |}) as [-> Hc].
  { vm_compute in E. by injection E as <- <-. }
  destruct (H _ Hc) as (_ & _ & _ & Hclose & before & p & ws1 & ws2 & Ht & _ & _ & _ & Ho & _).
  exists rp, before, p, ws1, ws2. by split_and!.
Defined.

End StreamEnd.

(** *** A DELETE tag without a path *)

Section DeleteWithoutPath.

(** No action is open and the leftmost start tag of the buffer is a
    DELETE tag without a path attribute. *)
Definition blockedByDelete (rp : ResponseProcessor) (m : RegExpMatch) : Prop :=
  currentFileAction rp = None /\
  matchActionStart (chunkBuffer rp) = Some m /\
  m_1 m = DELETE /\ m_2 m = None.

Lemma blocked_pass rp m : blockedByDelete rp m -> pass rp = None.
Proof.
  destruct rp as [buf full cur files]. intros (Hc & Hm & Ht & Hp). simpl in Hc, Hm.
  unfold pass. cbn [chunkBuffer currentFileAction]. by rewrite Hc, Hm, Ht, Hp.
Qed.

Lemma blocked_receive rp m y : blockedByDelete rp m -> blockedByDelete (receive rp y) m.
Proof.
  intros (Hc & Hm & Ht & Hp). split_and!; try done.
  unfold receive. cbn [chunkBuffer]. by apply matchActionStart_app.
Qed.

Lemma blocked_processChunk rp m c :
  blockedByDelete rp m -> processChunk rp c = (receive rp c, []).
Proof.
  intros H. unfold processChunk, processActionTags.
  apply passes_stuck, (blocked_pass _ m). by apply blocked_receive.
Qed.

Lemma blocked_feed rp m chunks :
  blockedByDelete rp m -> feed rp chunks = (receive rp (concat chunks), []).
Proof.
  revert rp. induction chunks as [|c chunks IH]; intros rp H; simpl.
  - by rewrite receive_nil.
  - rewrite (blocked_processChunk rp m c H).
    rewrite (IH (receive rp c)) by by apply blocked_receive.
    by rewrite receive_receive.
Qed.

Definition deleteTag : str := lit "<action type=" ++ [dq] ++ lit "DELETE" ++ [dq] ++ lit ">".

Definition afterDelete : list str :=
  [ lit "</action><action type=" ++ [dq] ++ lit "TEXT" ++ [dq] ++ lit ">hi</ac";
    lit "tion>" ].

(** C9. When no action is open and the earliest start tag of the buffer
    is a DELETE tag without a path attribute, no later fragment makes
    the parser consume it: whatever fragments follow, no action is
    emitted, the buffer only grows by the fragments (nothing is removed
    from its front), and the same DELETE tag stays the earliest match. *)
Theorem delete_without_path_blocks_the_parser
    (rp : ResponseProcessor) (m : RegExpMatch) (chunks : list str) :
  currentFileAction rp = None ->
  matchActionStart (chunkBuffer rp) = Some m ->
  m_1 m = DELETE -> m_2 m = None ->
  let '(rp', out) := streamChunks rp chunks in
  out = [] /\
  chunkBuffer rp' = chunkBuffer rp ++ concat chunks /\
  currentFileAction rp' = None /\
  matchActionStart (chunkBuffer rp') = Some m /\
  feed rp chunks = (rp', []).
Proof.
  intros Hc Hm Ht Hp.
  assert (blockedByDelete rp m) as H by done.
  rewrite (streamChunks_feed _ _ (blocked_pass _ _ H)), (blocked_feed _ _ _ H).
  split_and!; try done.
  by apply (blocked_receive _ _ (concat chunks)) in H as (_ & ? & _).
Qed.

Lemma delete_without_path_blocks_the_parser_witness :
  let '(rp', out) := streamChunks (receive (initialProcessor ∅) deleteTag) afterDelete in
  out = [] /\
  chunkBuffer rp' = chunkBuffer (receive (initialProcessor ∅) deleteTag) ++ concat afterDelete /\
  currentFileAction rp' = None /\
  matchActionStart (chunkBuffer rp')
    = Some {| m_index := 0; m_0 := deleteTag; m_1 := DELETE; m_2 := None |} /\
  feed (receive (initialProcessor ∅) deleteTag) afterDelete = (rp', []).
Proof.
  pose proof (delete_without_path_blocks_the_parser
                (receive (initialProcessor ∅) deleteTag)
                {| m_index := 0; m_0 := deleteTag; m_1 := DELETE; m_2 := None |}
                afterDelete) as H.
  apply H; reflexivity.
Defined.

End DeleteWithoutPath.

(** ** Command execution *)

Section CommandProofs.




(** *** The matcher *)

#[local] Arguments matcher : simpl never.

Lemma matcher_Seq {R} ic r1 r2 s caps (k : str -> captures -> option R) :
  matcher ic (Seq r1 r2) s caps k
  = matcher ic r1 s caps (fun s' caps' => matcher ic r2 s' caps' k).
Proof. reflexivity. Qed.

Lemma matcher_Chr {R} ic c d s caps (k : str -> captures -> option R) :
  matcher ic (Chr c) (d :: s) caps k
  = if (canonicalize ic c =? canonicalize ic d)%N then k s caps else None.
Proof. reflexivity. Qed.


Section MatcherInvariant.
Context (Q : N -> Prop).

Definition capsOK (caps : captures) : Prop := map_Forall (fun _ v => Forall Q v) caps.

(** Where a successful match calls its continuation: on a suffix of
    the input, with captures taken from the input. *)
Lemma matcher_inv {R} ic r :
  forall s caps (k : str -> captures -> option R) x,
    matcher ic r s caps k = Some x ->
    exists s' caps' pre,
      s = pre ++ s' /\ k s' caps' = Some x /\
      (Forall Q s -> capsOK caps -> capsOK caps').
Proof.
  induction r as [|c|p|r1 IH1 r2 IH2|r1 IH1 r2 IH2|r IH|n r IH|n]; intros s caps k x H.
  - exists s, caps, []. by split_and!.
  - destruct s as [|d s]; [done|]. rewrite matcher_Chr in H.
    destruct (_ =? _)%N; [|done]. exists s, caps, [d]. by split_and!.
  - destruct s as [|d s]; [done|]. unfold matcher in H.
    destruct (p d); [|done]. exists s, caps, [d]. by split_and!.
  - rewrite matcher_Seq in H.
    apply IH1 in H as (s1 & caps1 & pre1 & -> & H & Hc1).
    apply IH2 in H as (s2 & caps2 & pre2 & -> & H & Hc2).
    exists s2, caps2, (pre1 ++ pre2). rewrite <- app_assoc. split_and!; try done.
    intros Hs Hc. apply Hc2; [|by apply Hc1].
    by apply Forall_app in Hs as [_ Hs].
  - unfold matcher in H. fold (@matcher R ic) in H.
    destruct (matcher ic r1 s caps k) as [y|] eqn:E.
    + injection H as ->. by apply IH1 in E.
    + by apply IH2 in H.
  - unfold matcher in H. fold (@matcher R ic) in H. revert H.
    generalize (length s) at 1. intros n. revert s caps.
    induction n as [|n IHn]; intros s caps H.
    + exists s, caps, []. by split_and!.
    + match type of H with
      | match ?m with _ => _ end = _ => destruct m as [y|] eqn:E
      end.
      * injection H as ->.
        apply IH in E as (s1 & caps1 & pre1 & -> & E & Hc1).
        destruct (bool_decide _); [|done].
        apply IHn in E as (s2 & caps2 & pre2 & -> & E & Hc2).
        exists s2, caps2, (pre1 ++ pre2). rewrite <- app_assoc. split_and!; try done.
        intros Hs Hc. apply Hc2; [|by apply Hc1].
        by apply Forall_app in Hs as [_ Hs].
      * exists s, caps, []. by split_and!.
  - unfold matcher in H. fold (@matcher R ic) in H.
    apply IH in H as (s1 & caps1 & pre1 & -> & H & Hc1).
    eexists s1, _, pre1. split_and!; [done|exact H|].
    intros Hs Hc. apply map_Forall_insert_2; [|by apply Hc1].
    by apply Forall_take.
  - unfold matcher in H. destruct (caps !! n) as [v|].
    + destruct (startsWithCanon ic v s); [|done].
      exists (drop (length v) s), caps, (take (length v) s).
      by rewrite take_drop.
    + exists s, caps, []. by split_and!.
Qed.



End MatcherInvariant.

(** *** Runs of newlines *)

Lemma execAt_unfold ic r i s :
  execAt ic r i s =
  match matcher ic r s ∅ (fun s' caps => Some (s', caps)) with
  | Some (s', caps) =>
      Some {| r_index := i; r_0 := take (length s - length s') s; r_caps := caps |}
  | None => match s with [] => None | _ :: s' => execAt ic r (S i) s' end
  end.
Proof. by destruct s. Qed.





Lemma replaceAllFuel_S fuel ic r by_ s :
  replaceAllFuel (S fuel) ic r by_ s =
  match exec ic r s with
  | None => s
  | Some m =>
      match r_0 m with
      | [] =>
          match drop (r_index m + length (r_0 m)) s with
          | [] => take (r_index m) s ++ by_
          | c :: after' =>
              take (r_index m) s ++ by_ ++ c :: replaceAllFuel fuel ic r by_ after'
          end
      | _ :: _ =>
          take (r_index m) s ++ by_
            ++ replaceAllFuel fuel ic r by_ (drop (r_index m + length (r_0 m)) s)
      end
  end.
Proof. reflexivity. Qed.


(** *** [trim] *)

Lemma dropWhile_idem (f : N -> bool) (s : list N) :
  dropWhile f (dropWhile f s) = dropWhile f s.
Proof.
  induction s as [|c s IH]; [done|]. simpl. destruct (f c) eqn:E; [done|].
  simpl. by rewrite E.
Qed.

Lemma dropWhile_suffix (f : N -> bool) (s : list N) :
  exists pre, s = pre ++ dropWhile f s.
Proof. exists (takeWhile f s). apply takeWhile_dropWhile. Qed.

Lemma trimEnd_prefix (s : list N) : exists w, s = trimEnd s ++ w.
Proof.
  unfold trimEnd. destruct (dropWhile_suffix isWhiteSpace (reverse s)) as [pre E].
  exists (reverse pre). rewrite <- reverse_app, <- E. by rewrite reverse_involutive.
Qed.

Lemma trim_trim (s : list N) : trim (trim s) = trim s.
Proof.
  unfold trim. set (t := trimStart s).
  assert (trimStart (trimEnd t) = trimEnd t) as ->.
  { destruct (trimEnd_prefix t) as [w Ht].
    destruct (trimEnd t) as [|c r]; [done|].
    assert (isWhiteSpace c = false) as Hc.
    { apply (dropWhile_head isWhiteSpace s c (r ++ w)). exact Ht. }
    unfold trimStart. simpl. by rewrite Hc. }
  unfold trimEnd. by rewrite reverse_involutive, dropWhile_idem.
Qed.




(** *** Texts without a newline, trimmed texts *)

Lemma canonicalize_exact c : canonicalize false c = c.
Proof. reflexivity. Qed.

(** A match of [\s*\n+\s*] holds a newline. *)
Lemma newline_match_has_nl s s' caps :
  matcher false newlineRun s ∅ (fun s' caps => Some (s', caps)) = Some (s', caps) ->
  nl ∈ s.
Proof.
  unfold newlineRun, Plus. rewrite matcher_Seq. intros H.
  apply (matcher_inv (fun _ => True)) in H as (s1 & c1 & pre1 & -> & H & _).
  rewrite !matcher_Seq in H. destruct s1 as [|d s1]; [done|].
  rewrite matcher_Chr, !canonicalize_exact in H.
  destruct (N.eqb_spec nl d) as [<-|]; [|done].
  apply elem_of_app. right. left.
Qed.

Lemma execAt_without_newline i s : nl ∉ s -> execAt false newlineRun i s = None.
Proof.
  revert i. induction s as [|c s IH]; intros i Hs; rewrite execAt_unfold.
  - destruct (matcher _ _ [] _ _) as [[s' caps]|] eqn:E; [|done].
    apply newline_match_has_nl in E. by apply elem_of_nil in E.
  - destruct (matcher _ _ (c :: s) _ _) as [[s' caps]|] eqn:E.
    + apply newline_match_has_nl in E. done.
    + apply IH. by apply not_elem_of_cons in Hs as [_ Hs].
Qed.

Lemma replaceAll_without_newline s : nl ∉ s -> replaceAll false newlineRun [sp] s = s.
Proof.
  intros Hs. unfold replaceAll. rewrite replaceAllFuel_S. unfold exec.
  by rewrite execAt_without_newline.
Qed.

Lemma dropWhile_length (f : N -> bool) (s : list N) : length (dropWhile f s) <= length s.
Proof.
  induction s as [|c s IH]; simpl; [done|]. destruct (f c); simpl; lia.
Qed.

Lemma dropWhile_fixed (f : N -> bool) (s : list N) :
  dropWhile f s = s <-> s = [] \/ exists c r, s = c :: r /\ f c = false.
Proof.
  destruct s as [|c s]; simpl; [by split; [left|]|]. destruct (f c) eqn:E.
  - split.
    + intros H. pose proof (dropWhile_length f s) as Hl. rewrite H in Hl. simpl in Hl. lia.
    + intros [H|(c' & r & [= -> ->] & H)]; [done|congruence].
  - split; [|done]. intros _. right. by exists c, s.
Qed.

Lemma dropWhile_fixed_app (f : N -> bool) (s t : list N) :
  dropWhile f s = s -> s <> [] -> dropWhile f (s ++ t) = s ++ t.
Proof.
  intros H Hne. apply dropWhile_fixed in H as [H|(c & r & -> & Hc)]; [done|].
  simpl. by rewrite Hc.
Qed.

Lemma trim_fixed (s : list N) :
  trim s = s -> dropWhile isWhiteSpace s = s /\
                dropWhile isWhiteSpace (reverse s) = reverse s.
Proof.
  unfold trim, trimEnd, trimStart. intros H.
  pose proof (dropWhile_length isWhiteSpace s) as H1.
  pose proof (dropWhile_length isWhiteSpace (reverse (dropWhile isWhiteSpace s))) as H2.
  pose proof (f_equal length H) as Hl. rewrite !length_reverse in *.
  assert (dropWhile isWhiteSpace s = s) as E1.
  { destruct (dropWhile_suffix isWhiteSpace s) as [pre E]. destruct pre as [|x pre].
    - done.
    - apply (f_equal length) in E. rewrite length_app in E. simpl in E. lia. }
  split; [done|]. rewrite E1 in H. apply (f_equal reverse) in H.
  by rewrite reverse_involutive in H.
Qed.

Lemma trim_twice (b : list N) : trim b = b -> trim (b ++ b) = b ++ b.
Proof.
  intros H. destruct (decide (b = [])) as [->|Hne]; [done|].
  destruct (trim_fixed b H) as [H1 H2]. unfold trim, trimEnd, trimStart.
  rewrite (dropWhile_fixed_app _ _ _ H1 Hne), reverse_app.
  rewrite (dropWhile_fixed_app _ _ _ H2); [|by intros E%(f_equal reverse);
    rewrite reverse_involutive in E].
  by rewrite <- reverse_app, reverse_involutive.
Qed.

Lemma startsWith_take (n : nat) (b : str) : startsWith (take n b) b = true.
Proof. apply startsWith_spec. exists (drop n b). by rewrite take_drop. Qed.

(** *** Greedy quantifiers over single characters *)










(** *** What [\s*\n+\s*] matches *)







(** *** Lines and the white space between them *)

















(** *** [cleanCommand] *)






Lemma substring_middle (pre mid post : str) :
  substring (pre ++ mid ++ post) (length pre) (length pre + length mid) = mid.
Proof.
  unfold substring.
  replace (length pre `max` (length pre + length mid)) with (length pre + length mid) by lia.
  replace (length pre `min` (length pre + length mid)) with (length pre) by lia.
  rewrite drop_app_length. replace (length pre + length mid - length pre) with (length mid) by lia.
  by rewrite take_app_length.
Qed.




(** *** Every command is made of lines *)










(** *** Commands the patterns cannot match *)











(** *** A repeated [npm] command *)














































(** *** What is run and what is recorded *)

(** A process runner that prints the command line it was given. *)
Definition echoExeca : Execa :=
  fun cmd args _ _ w => (Exited (joinWith sp (cmd :: args)) [], w).






End CommandProofs.

(** ** More on the stream tag parser *)

Section ParserState.

(** What one completed action does to the tracked files: the
    assignment [generatedFiles[path] = content] for a CREATE or EDIT
    with a path. *)
Definition track (files : gmap str str) (a : Action) : gmap str str :=
  if isCreateOrEdit (a_type a) && negb (bool_decide (a_path a = []))
  then assign files (a_path a) (a_content a) else files.

(** What a consuming pass keeps and changes. *)
Lemma pass_effect rp rp' out :
  pass rp = Some (rp', out) ->
  fullResponse rp' = fullResponse rp /\
  generatedFiles rp' = foldl track (generatedFiles rp) out /\
  chunkBuffer rp' `suffix_of` chunkBuffer rp.
Proof.
  destruct rp as [buf full cur files]. unfold pass.
  cbn [chunkBuffer fullResponse currentFileAction generatedFiles].
  destruct cur as [cur|].
  - destruct (indexOf closingTag buf) as [ci|]; [|done].
    intros H. apply (inj Some) in H. injection H as <- <-.
    cbn [fullResponse generatedFiles chunkBuffer]. split_and!; [done|done|].
    apply suffix_drop.
  - destruct (matchActionStart buf) as [m|]; [|done].
    destruct (m_1 m).
    1-3: destruct (_ || _); [|done]; intros H; apply (inj Some) in H;
         injection H as <- <-; cbn [fullResponse generatedFiles chunkBuffer];
         (split_and!; [done|done|apply suffix_drop]).
    + destruct (indexOfFrom closingTag buf _) as [ci|]; [|done].
      intros H. apply (inj Some) in H. injection H as <- <-.
      cbn [fullResponse generatedFiles chunkBuffer]. split_and!; [done|done|].
      apply suffix_drop.
    + destruct (indexOfFrom closingTag buf _) as [ci|]; [|done].
      intros H. apply (inj Some) in H. injection H as <- <-.
      cbn [fullResponse generatedFiles chunkBuffer]. split_and!; [done|done|].
      apply suffix_drop.
Qed.

Lemma passes_effect n rp :
  fullResponse (passes n rp).1 = fullResponse rp /\
  generatedFiles (passes n rp).1 = foldl track (generatedFiles rp) (passes n rp).2 /\
  chunkBuffer (passes n rp).1 `suffix_of` chunkBuffer rp.
Proof.
  revert rp. induction n as [|n IH]; intros rp; [done|]. rewrite passes_S.
  destruct (pass rp) as [[rp1 o1]|] eqn:E; [|done].
  apply pass_effect in E as (E1 & E2 & E3). destruct (IH rp1) as (I1 & I2 & I3).
  destruct (passes n rp1) as [rp2 o2]. simpl in *.
  rewrite foldl_app, <- E2, I1, I2. split_and!; [done|done|]. by etrans.
Qed.

Lemma processChunk_effect rp text :
  fullResponse (processChunk rp text).1 = fullResponse rp ++ text /\
  generatedFiles (processChunk rp text).1
    = foldl track (generatedFiles rp) (processChunk rp text).2 /\
  chunkBuffer (processChunk rp text).1 `suffix_of` chunkBuffer rp ++ text.
Proof. apply (passes_effect _ (receive rp text)). Qed.

Lemma streamChunks_effect rp chunks :
  fullResponse (streamChunks rp chunks).1 = fullResponse rp ++ concat chunks /\
  generatedFiles (streamChunks rp chunks).1
    = foldl track (generatedFiles rp) (streamChunks rp chunks).2 /\
  (chunkBuffer rp `suffix_of` fullResponse rp ->
   chunkBuffer (streamChunks rp chunks).1 `suffix_of` fullResponse (streamChunks rp chunks).1).
Proof.
  revert rp. induction chunks as [|c chunks IH]; intros rp.
  { simpl. by rewrite app_nil_r. }
  destruct c as [|d c]; [apply IH|].
  cbn [streamChunks]. set (c' := d :: c).
  destruct (processChunk_effect rp c') as (E1 & E2 & E3).
  destruct (processChunk rp c') as [rp1 o1]. simpl in E1, E2, E3.
  destruct (IH rp1) as (I1 & I2 & I3).
  destruct (streamChunks rp1 chunks) as [rp2 o2]. simpl in *.
  split_and!.
  - rewrite I1, E1. by rewrite <- app_assoc.
  - by rewrite I2, E2, foldl_app.
  - intros Hs. apply I3. rewrite E1. etrans; [exact E3|]. by apply suffix_app.
Qed.

(** X1. From a new processor, whatever the fragments: [getFullResponse]
    is the text of all fragments in order, and the part of it not yet
    consumed ([chunkBuffer]) is a tail of that text. *)
Theorem full_response_is_the_text_received (files : gmap str str) (chunks : list str) :
  getFullResponse (streamChunks (initialProcessor files) chunks).1 = concat chunks /\
  chunkBuffer (streamChunks (initialProcessor files) chunks).1 `suffix_of` concat chunks.
Proof.
  destruct (streamChunks_effect (initialProcessor files) chunks) as (E1 & _ & E3).
  simpl in E1. unfold getFullResponse. rewrite E1. split; [done|].
  rewrite <- E1. by apply E3.
Qed.

Lemma track_dom files a : dom files ⊆ dom (track files a).
Proof.
  unfold track, assign. destruct (_ && _); [|done]. destruct (_ && _); [done|].
  rewrite dom_insert_L. apply union_subseteq_r.
Qed.

Lemma foldl_track_dom out files : dom files ⊆ dom (foldl track files out).
Proof.
  revert files. induction out as [|a out IH]; intros files; [done|]. simpl.
  etrans; [apply (track_dom files a)|apply IH].
Qed.

(** X2. The tracked files after a stream are the files the processor
    started with, updated by the emitted actions in order: a completed
    CREATE or EDIT with a path assigns the content to its path in the
    plain object that holds them (which sets the content of the path,
    except that the path [__proto__] is only set when the files hold it
    already), every other action (a DELETE too) leaves the tracked
    files as they are, so no path is ever removed from them. *)
Theorem generated_files_replay_the_actions (rp : ResponseProcessor) (chunks : list str) :
  getGeneratedFiles (streamChunks rp chunks).1
    = foldl track (getGeneratedFiles rp) (streamChunks rp chunks).2
  /\ dom (getGeneratedFiles rp) ⊆ dom (getGeneratedFiles (streamChunks rp chunks).1).
Proof.
  destruct (streamChunks_effect rp chunks) as (_ & E2 & _).
  unfold getGeneratedFiles. rewrite E2. split; [done|]. apply foldl_track_dom.
Qed.

End ParserState.

(** *** The shape of the emitted actions *)

Section ActionShape.

Definition wellShaped (a : Action) : Prop :=
  (dq ∉ a_path a) /\
  (a_type a = DELETE -> a_path a <> []) /\
  (a_type a = COMMAND \/ a_type a = TEXT -> a_path a = []) /\
  (a_type a = TEXT -> trim (a_content a) = a_content a).

(** An open action is never a TEXT action. *)
Definition openShaped (rp : ResponseProcessor) : Prop :=
  forall cur, currentFileAction rp = Some cur ->
    a_type cur <> TEXT /\ (dq ∉ a_path cur) /\
    (a_type cur = DELETE -> a_path cur <> []) /\
    (a_type cur = COMMAND -> a_path cur = []).

Lemma match_path i s m :
  execFrom i s = Some m ->
  (dq ∉ default [] (m_2 m)) /\ (m_2 m <> None -> default [] (m_2 m) <> []).
Proof.
  intros H. apply execFrom_Some in H as (pre & after & ws1 & ws2 & _ & _ & _ & Hok & _).
  destruct (m_2 m) as [p|]; simpl in *.
  - by destruct Hok as (_ & _ & Hp & Hq).
  - split; [apply not_elem_of_nil|done].
Qed.

Lemma pass_shape rp rp' out :
  openShaped rp -> pass rp = Some (rp', out) ->
  openShaped rp' /\ Forall wellShaped out.
Proof.
  destruct rp as [buf full cur files]. unfold pass, openShaped.
  cbn [chunkBuffer fullResponse currentFileAction generatedFiles].
  intros Hcur. destruct cur as [cur|].
  - destruct (Hcur cur eq_refl) as (H1 & H2 & H3 & H4).
    destruct (indexOf closingTag buf) as [ci|]; [|done].
    intros H. apply (inj Some) in H. injection H as <- <-.
    cbn [currentFileAction]. split; [done|]. apply Forall_singleton.
    unfold wellShaped. cbn [a_type a_path a_content]. split_and!; try done.
    intros [Hc|Ht]; [by apply H4|done].
  - clear Hcur. destruct (matchActionStart buf) as [m|] eqn:E; [|done].
    destruct (match_path _ _ _ E) as [Hq Hne].
    destruct (m_1 m) eqn:Et.
    1-3: destruct (_ || _) eqn:Ec; [|done]; intros H; apply (inj Some) in H;
         injection H as <- <-; cbn [currentFileAction]; (split; [|done]);
         intros cur [= <-]; cbn [a_type a_path]; split_and!; try done.
    + intros _. simpl in Ec. by apply negb_true_iff, bool_decide_eq_false in Ec.
    + destruct (indexOfFrom closingTag buf _) as [ci|]; [|done].
      intros H. apply (inj Some) in H. injection H as <- <-.
      cbn [currentFileAction]. split; [|done].
      intros cur [= <-]. cbn [a_type a_path]. split_and!; try done. apply not_elem_of_nil.
    + destruct (indexOfFrom closingTag buf _) as [ci|]; [|done].
      intros H. apply (inj Some) in H. injection H as <- <-.
      cbn [currentFileAction]. split; [done|]. apply Forall_singleton.
      unfold wellShaped. cbn [a_type a_path a_content].
      split_and!; try done; [apply not_elem_of_nil|]. intros _. apply trim_trim.
Qed.

Lemma passes_shape n rp :
  openShaped rp -> openShaped (passes n rp).1 /\ Forall wellShaped (passes n rp).2.
Proof.
  revert rp. induction n as [|n IH]; intros rp Hrp; [done|]. rewrite passes_S.
  destruct (pass rp) as [[rp1 o1]|] eqn:E; [|done].
  destruct (pass_shape _ _ _ Hrp E) as [H1 Ho1]. destruct (IH rp1 H1) as [H2 Ho2].
  destruct (passes n rp1) as [rp2 o2]. simpl in *. split; [done|]. by apply Forall_app.
Qed.

Lemma streamChunks_shape rp chunks :
  openShaped rp ->
  openShaped (streamChunks rp chunks).1 /\ Forall wellShaped (streamChunks rp chunks).2.
Proof.
  revert rp. induction chunks as [|c chunks IH]; intros rp Hrp; [done|].
  destruct c as [|d c]; [by apply IH|]. cbn [streamChunks].
  destruct (passes_shape (S (length (chunkBuffer (receive rp (d :: c)))))
              (receive rp (d :: c)) Hrp) as [H1 Ho1].
  fold (processActionTags (receive rp (d :: c))) in H1, Ho1.
  fold (processChunk rp (d :: c)) in H1, Ho1.
  destruct (processChunk rp (d :: c)) as [rp1 o1]. destruct (IH rp1 H1) as [H2 Ho2].
  destruct (streamChunks rp1 chunks) as [rp2 o2]. simpl in *. split; [done|].
  by apply Forall_app.
Qed.

(** X3. Every action a stream hands to the queue has a path without a
    double quote; a DELETE always carries a path (a CREATE or an EDIT
    need not), a COMMAND and a TEXT never do, and the content of a TEXT
    is trimmed. *)
Theorem emitted_actions_are_well_shaped (files : gmap str str) (chunks : list str) :
  Forall wellShaped (streamChunks (initialProcessor files) chunks).2.
Proof. by apply streamChunks_shape. Qed.

End ActionShape.

(** *** Well-formed responses *)

Section RoundTrip.

(** The start tag of an action, written with one space before the
    path attribute, and the text of an action in a response. *)
Definition startTag (t : ActionType) (path : str) : str :=
  match path with
  | [] => tagText t None [] []
  | _ :: _ => tagText t (Some path) [sp] []
  end.

Definition wire (a : Action) : str :=
  startTag (a_type a) (a_path a) ++ a_content a ++ closingTag.

Definition wellFormed (a : Action) : Prop :=
  (dq ∉ a_path a) /\
  indexOf closingTag (a_content a) = None /\
  (a_type a = DELETE -> a_path a <> []).

(** What the parser hands to the queue for an action of the response. *)
Definition delivered (a : Action) : Action :=
  match a_type a with
  | TEXT => {| a_type := TEXT; a_path := []; a_content := trim (a_content a) |}
  | COMMAND =>
      {| a_type := COMMAND; a_path := [];
         a_content := trim (a_content a) ++ a_content a |}
  | _ => a
  end.

(** A response: actions, each after some text without [<], and a last
    piece of such text. *)
Definition script (items : list (str * Action)) (tail : str) : str :=
  concat ((fun it : str * Action => it.1 ++ wire it.2) <$> items) ++ tail.

Definition idle (rp : ResponseProcessor) : Prop :=
  chunkBuffer rp = [] /\ currentFileAction rp = None.

Lemma closingTag_cons : closingTag = lt :: lit "/action>".
Proof. reflexivity. Qed.

Lemma startsWith_true (p r : str) : startsWith p (p ++ r) = true.
Proof. apply startsWith_spec. by exists r. Qed.

(** The closing tag does not overlap itself. *)
Lemma startsWith_closing_overlap (s rest : str) :
  s <> [] -> startsWith closingTag s = false ->
  startsWith closingTag (s ++ closingTag ++ rest) = false.
Proof.
  intros Hne Hs. destruct (startsWith closingTag (s ++ closingTag ++ rest)) eqn:E; [|done].
  exfalso. apply startsWith_spec in E as [r E].
  apply List.app_eq_app in E as [l [[E1 E2]|[E1 E2]]].
  - rewrite E1, startsWith_true in Hs. done.
  - destruct l as [|x l].
    + rewrite app_nil_r in E1. rewrite <- E1 in Hs.
      rewrite <- (app_nil_r closingTag) in Hs at 2. by rewrite startsWith_true in Hs.
    + destruct s as [|c s]; [done|]. rewrite closingTag_cons in E1, E2.
      simpl in E1, E2. injection E1 as _ E1. injection E2 as <- _.
      assert (lt ∈ lit "/action>") as Hin by (rewrite E1; apply elem_of_app; right; left).
      revert Hin. apply (bool_decide_unpack _). by vm_compute.
Qed.

Lemma search_unfold needle s :
  search needle s =
  if startsWith needle s then Some 0
  else match s with [] => None | _ :: s' => S <$> search needle s' end.
Proof. by destruct s. Qed.

Lemma search_cons needle c s :
  search needle (c :: s) =
  if startsWith needle (c :: s) then Some 0 else S <$> search needle s.
Proof. reflexivity. Qed.

Lemma search_closing (content rest : str) :
  search closingTag content = None ->
  search closingTag (content ++ closingTag ++ rest) = Some (length content).
Proof.
  induction content as [|c content IH]; intros H.
  - rewrite search_unfold, app_nil_l. by rewrite startsWith_true.
  - rewrite search_cons in H.
    destruct (startsWith closingTag (c :: content)) eqn:Es; [done|].
    destruct (search closingTag content) as [k|] eqn:Ek; [done|].
    pose proof (startsWith_closing_overlap (c :: content) rest) as Ho.
    rewrite <- app_comm_cons in *. rewrite search_cons, Ho by done.
    by rewrite IH.
Qed.

Lemma indexOf_None_search needle s : indexOf needle s = None -> search needle s = None.
Proof.
  unfold indexOf, indexOfFrom. rewrite Nat.min_0_l, drop_0.
  by destruct (search needle s).
Qed.

Lemma indexOfFrom_at needle (pre s : str) :
  indexOfFrom needle (pre ++ s) (length pre)
  = (fun k => length pre + k) <$> search needle s.
Proof.
  unfold indexOfFrom. rewrite length_app.
  replace (length pre `min` (length pre + length s)) with (length pre) by lia.
  by rewrite drop_app_length.
Qed.

Lemma matchAt_not_lt c s : c <> lt -> matchAt (c :: s) = None.
Proof.
  intros Hc. destruct (matchAt (c :: s)) as [[[t p] after]|] eqn:E; [|done].
  apply matchAt_Some in E as (ws1 & ws2 & E & _). unfold tagText in E.
  rewrite openLit_unfold in E. simpl in E. by injection E as -> _.
Qed.

(** Text without [<] before a tag is skipped by the search. *)
Lemma execFrom_skip i (sep s : str) :
  lt ∉ sep -> execFrom i (sep ++ s) = execFrom (i + length sep) s.
Proof.
  revert i. induction sep as [|c sep IH]; intros i Hs.
  - simpl. by rewrite Nat.add_0_r.
  - apply not_elem_of_cons in Hs as [Hc Hs]. rewrite execFrom_unfold.
    change ((c :: sep) ++ s) with (c :: sep ++ s).
    rewrite matchAt_not_lt by done. rewrite IH by done. f_equal. simpl. lia.
Qed.

Lemma execFrom_at_start i t p ws1 ws2 after :
  attrOk p ws1 -> white ws2 ->
  execFrom i (tagText t p ws1 ws2 ++ after)
  = Some {| m_index := i; m_0 := tagText t p ws1 ws2; m_1 := t; m_2 := p |}.
Proof.
  intros Hok Hw. rewrite execFrom_unfold.
  assert (matchAt (tagText t p ws1 ws2 ++ after) = Some (t, p, after)) as ->.
  { apply matchAt_Some. by exists ws1, ws2. }
  by rewrite length_app, Nat.add_sub, take_app_length.
Qed.

Lemma startTag_match i t path sep after :
  (dq ∉ path) -> lt ∉ sep ->
  execFrom i (sep ++ startTag t path ++ after)
  = Some {| m_index := i + length sep; m_0 := startTag t path; m_1 := t;
            m_2 := match path with [] => None | _ :: _ => Some path end |}.
Proof.
  intros Hq Hs. rewrite execFrom_skip by done. unfold startTag.
  destruct path as [|c path].
  - apply execFrom_at_start; [done|by constructor].
  - apply execFrom_at_start; [|by constructor].
    split_and!; try done. by repeat constructor.
Qed.

Lemma matchActionStart_none_without_lt (s : str) : lt ∉ s -> matchActionStart s = None.
Proof.
  intros Hs. unfold matchActionStart. rewrite <- (app_nil_r s).
  by rewrite execFrom_skip.
Qed.

Lemma processActionTags_step rp rp' out :
  pass rp = Some (rp', out) ->
  processActionTags rp
  = let '(rp'', out') := processActionTags rp' in (rp'', out ++ out').
Proof.
  intros E. unfold processActionTags. rewrite passes_S, E.
  pose proof (pass_shortens _ _ _ E) as Hs.
  by rewrite (passes_fuel (length (chunkBuffer rp)) (S (length (chunkBuffer rp'))) rp')
    by lia.
Qed.

Lemma processActionTags_stuck rp : pass rp = None -> processActionTags rp = (rp, []).
Proof. apply passes_stuck. Qed.

Lemma default_path (path : str) :
  default [] (match path with [] => None | _ :: _ => Some path end) = path.
Proof. by destruct path. Qed.

Section OneAction.
Context (sep tag content : str).
Hypothesis Hclose : search closingTag content = None.

Lemma search_closing_end : search closingTag (content ++ closingTag) = Some (length content).
Proof.
  pose proof (search_closing content [] Hclose) as E. by rewrite app_nil_r in E.
Qed.

Lemma closing_after_tag :
  indexOfFrom closingTag (sep ++ tag ++ content ++ closingTag) (0 + length sep + length tag)
  = Some (length sep + length tag + length content).
Proof.
  rewrite (app_assoc sep tag), Nat.add_0_l, <- length_app, indexOfFrom_at.
  rewrite search_closing_end. simpl. by rewrite length_app.
Qed.

Lemma content_after_tag :
  substring (sep ++ tag ++ content ++ closingTag) (0 + length sep + length tag)
    (length sep + length tag + length content) = content.
Proof.
  rewrite (app_assoc sep tag), Nat.add_0_l, <- length_app. apply substring_middle.
Qed.

Lemma rest_after_tag :
  substringFrom (sep ++ tag ++ content ++ closingTag) (0 + length sep + length tag)
  = content ++ closingTag.
Proof.
  unfold substringFrom. by rewrite (app_assoc sep tag), Nat.add_0_l, <- length_app, drop_app_length.
Qed.

Lemma rest_after_closing :
  substringFrom (sep ++ tag ++ content ++ closingTag)
    (length sep + length tag + length content + length closingTag) = [].
Proof.
  unfold substringFrom. apply drop_ge. rewrite !length_app. lia.
Qed.

Lemma closing_in_content :
  indexOf closingTag (content ++ closingTag) = Some (length content).
Proof.
  unfold indexOf, indexOfFrom. rewrite Nat.min_0_l, drop_0.
  by rewrite search_closing_end.
Qed.

Lemma content_before_closing :
  substring (content ++ closingTag) 0 (length content) = content.
Proof.
  pose proof (substring_middle [] content closingTag) as H. simpl in H. exact H.
Qed.

Lemma nothing_after_closing :
  substringFrom (content ++ closingTag) (length content + length closingTag) = [].
Proof. unfold substringFrom. apply drop_ge. rewrite length_app. lia. Qed.

End OneAction.

(** One action of a response, from the text before it to its closing
    tag, seen by a processor that has nothing pending. *)
Lemma processChunk_one_action rp sep a :
  idle rp -> lt ∉ sep -> wellFormed a ->
  processChunk rp (sep ++ wire a)
  = ({| chunkBuffer := []; fullResponse := fullResponse rp ++ sep ++ wire a;
        currentFileAction := None;
        generatedFiles := track (generatedFiles rp) (delivered a) |}, [delivered a]).
Proof.
  destruct rp as [buf full cur files]. intros [Hb Hc] Hsep (Hq & Hcl & Hdel).
  simpl in Hb, Hc. subst buf cur. destruct a as [t path content].
  cbn [a_type a_path a_content] in *. apply indexOf_None_search in Hcl.
  unfold processChunk, receive, wire.
  cbn [chunkBuffer fullResponse currentFileAction generatedFiles a_type a_path a_content].
  rewrite app_nil_l.
  set (tag := startTag t path). set (text := sep ++ tag ++ content ++ closingTag).
  set (R0 := {| chunkBuffer := text; fullResponse := full ++ text;
                currentFileAction := None; generatedFiles := files |}).
  set (R2 := {| chunkBuffer := []; fullResponse := full ++ text;
                currentFileAction := None;
                generatedFiles := track files (delivered (mkAction t path content)) |}).
  assert (pass R2 = None) as E2 by by apply pass_idle.
  assert (matchActionStart text
          = Some {| m_index := 0 + length sep; m_0 := tag; m_1 := t;
                    m_2 := match path with [] => None | _ :: _ => Some path end |}) as Em
    by by apply startTag_match.
  destruct (decide (t = TEXT)) as [->|Ht].
  { assert (pass R0 = Some (R2, [delivered (mkAction TEXT path content)])) as E0.
    { unfold pass, R0. cbn [chunkBuffer fullResponse currentFileAction generatedFiles].
      rewrite Em. cbn [m_1 m_2 m_index m_0].
      unfold text. rewrite closing_after_tag, content_after_tag, rest_after_closing by done.
      done. }
    by rewrite (processActionTags_step _ _ _ E0), (processActionTags_stuck _ E2). }
  set (R1 := {| chunkBuffer := content ++ closingTag; fullResponse := full ++ text;
                currentFileAction :=
                  Some (match t with
                        | COMMAND => mkAction COMMAND [] (trim content)
                        | _ => mkAction t path []
                        end);
                generatedFiles := files |}).
  assert (pass R0 = Some (R1, [])) as E0.
  { unfold pass, R0, R1. cbn [chunkBuffer fullResponse currentFileAction generatedFiles].
    rewrite Em. cbn [m_1 m_2 m_index m_0]. rewrite default_path.
    unfold text. rewrite closing_after_tag, content_after_tag, rest_after_tag by done.
    destruct t; try done.
    assert (bool_decide (path = []) = false) as -> by (apply bool_decide_eq_false; auto).
    done. }
  assert (pass R1 = Some (R2, [delivered (mkAction t path content)])) as E1.
  { unfold pass, R1, R2. cbn [chunkBuffer fullResponse currentFileAction generatedFiles].
    rewrite closing_in_content, content_before_closing, nothing_after_closing by done.
    by destruct t. }
  rewrite (processActionTags_step _ _ _ E0), (processActionTags_step _ _ _ E1).
  by rewrite (processActionTags_stuck _ E2).
Qed.

Lemma script_cons sep a items tail :
  script ((sep, a) :: items) tail = (sep ++ wire a) ++ script items tail.
Proof. unfold script. simpl. by rewrite <- !app_assoc. Qed.

Lemma processChunk_script rp items tail :
  idle rp ->
  Forall (fun it : str * Action => (lt ∉ it.1) /\ wellFormed it.2) items -> lt ∉ tail ->
  processChunk rp (script items tail)
  = ({| chunkBuffer := tail; fullResponse := fullResponse rp ++ script items tail;
        currentFileAction := None;
        generatedFiles := foldl track (generatedFiles rp) (delivered <$> (snd <$> items)) |},
     delivered <$> (snd <$> items)).
Proof.
  revert rp. induction items as [|[sep a] items IH]; intros rp Hrp Hit Ht.
  - destruct rp as [buf full cur files]. destruct Hrp as [Hb Hc]. simpl in Hb, Hc.
    subst buf cur. unfold script, processChunk. simpl.
    apply processActionTags_stuck. unfold pass, receive. simpl.
    by rewrite matchActionStart_none_without_lt.
  - apply Forall_cons in Hit as [[Hsep Ha] Hit]. simpl in Hsep, Ha.
    rewrite script_cons.
    rewrite processChunk_app, (processChunk_one_action rp sep a Hrp Hsep Ha).
    rewrite IH by done. cbn [fullResponse generatedFiles]. simpl.
    by rewrite <- !app_assoc.
Qed.

(** A response with a CREATE of [a.txt] and a COMMAND, and one way of
    cutting it into fragments. *)
Definition twoActions : list (str * Action) :=
  [ ([], {| a_type := CREATE; a_path := lit "a.txt"; a_content := lit "hello" |});
    ([nl], {| a_type := COMMAND; a_path := []; a_content := lit "npm install" |}) ].

Definition twoActionsChunks : list str :=
  [ take 30 (script twoActions [nl]); drop 30 (script twoActions [nl]) ].

(** X4. A response made of well-formed actions (no double quote in a
    path, no closing tag inside a content, a path on every DELETE), each
    preceded by text without [<], gives the queue one action per action
    of the response, in order and however the response is cut into
    fragments: CREATE, EDIT and DELETE arrive as written, with the
    content exactly as it stands between the tags; a TEXT arrives with
    its content trimmed; a COMMAND arrives with its trimmed content
    followed by its content once more.  Afterwards nothing is pending
    but the text behind the last action. *)
Theorem well_formed_response_round_trip
    (files : gmap str str) (items : list (str * Action)) (tail : str) (chunks : list str) :
  Forall (fun it : str * Action => (lt ∉ it.1) /\ wellFormed it.2) items ->
  lt ∉ tail ->
  concat chunks = script items tail ->
  streamChunks (initialProcessor files) chunks
  = ({| chunkBuffer := tail; fullResponse := script items tail;
        currentFileAction := None;
        generatedFiles := foldl track files (delivered <$> (snd <$> items)) |},
     delivered <$> (snd <$> items)).
Proof.
  intros Hit Ht Hc.
  rewrite streamChunks_feed, feed_concat, Hc by apply initialProcessor_quiescent.
  by rewrite processChunk_script.
Qed.

Lemma well_formed_response_round_trip_witness :
  (streamChunks (initialProcessor ∅) twoActionsChunks).2
  = [ {| a_type := CREATE; a_path := lit "a.txt"; a_content := lit "hello" |};
      {| a_type := COMMAND; a_path := [];
         a_content := lit "npm installnpm install" |} ].
Proof.
  pose proof (well_formed_response_round_trip ∅ twoActions [nl] twoActionsChunks) as H.
  rewrite H.
  - reflexivity.
  - apply Forall_cons. split; [|apply Forall_cons; split; [|done]].
    all: split; [apply (bool_decide_unpack _); by vm_compute|].
    all: split_and!; [apply (bool_decide_unpack _); by vm_compute|by vm_compute|].
    all: intros Hd; discriminate Hd.
  - apply (bool_decide_unpack _). by vm_compute.
  - unfold twoActionsChunks.
    change (concat [?a; ?b]) with (a ++ b ++ []). by rewrite app_nil_r, take_drop.
Defined.

End RoundTrip.

(** *** The end of [streamResponse] *)

Section EmptyResponse.

Lemma dropWhile_nil_iff (f : N -> bool) (s : list N) :
  dropWhile f s = [] <-> Forall (fun c => f c = true) s.
Proof.
  induction s as [|c s IH]; simpl; [by split|]. destruct (f c) eqn:E.
  - rewrite IH. split; [by constructor|]. by intros [_ H]%Forall_cons.
  - split; [done|]. intros [H _]%Forall_cons. congruence.
Qed.

Lemma trim_nil_iff (s : list N) : trim s = [] <-> white s.
Proof.
  unfold trim, trimEnd, trimStart, white. split.
  - intros H. apply (f_equal reverse) in H. rewrite reverse_involutive in H.
    change (reverse []) with (@nil N) in H. apply dropWhile_nil_iff in H.
    rewrite Forall_reverse in H. apply dropWhile_nil_iff.
    destruct (dropWhile isWhiteSpace s) as [|c r] eqn:E; [done|].
    apply dropWhile_head in E. apply Forall_cons in H as [H _]. congruence.
  - intros H. apply dropWhile_nil_iff in H. by rewrite H.
Qed.

Lemma hasContent_false (chunks : list str) :
  existsb (fun c : str => negb (bool_decide (c = []))) chunks = false -> concat chunks = [].
Proof.
  induction chunks as [|c chunks IH]; [done|]. simpl.
  intros [H1 H2]%orb_false_iff. apply negb_false_iff, bool_decide_eq_true in H1.
  subst c. by apply IH.
Qed.

Lemma hasContent_true (chunks : list str) :
  concat chunks <> [] -> existsb (fun c : str => negb (bool_decide (c = []))) chunks = true.
Proof.
  intros H. destruct (existsb _ chunks) eqn:E; [done|]. by apply hasContent_false in E.
Qed.

Lemma white_response_emits_nothing (files : gmap str str) (chunks : list str) :
  white (concat chunks) ->
  (streamChunks (initialProcessor files) chunks).2 = [] /\
  generatedFiles (streamChunks (initialProcessor files) chunks).1 = files.
Proof.
  intros Hw. rewrite streamChunks_feed, feed_concat by apply initialProcessor_quiescent.
  pose proof (processChunk_script (initialProcessor files) [] (concat chunks)) as H.
  unfold script in H. simpl in H. rewrite H; [done|done|done|].
  by apply white_notin.
Qed.

(** X5. When the stream was read to its end, [streamResponse] throws
    its empty-response error exactly when the fragments received hold
    nothing but white space (or there was none); no action has then been
    handed to the queue and the tracked files are the ones it started
    with.  Otherwise it returns exactly when [saveDebugInfo] does not
    reject, and then returns the text of all fragments and the tracked
    files updated by the actions emitted; when [saveDebugInfo] rejects,
    or when the stream breaks, it throws. *)
Theorem empty_response_is_rejected (files : gmap str str) (chunks : list str)
    (saveDebugInfo : option str) :
  (let '(rp', out, res) :=
     streamResponse (initialProcessor files) chunks StreamDone saveDebugInfo in
   (res = EmptyResponse <-> white (concat chunks)) /\
   (res = EmptyResponse -> out = [] /\ getGeneratedFiles rp' = files) /\
   (res = DebugInfoError <-> ~ white (concat chunks) /\ saveDebugInfo = None) /\
   (forall full gf, res = Streamed full gf <->
      ~ white (concat chunks) /\ is_Some saveDebugInfo
      /\ full = concat chunks /\ gf = foldl track files out))
  /\ (streamResponse (initialProcessor files) chunks StreamBroken saveDebugInfo).2
     = StreamError.
Proof.
  split; [|unfold streamResponse; by destruct (streamChunks _ _)].
  unfold streamResponse.
  destruct (streamChunks_effect (initialProcessor files) chunks) as (E1 & E2 & _).
  pose proof (white_response_emits_nothing files chunks) as Hw.
  destruct (streamChunks (initialProcessor files) chunks) as [rp' out].
  simpl in E1, E2, Hw. unfold getFullResponse, getGeneratedFiles. rewrite E1.
  assert (negb (existsb (fun c : str => negb (bool_decide (c = []))) chunks)
          || bool_decide (length (trim (concat chunks)) = 0) = true
          <-> white (concat chunks)) as Hiff.
  { rewrite orb_true_iff, negb_true_iff, bool_decide_eq_true, length_zero_iff_nil.
    rewrite trim_nil_iff. split.
    - intros [H|H]; [|done]. apply hasContent_false in H. rewrite H. constructor.
    - by right. }
  destruct (_ || _) eqn:E.
  - apply proj1 in Hiff. specialize (Hiff eq_refl). split_and!; [done| | |].
    + intros _. by apply Hw.
    + split; [done|]. by intros [Hn _].
    + intros full gf. split; [done|]. by intros [Hn _].
  - assert (~ white (concat chunks)) as Hn by (intros H; apply Hiff in H; done).
    destruct saveDebugInfo as [savedDebugFile|].
    + split_and!.
      * split; [done|]. intros H. by destruct (Hn H).
      * done.
      * split; [done|]. by intros [_ ?].
      * intros full gf. split.
        -- intros [= <- <-]. by split_and!.
        -- intros (_ & _ & -> & ->). by rewrite E2.
    + split_and!.
      * split; [done|]. intros H. by destruct (Hn H).
      * done.
      * done.
      * intros full gf. split; [done|]. intros (_ & [? ?] & _). done.
Qed.

End EmptyResponse.

(** ** More on command execution *)

Section CommandPipeline.

#[local] Arguments matcher : simpl never.

(** X6. A COMMAND action whose text [b] is on one line, with no white
    space around it and no closing tag in it: the parser hands the
    queue the one COMMAND with [b] twice in a row as content;
    [cleanCommand] then makes [b] itself of it when [b] has more than
    ten characters, and leaves the doubled text [b ++ b] when it has
    ten or fewer. *)
Theorem delivered_command_runs_once_or_doubled (files : gmap str str) (b : str) :
  trim b = b -> nl ∉ b -> indexOf closingTag b = None ->
  (processChunk (initialProcessor files)
     (lit "<action type=" ++ [dq] ++ lit "COMMAND" ++ [dq; gt] ++ b ++ lit "</action>")).2
  = [ {| a_type := COMMAND; a_path := []; a_content := b ++ b |} ]
  /\ cleanCommand (b ++ b) = if bool_decide (10 < length b) then b else b ++ b.
Proof.
  intros Ht Hnl Hclose. split.
  { pose proof (processChunk_script (initialProcessor files)
                  [([], {| a_type := COMMAND; a_path := []; a_content := b |})] []) as H.
    unfold script in H. cbn [fmap list_fmap concat fst snd] in H.
    rewrite !app_nil_r in H. rewrite app_nil_l in H.
    change (lit "<action type=" ++ [dq] ++ lit "COMMAND" ++ [dq; gt] ++ b ++ lit "</action>")
      with (wire {| a_type := COMMAND; a_path := []; a_content := b |}).
    rewrite H.
    - cbn [snd delivered a_type a_content]. by rewrite Ht.
    - done.
    - apply Forall_singleton. split; [apply not_elem_of_nil|].
      split_and!; [apply not_elem_of_nil|done|done].
    - apply not_elem_of_nil. }
  unfold cleanCommand. rewrite (trim_twice b Ht).
  rewrite replaceAll_without_newline by (by rewrite not_elem_of_app).
  rewrite length_app.
  destruct (decide (10 < length b)) as [Hl|Hl].
  - rewrite (bool_decide_eq_true_2 (10 < length b)) by done.
    rewrite (bool_decide_eq_true_2 (20 < length b + length b)) by lia.
    replace ((length b + length b) / 2) with (length b)
      by (replace (length b + length b) with (length b * 2) by lia;
          by rewrite Nat.div_mul).
    pose proof (substring_middle [] b b) as Hs. simpl in Hs. rewrite Hs.
    unfold substringFrom. rewrite drop_app_length.
    unfold substring at 1. rewrite Nat.max_0_l, Nat.min_0_l, Nat.sub_0_r, drop_0.
    by rewrite startsWith_take.
  - rewrite (bool_decide_eq_false_2 (10 < length b)) by done.
    by rewrite (bool_decide_eq_false_2 (20 < length b + length b)) by lia.
Qed.

Lemma delivered_command_runs_once_or_doubled_witness :
  cleanCommand (lit "npm install lodash" ++ lit "npm install lodash")
    = lit "npm install lodash"
  /\ (processChunk (initialProcessor ∅)
        (lit "<action type=" ++ [dq] ++ lit "COMMAND" ++ [dq; gt] ++ lit "npm i"
         ++ lit "</action>")).2
     = [ {| a_type := COMMAND; a_path := []; a_content := lit "npm i" ++ lit "npm i" |} ]
  /\ cleanCommand (lit "npm i" ++ lit "npm i") = lit "npm i" ++ lit "npm i".
Proof.
  split.
  - pose proof (delivered_command_runs_once_or_doubled ∅ (lit "npm install lodash")) as H.
    destruct H as [_ H];
      [by vm_compute|apply (bool_decide_unpack _); by vm_compute|by vm_compute|].
    exact H.
  - pose proof (delivered_command_runs_once_or_doubled ∅ (lit "npm i")) as H.
    destruct H as [H1 H2];
      [by vm_compute|apply (bool_decide_unpack _); by vm_compute|by vm_compute|].
    split; [exact H1|exact H2].
Defined.

End CommandPipeline.

(** ** More on the action queue *)

Section QueueFrame.

(** What only the execution of a command or of a file change touches. *)
Definition ledger (q : ActionQueue) : list HistoryEntry * World * str :=
  (commandHistory q, world q, projectDir q).

Ltac unfold_queue :=
  unfold react, continue, loopTop, finish, recheck, resume, pause, addAction,
    waitUntilComplete, waitTimeout, afterProcessAction, startProcessing, shiftIfDone,
    checkIfComplete, setLoop, setQueue, setPending, setIsProcessing, setPaused in *.

Lemma ledger_checkIfComplete q : ledger (checkIfComplete q) = ledger q.
Proof. unfold checkIfComplete. by destruct (isComplete q). Qed.

Lemma ledger_startProcessing q : ledger (startProcessing q) = ledger q.
Proof.
  unfold startProcessing. destruct (_ || _); [done|].
  destruct (queue q); [apply ledger_checkIfComplete|done].
Qed.

Lemma ledger_finish q : ledger (finish q) = ledger q.
Proof.
  unfold finish.
  set (q1 := checkIfComplete (setLoop None (setIsProcessing false q))).
  assert (ledger q1 = ledger q) as E
    by apply (ledger_checkIfComplete (setLoop None (setIsProcessing false q))).
  destruct (hasPendingCommands q1); [done|]. destruct (_ && _); [|done].
  by rewrite ledger_startProcessing.
Qed.

Lemma ledger_shiftIfDone q : ledger (shiftIfDone q) = ledger q.
Proof. unfold shiftIfDone. destruct (queue q); [done|]. by destruct (_ && _). Qed.

Lemma ledger_afterProcessAction b q : ledger (afterProcessAction b q) = ledger q.
Proof.
  unfold afterProcessAction. destruct (queue q) as [|a rest]; [done|].
  destruct b.
  { change (ledger (setLoop ?l ?x)) with (ledger x). by rewrite ledger_shiftIfDone. }
  case_bool_decide; [|done].
  change (ledger (setLoop ?l ?x)) with (ledger x). by rewrite ledger_shiftIfDone.
Qed.

Lemma ledger_loopTop q : ledger (loopTop q) = ledger q.
Proof.
  unfold loopTop. destruct (queue q) as [|a rest]; [apply ledger_finish|].
  destruct (paused q); [apply ledger_finish|].
  destruct (hasPendingCommands q); [done|]. case_bool_decide; [done|].
  destruct (negb (processed a)); [|apply ledger_shiftIfDone].
  destruct (qa_type a); try done; by case_bool_decide.
Qed.

Lemma ledger_react e q :
  (forall execa, e = EvContinue execa ->
     loop q <> Some AwaitExec /\ loop q <> Some AwaitFile) ->
  ledger (react e q) = ledger q.
Proof.
  intros He. destruct e as [t p c i| | | |w|w|execa]; simpl.
  - unfold addAction. destruct (_ && _); [|done]. by rewrite ledger_startProcessing.
  - unfold pause. by destruct (negb (paused q)).
  - unfold resume. destruct (paused q); [|done]. destruct (_ && _); [|done].
    by rewrite ledger_startProcessing.
  - unfold recheck. destruct (_ && _); [|done]. by rewrite ledger_startProcessing.
  - unfold waitUntilComplete. by destruct (_ && _).
  - unfold waitTimeout. by case_bool_decide.
  - destruct (He execa eq_refl) as [H1 H2]. unfold continue.
    destruct (loop q) as [[| | | | | |b]|]; try done.
    + apply ledger_loopTop.
    + destruct (queue q); [done|].
      change (ledger (setLoop ?l ?x)) with (ledger x). by rewrite ledger_checkIfComplete.
    + change (ledger (setLoop ?l ?x)) with (ledger x). by rewrite ledger_checkIfComplete.
    + apply ledger_afterProcessAction.
Qed.

Lemma ledger_fields q q' :
  ledger q' = ledger q ->
  commandHistory q `prefix_of` commandHistory q' /\ projectDir q' = projectDir q.
Proof. unfold ledger. by intros [= -> _ ->]. Qed.

Lemma history_react e q : commandHistory q `prefix_of` commandHistory (react e q)
                          /\ projectDir (react e q) = projectDir q.
Proof.
  destruct e as [t p c i| | | |w|w|execa];
    try (apply ledger_fields; by apply ledger_react).
  destruct (loop q) as [[| | | | | |b]|] eqn:El;
    try (apply ledger_fields; apply ledger_react; intros ? _; by rewrite El).
  - simpl. unfold continue. rewrite El.
    destruct (queue q) as [|a rest]; [done|].
    destruct (executeCommand _ _ _ _ _) as [r w']. simpl. split; [|done].
    by apply prefix_app_r.
  - simpl. unfold continue. rewrite El.
    destruct (queue q) as [|a rest] eqn:Eq; [done|].
    destruct (applyFileChange _ _ _ _ _) as [[u|err] w']; [|done].
    change (commandHistory (setLoop ?l ?x)) with (commandHistory x).
    change (projectDir (setLoop ?l ?x)) with (projectDir x).
    match goal with |- context [checkIfComplete ?x] =>
      pose proof (ledger_checkIfComplete x) as E end.
    unfold ledger in E. cbn [commandHistory world projectDir] in E.
    assert (forall (a a' : list HistoryEntry) (b b' : World) (c c' : str),
              (a, b, c) = (a', b', c') -> a = a' /\ c = c') as Hinj
      by (by intros ?????? [= -> _ ->]).
    apply Hinj in E as [E1 E3]. by rewrite E1, E3.
Qed.

(** X7. The command history, the file system and the project directory
    of a queue change only where the loop executes a command or applies
    a file change: adding an action, pausing, resuming, waiting and every
    other step of the loop leave them as they are.  The history is
    append-only: whatever happens to a queue, the entries it holds stay
    at the front of the history, unchanged. *)
Theorem only_execution_touches_the_ledger (q : ActionQueue) :
  (forall e,
     ledger (react e q) <> ledger q ->
     exists execa, e = EvContinue execa
                   /\ (loop q = Some AwaitExec \/ loop q = Some AwaitFile))
  /\ (forall events,
        commandHistory q `prefix_of` commandHistory (run events q)
        /\ projectDir (run events q) = projectDir q).
Proof.
  split.
  - intros e Hne.
    destruct e as [t p c i| | | |w|w|execa];
      try (exfalso; apply Hne; by apply ledger_react).
    exists execa. split; [done|].
    destruct (loop q) as [[| | | | | |b]|] eqn:El; eauto;
      exfalso; apply Hne; apply ledger_react; intros ? _; by rewrite El.
  - intros events. revert q. induction events as [|e events IH]; intros q; [done|].
    unfold run in *. simpl. destruct (history_react e q) as [H1 H2].
    destruct (IH (react e q)) as [I1 I2]. split; [by etrans|congruence].
Qed.

End QueueFrame.

Section QueueBehaviour.

(** A process runner whose command always fails. *)
Definition failingExeca : Execa :=
  fun _ _ _ _ w => (Rejected [] (lit "exit code 1") (lit "Command failed"), w).

Definition failingCommandQueue : ActionQueue :=
  react (EvContinue failingExeca)
    (react (EvAddAction COMMAND [] (lit "npm run build") (lit "action-1"))
       (newQueue (lit "/p1") emptyWorld)).

Lemma continue_exec execa q a rest :
  loop q = Some AwaitExec -> queue q = a :: rest ->
  let r := executeCommand execa (projectDir q) (qa_content a) 20000%N (world q) in
  queue (continue execa q) = a :: rest /\
  loop (continue execa q) = Some AwaitSettle /\
  pendingCommands (continue execa q) = pendingCommands q /\
  commandHistory (continue execa q)
    = commandHistory q ++ [ {| h_result := r.1; h_actionId := qa_id a |} ] /\
  world (continue execa q) = r.2.
Proof.
  intros Hl Hq. unfold continue. rewrite Hl, Hq.
  by destruct (executeCommand _ _ _ _ _) as [result w'].
Qed.

Lemma continue_settle execa q a rest :
  loop q = Some AwaitSettle -> queue q = a :: rest ->
  queue (continue execa q) = a :: rest /\
  loop (continue execa q) = Some (AwaitResult true) /\
  pendingCommands (continue execa q) = pendingCommands q ∖ {[qa_id a]} /\
  commandHistory (continue execa q) = commandHistory q /\
  world (continue execa q) = world q.
Proof.
  intros Hl Hq. unfold continue. rewrite Hl, Hq.
  destruct (checkIfComplete_fields (setPending (pendingCommands q ∖ {[qa_id a]}) q))
    as (E1 & _ & _ & _ & E5 & E6 & E7 & _).
  change (queue (setLoop ?l ?x)) with (queue x).
  change (pendingCommands (setLoop ?l ?x)) with (pendingCommands x).
  change (commandHistory (setLoop ?l ?x)) with (commandHistory x).
  change (world (setLoop ?l ?x)) with (world x).
  by rewrite E1, E5, E6, E7.
Qed.

Lemma continue_result execa q b a rest :
  loop q = Some (AwaitResult b) -> queue q = a :: rest -> pendingCommands q = ∅ ->
  continue execa q
  = setLoop (Some AtLoopTop)
      (setQueue (if b then rest
                 else if bool_decide (Queue.MAX_RETRIES <= S (retryCount a)) then rest
                      else rest ++ [bumpRetry a]) q).
Proof.
  intros Hl Hq Hp. unfold continue. rewrite Hl. by apply afterProcessAction_queue.
Qed.

(** X8. A command is executed once, whatever becomes of its process:
    from the moment the loop awaits [executeCommand] for the command at
    the head of the queue, three steps of the loop (the execution, the
    settling delay, the end of the iteration) append the one result to
    the history, empty the set of pending commands and remove the
    command from the queue; a result with [success = false] (non-zero
    exit, time-out) does not make the loop retry it. *)
Theorem command_is_executed_once
    (dir : str) (w : World) (q : ActionQueue) (execa : Execa)
    (a : QueuedAction) (rest : list QueuedAction) :
  reachable dir w q -> loop q = Some AwaitExec -> queue q = a :: rest ->
  queue (dispatch execa 3 q) = rest /\
  loop (dispatch execa 3 q) = Some AtLoopTop /\
  pendingCommands (dispatch execa 3 q) = ∅ /\
  commandHistory (dispatch execa 3 q)
    = commandHistory q
      ++ [ {| h_result := fst (executeCommand execa (projectDir q) (qa_content a)
                                 20000%N (world q));
              h_actionId := qa_id a |} ] /\
  world (dispatch execa 3 q)
    = snd (executeCommand execa (projectDir q) (qa_content a) 20000%N (world q)).
Proof.
  intros Hr Hl Hq. pose proof (reachable_Inv _ _ _ Hr) as [_ Hp _ _ _ _].
  assert (pendingCommands q ∖ {[qa_id a]} = ∅) as Hpe.
  { destruct Hp as [->|(a' & rest' & Hq' & _ & -> & _)].
    - apply empty_difference_L.
    - rewrite Hq in Hq'. injection Hq' as <- _. apply difference_diag_L. }
  change (dispatch execa 3 q) with (continue execa (continue execa (continue execa q))).
  destruct (continue_exec execa q a rest Hl Hq) as (A1 & A2 & A3 & A4 & A5).
  destruct (continue_settle execa _ a rest A2 A1) as (B1 & B2 & B3 & B4 & B5).
  rewrite A3, Hpe in B3.
  rewrite (continue_result execa _ true a rest B2 B1 B3).
  change (queue (setLoop ?l (setQueue ?r ?x))) with r.
  change (loop (setLoop ?l ?x)) with l.
  change (pendingCommands (setLoop ?l (setQueue ?r ?x))) with (pendingCommands x).
  change (commandHistory (setLoop ?l (setQueue ?r ?x))) with (commandHistory x).
  change (world (setLoop ?l (setQueue ?r ?x))) with (world x).
  by rewrite B3, B4, B5, A4, A5.
Qed.

Lemma command_is_executed_once_witness :
  queue (dispatch failingExeca 3 failingCommandQueue) = [] /\
  commandHistory (dispatch failingExeca 3 failingCommandQueue)
    = commandHistory failingCommandQueue
      ++ [ {| h_result := fst (executeCommand failingExeca (projectDir failingCommandQueue)
                                 (lit "npm run build") 20000%N (world failingCommandQueue));
              h_actionId := lit "action-1" |} ] /\
  cr_success (fst (executeCommand failingExeca (projectDir failingCommandQueue)
                     (lit "npm run build") 20000%N (world failingCommandQueue))) = false.
Proof.
  pose proof (command_is_executed_once (lit "/p1") emptyWorld failingCommandQueue failingExeca
                (mkQueued COMMAND [] (lit "npm run build") false 0 (lit "action-1")) []) as H.
  destruct H as (H1 & _ & _ & H4 & _).
  - unfold failingCommandQueue. apply reach_step, reach_step, reach_new.
  - by vm_compute.
  - by vm_compute.
  - split_and!; [exact H1|exact H4|reflexivity].
Defined.

(** *** The order of the queue *)

Definition sameAction (a b : QueuedAction) : Prop :=
  qa_type a = qa_type b /\ qa_path a = qa_path b /\
  qa_content a = qa_content b /\ qa_id a = qa_id b.

Lemma queue_checkIfComplete q : queue (checkIfComplete q) = queue q.
Proof. by destruct (checkIfComplete_fields q) as (E & _). Qed.

Lemma queue_startProcessing q : queue (startProcessing q) = queue q.
Proof.
  unfold startProcessing. destruct (_ || _); [done|].
  destruct (queue q) eqn:E; [by rewrite queue_checkIfComplete|done].
Qed.

Lemma queue_finish q : queue (finish q) = queue q.
Proof.
  unfold finish. set (q1 := checkIfComplete (setLoop None (setIsProcessing false q))).
  assert (queue q1 = queue q) as E
    by apply (queue_checkIfComplete (setLoop None (setIsProcessing false q))).
  destruct (hasPendingCommands q1); [done|]. destruct (_ && _); [|done].
  by rewrite queue_startProcessing.
Qed.

Lemma queue_shiftIfDone q a rest :
  queue q = a :: rest ->
  queue (shiftIfDone q) = a :: rest \/ queue (shiftIfDone q) = rest.
Proof.
  intros Hq. unfold shiftIfDone. rewrite Hq. destruct (_ && _); [by right|by left].
Qed.

Lemma sameAction_refl a : sameAction a a.
Proof. done. Qed.

Lemma queue_continue execa q a rest :
  queue q = a :: rest ->
  exists a', sameAction a a' /\
    (queue (continue execa q) = a' :: rest \/ queue (continue execa q) = rest
     \/ queue (continue execa q) = rest ++ [a']).
Proof.
  intros Hq.
  assert (forall q', queue q' = a :: rest \/ queue q' = rest ->
            exists a', sameAction a a' /\
              (queue q' = a' :: rest \/ queue q' = rest \/ queue q' = rest ++ [a'])) as Keep.
  { intros q' [H|H]; exists a; split; auto using sameAction_refl. }
  unfold continue. destruct (loop q) as [[| | | | | |b]|].
  - apply Keep. unfold loopTop. rewrite Hq.
    destruct (paused q); [left; by rewrite queue_finish|].
    destruct (hasPendingCommands q); [by left|].
    case_bool_decide; [by right|].
    destruct (negb (processed a)).
    + left. destruct (qa_type a); try case_bool_decide; done.
    + by apply queue_shiftIfDone.
  - apply Keep. by left.
  - apply Keep. rewrite Hq. destruct (executeCommand _ _ _ _ _). by left.
  - apply Keep. rewrite Hq. left.
    change (queue (setLoop ?l ?x)) with (queue x). by rewrite queue_checkIfComplete.
  - apply Keep. rewrite Hq. left.
    destruct (applyFileChange _ _ _ _ _) as [[u|e] w']; [|done].
    change (queue (setLoop ?l ?x)) with (queue x). by rewrite queue_checkIfComplete.
  - apply Keep. left. change (queue (setLoop ?l ?x)) with (queue x).
    by rewrite queue_checkIfComplete.
  - unfold afterProcessAction. rewrite Hq. destruct b.
    + exists (markProcessed a). split; [done|].
      change (queue (setLoop ?l ?x)) with (queue x).
      destruct (queue_shiftIfDone (setQueue (markProcessed a :: rest) q)
                  (markProcessed a) rest eq_refl) as [-> | ->]; auto.
    + case_bool_decide.
      * exists (markProcessed (bumpRetry a)). split; [done|].
        change (queue (setLoop ?l ?x)) with (queue x).
        destruct (queue_shiftIfDone (setQueue (markProcessed (bumpRetry a) :: rest) q)
                    (markProcessed (bumpRetry a)) rest eq_refl) as [-> | ->]; auto.
      * exists (bumpRetry a). split; [done|]. auto.
  - apply Keep. by left.
Qed.

(** X9. The queue keeps the order in which actions arrive: [addAction]
    appends at the tail, and a step of the loop leaves every action
    behind the head where it is, unchanged; the head keeps its type,
    path, content and id and stays at the head, leaves the queue, or
    moves to the tail for a retry.  Pausing, resuming and waiting do not
    change the queue. *)
Theorem queue_order_is_kept (q : ActionQueue) :
  (forall t p c i,
     queue (addAction t p c i q)
     = queue q ++ [ {| qa_type := t; qa_path := p; qa_content := c;
                       processed := false; retryCount := 0; qa_id := i |} ])
  /\ (forall execa,
        match queue q with
        | [] => queue (continue execa q) = []
        | a :: rest =>
            exists a', sameAction a a' /\
              (queue (continue execa q) = a' :: rest \/ queue (continue execa q) = rest
               \/ queue (continue execa q) = rest ++ [a'])
        end)
  /\ queue (pause q) = queue q /\ queue (resume q) = queue q
  /\ queue (recheck q) = queue q
  /\ (forall w, queue (waitUntilComplete w q) = queue q
               /\ queue (waitTimeout w q) = queue q).
Proof.
  split_and!.
  - intros t p c i. unfold addAction. destruct (_ && _); [|done].
    by rewrite queue_startProcessing.
  - intros execa. destruct (queue q) as [|a rest] eqn:Hq; [|by apply queue_continue].
    unfold continue. destruct (loop q) as [[| | | | | |b]|]; try done.
    + unfold loopTop. rewrite Hq. by rewrite queue_finish.
    + by rewrite Hq.
    + by rewrite Hq.
    + by rewrite Hq.
    + change (queue (setLoop ?l ?x)) with (queue x). by rewrite queue_checkIfComplete.
    + unfold afterProcessAction. by rewrite Hq.
  - unfold pause. by destruct (negb (paused q)).
  - unfold resume. destruct (paused q); [|done]. destruct (_ && _); [|done].
    by rewrite queue_startProcessing.
  - unfold recheck. destruct (_ && _); [|done]. by rewrite queue_startProcessing.
  - intros w. split.
    + unfold waitUntilComplete. by destruct (_ && _).
    + unfold waitTimeout. by case_bool_decide.
Qed.

(** *** Pausing *)

Lemma paused_idle_react e q :
  paused q = true -> loop q = None -> e <> EvResume ->
  ledger (react e q) = ledger q /\ loop (react e q) = None /\
  paused (react e q) = true /\ queue q `prefix_of` queue (react e q).
Proof.
  intros Hp Hl He. split; [apply ledger_react; intros ? _; by rewrite Hl|].
  destruct e as [t p c i| | | |w|w|execa]; simpl.
  - unfold addAction, setQueue. cbn [isProcessing paused]. rewrite Hp, andb_false_r.
    simpl. split_and!; try done. by apply prefix_app_r.
  - unfold pause. by rewrite Hp.
  - done.
  - unfold recheck. by rewrite Hp, andb_false_r.
  - unfold waitUntilComplete. by destruct (_ && _).
  - unfold waitTimeout. by case_bool_decide.
  - unfold continue. by rewrite Hl.
Qed.

Definition pausedQueue : ActionQueue :=
  react (EvAddAction CREATE (lit "a.txt") (lit "hello") (lit "action-1"))
    (react EvPause (newQueue (lit "/p1") emptyWorld)).

(** X10. A paused queue executes nothing.  When the loop of a paused
    queue comes to its head test it ends, leaving the queue, the history
    and the file system as they are; while the queue is paused and no
    loop runs, adding actions, waiting and the timers only make the queue
    longer: nothing is executed until [resume], which starts the loop
    again when actions are waiting. *)
Theorem paused_queue_waits_for_resume (q : ActionQueue) :
  paused q = true ->
  (forall execa, loop q = Some AtLoopTop ->
     loop (continue execa q) = None /\ isProcessing (continue execa q) = false /\
     queue (continue execa q) = queue q /\ ledger (continue execa q) = ledger q)
  /\ (forall events, loop q = None -> Forall (fun e => e <> EvResume) events ->
        ledger (run events q) = ledger q /\ loop (run events q) = None /\
        paused (run events q) = true /\ queue q `prefix_of` queue (run events q))
  /\ (loop q = None -> isProcessing q = false -> queue q <> [] ->
      loop (resume q) = Some AtLoopTop /\ paused (resume q) = false /\
      queue (resume q) = queue q).
Proof.
  intros Hp. split_and!.
  - intros execa Hl.
    assert (continue execa q = checkIfComplete (setLoop None (setIsProcessing false q))) as ->.
    { unfold continue. rewrite Hl. unfold loopTop.
      assert (finish q = checkIfComplete (setLoop None (setIsProcessing false q))) as Hf.
      { unfold finish.
        set (q1 := checkIfComplete (setLoop None (setIsProcessing false q))).
        destruct (hasPendingCommands q1); [done|].
        destruct (checkIfComplete_fields (setLoop None (setIsProcessing false q)))
          as (_ & _ & E & _). fold q1 in E. rewrite E. simpl. rewrite Hp.
        by rewrite andb_false_r. }
      destruct (queue q); [done|]. by rewrite Hp. }
    destruct (checkIfComplete_fields (setLoop None (setIsProcessing false q)))
      as (E1 & E2 & _ & E4 & _).
    rewrite E1, E2, E4. split_and!; try done.
    apply (ledger_checkIfComplete (setLoop None (setIsProcessing false q))).
  - intros events. revert q Hp. induction events as [|e events IH]; intros q Hp Hl He.
    { done. }
    apply Forall_cons in He as [He Hes].
    destruct (paused_idle_react e q Hp Hl He) as (R1 & R2 & R3 & R4).
    destruct (IH (react e q) R3 R2 Hes) as (I1 & I2 & I3 & I4).
    unfold run in *. simpl. split_and!; try done; [congruence|by etrans].
  - intros Hl Hi Hq. unfold resume. rewrite Hp. unfold setPaused at 1 2 3.
    cbn [queue isProcessing]. rewrite Hi, (bool_decide_eq_false_2 _ Hq). simpl.
    unfold startProcessing, setPaused. cbn [isProcessing paused queue]. rewrite Hi. simpl.
    by destruct (queue q).
Qed.

Lemma paused_queue_waits_for_resume_witness :
  world (run [EvAddAction COMMAND [] (lit "npm install") (lit "action-2");
              EvContinue quietExeca; EvRecheck] pausedQueue) = emptyWorld
  /\ loop (resume pausedQueue) = Some AtLoopTop.
Proof.
  pose proof (paused_queue_waits_for_resume pausedQueue eq_refl) as (_ & H2 & H3).
  split.
  - destruct (H2 [EvAddAction COMMAND [] (lit "npm install") (lit "action-2");
                  EvContinue quietExeca; EvRecheck]) as (H & _).
    + reflexivity.
    + by repeat constructor.
    + apply (f_equal (fun l : list HistoryEntry * World * str => l.1.2)) in H. exact H.
  - by destruct H3 as (H & _).
Defined.

End QueueBehaviour.

(** ** More on the file mutator *)

Section Frames.

(** [m] leaves every file at a location other than [target] as it is,
    whether it returns or throws. *)
Definition Frame {A} (target : list str) (m : M A) : Prop :=
  forall w r w', m w = (r, w') ->
    forall l c, l <> target ->
      entries w' !! l = Some (File c) <-> entries w !! l = Some (File c).

Lemma Frame_ret {A} target (a : A) : Frame target (ret a).
Proof. by intros w r w' [= <- <-]. Qed.

Lemma Frame_lift {A} target (r : result A) : Frame target (lift r).
Proof. by intros w r' w' [= <- <-]. Qed.

Lemma Frame_bind {A B} target (m : M A) (f : A -> M B) :
  Frame target m -> (forall a, Frame target (f a)) -> Frame target (m ≫= f).
Proof.
  intros Hm Hf w r w' H l c Hl. rewrite run_bind in H.
  destruct (m w) as [[a|e] w1] eqn:E.
  - rewrite (Hf a w1 r w' H l c Hl). by apply (Hm w (Ok a) w1).
  - injection H as <- <-. by apply (Hm w (Throw e) w1).
Qed.

Lemma Frame_try_catch {A} target (m : M A) (h : Error -> M A) :
  Frame target m -> (forall e, Frame target (h e)) -> Frame target (try_catch m h).
Proof.
  intros Hm Hh w r w' H l c Hl. unfold try_catch in H.
  destruct (m w) as [[a|e] w1] eqn:E.
  - injection H as <- <-. by apply (Hm w (Ok a) w1).
  - rewrite (Hh e w1 r w' H l c Hl). by apply (Hm w (Throw e) w1).
Qed.

Lemma Frame_ensureDirOf target p : Frame target (ensureDirOf p).
Proof.
  intros w r w' H l c _. destruct (ensureDirOf_spec p w) as (r0 & w0 & E & _ & Hf).
  rewrite E in H. injection H as <- <-. apply Hf.
Qed.

Lemma Frame_pathExists target p : Frame target (pathExists p).
Proof. intros w r w' H l c _. rewrite run_pathExists in H. by injection H as <- <-. Qed.

Lemma Frame_readFile target p : Frame target (readFile p).
Proof. intros w r w' H l c _. rewrite run_readFile in H. by injection H as <- <-. Qed.

Lemma run_writeFile p content w :
  writeFile p content w =
  if endsWithSlash p || isDir w (location p) || negb (isDir w (removelast (location p)))
  then (Throw FsError,
        {| entries := entries w; trace := trace w ++ [WriteFile (location p) content] |})
  else (Ok tt,
        {| entries := <[location p := File (toWellFormed content)]> (entries w);
           trace := trace w ++ [WriteFile (location p) content] |}).
Proof.
  unfold writeFile, record, perform. rewrite run_bind. unfold isDir. simpl.
  by destruct (_ || _).
Qed.

Lemma run_unlink p w :
  unlink p w =
  if negb (endsWithSlash p) && isFile w (location p)
  then (Ok tt, {| entries := delete (location p) (entries w);
                  trace := trace w ++ [Unlink (location p)] |})
  else (Throw FsError,
        {| entries := entries w; trace := trace w ++ [Unlink (location p)] |}).
Proof.
  unfold unlink, record, perform. rewrite run_bind. unfold isFile. simpl.
  destruct (endsWithSlash p); [done|].
  by destruct (entries w !! location p) as [[c|]|].
Qed.

Lemma Frame_writeFile p content : Frame (location p) (writeFile p content).
Proof.
  intros w r w' H l c Hl. rewrite run_writeFile in H.
  destruct (_ || _); injection H as <- <-; [done|]. simpl.
  by rewrite lookup_insert_ne.
Qed.

Lemma Frame_unlink p : Frame (location p) (unlink p).
Proof.
  intros w r w' H l c Hl. rewrite run_unlink in H.
  destruct (_ && _); injection H as <- <-; [|done]. simpl.
  by rewrite lookup_delete_ne.
Qed.

Section Project.
Context (projectDir relativePath fullPath : str).
Hypothesis Hres : resolveProjectPath projectDir relativePath = Ok fullPath.

Lemma Frame_resolved {A} (f : str -> M A) :
  Frame (location fullPath) (f fullPath) ->
  Frame (location fullPath) (lift (resolveProjectPath projectDir relativePath) ≫= f).
Proof.
  intros Hf w r w' H. rewrite run_bind, run_lift, Hres in H. by apply (Hf w r w').
Qed.

Lemma Frame_fileExistsInProject :
  Frame (location fullPath) (fileExistsInProject projectDir relativePath).
Proof. apply Frame_resolved, Frame_pathExists. Qed.

Lemma Frame_readProjectFileAsync :
  Frame (location fullPath) (readProjectFileAsync projectDir relativePath).
Proof. apply Frame_resolved, Frame_readFile. Qed.

Lemma Frame_writeProjectFileAsync content :
  Frame (location fullPath) (writeProjectFileAsync projectDir relativePath content).
Proof.
  apply Frame_resolved, Frame_bind; [apply Frame_ensureDirOf|].
  intros _. apply Frame_writeFile.
Qed.

Lemma Frame_deleteProjectFileAsync :
  Frame (location fullPath) (deleteProjectFileAsync projectDir relativePath).
Proof.
  apply Frame_resolved, Frame_bind; [apply Frame_pathExists|].
  intros [|]; [apply Frame_unlink|apply Frame_ret].
Qed.

End Project.

Lemma Frame_applyFileChange projectDir action filePath content fullPath :
  resolveProjectPath projectDir (cleanFilePath filePath) = Ok fullPath ->
  Frame (location fullPath) (applyFileChange projectDir action filePath content).
Proof.
  intros Hres. unfold applyFileChange. apply (Frame_resolved _ _ _ Hres).
  destruct action.
  - apply Frame_bind; [apply Frame_ensureDirOf|]. intros _.
    by apply Frame_writeProjectFileAsync.
  - apply Frame_bind; [apply Frame_ensureDirOf|]. intros _.
    apply Frame_bind.
    + apply Frame_try_catch; [|intros _; apply Frame_ret].
      apply Frame_bind; [by apply Frame_fileExistsInProject|].
      intros [|]; [by apply Frame_readProjectFileAsync|apply Frame_ret].
    + intros old. destruct (negb _); [apply Frame_ret|].
      by apply Frame_writeProjectFileAsync.
  - apply Frame_bind; [by apply Frame_fileExistsInProject|].
    intros [|]; [by apply Frame_deleteProjectFileAsync|apply Frame_ret].
  - apply Frame_ret.
  - apply Frame_ret.
Qed.

End Frames.

Section FileChanges.

(** X11. A file change touches one file only.  Whatever the action and
    whether it returns or throws, every file at a location other than
    the one the path resolves to is afterwards what it was before; for
    a path that is not absolute that location lies inside the project
    directory, so no file outside the project directory is created,
    changed or removed. *)
Theorem file_change_touches_only_its_target
    (projectDir filePath content fullPath : str) (action : ActionType) (w : World) :
  resolveProjectPath projectDir (cleanFilePath filePath) = Ok fullPath ->
  (forall l c, l <> location fullPath ->
     entries (applyFileChange projectDir action filePath content w).2 !! l = Some (File c)
     <-> entries w !! l = Some (File c))
  /\ (isAbsolute (cleanFilePath filePath) = false ->
      forall l c, ~ location projectDir `prefix_of` l ->
        entries (applyFileChange projectDir action filePath content w).2 !! l = Some (File c)
        <-> entries w !! l = Some (File c)).
Proof.
  intros Hres.
  pose proof (Frame_applyFileChange projectDir action filePath content fullPath Hres w) as HF.
  destruct (applyFileChange projectDir action filePath content w) as [r w'] eqn:E.
  specialize (HF r w' eq_refl). split; [done|].
  intros Hrel l c Hout. apply HF. intros ->. apply Hout.
  by destruct (relative_path_stays_inside _ _ _ Hrel Hres) as [_ Hin].
Qed.

Lemma file_change_touches_only_its_target_witness :
  entries (applyFileChange (lit "/p1") CREATE (lit "src/b.txt") (lit "bye") smallProject).2
    !! [lit "p1"; lit "a.txt"] = Some (File (lit "hello")).
Proof.
  pose proof (file_change_touches_only_its_target (lit "/p1") (lit "src/b.txt") (lit "bye")
                (lit "/p1/src/b.txt") CREATE smallProject) as H.
  destruct H as [H _]; [by vm_compute|].
  apply H; [by vm_compute|by vm_compute].
Defined.

(** *** CREATE *)
























(** *** EDIT *)






(** *** DELETE *)



(** *** The cleaning of paths *)

Lemma isPathStart_not_white c : isPathStart c = true -> isWhiteSpace c = false.
Proof.
  unfold isPathStart, isWhiteSpace. intros H.
  rewrite !orb_true_iff, !andb_true_iff, !N.leb_le, !N.eqb_eq in H.
  rewrite !orb_false_iff, !andb_false_iff, !N.leb_gt, !N.eqb_neq. lia.
Qed.

Lemma dropWhile_nil_Forall (f : char -> bool) (s : str) :
  dropWhile f s = [] -> Forall (fun c => f c = true) s.
Proof.
  induction s as [|c s IH]; simpl; [done|]. destruct (f c) eqn:E; [|done].
  intros H. constructor; auto.
Qed.

Lemma trim_keeps_head c s :
  isWhiteSpace c = false -> exists r, trim (c :: s) = c :: r.
Proof.
  intros Hc. unfold trim, trimStart. simpl. rewrite Hc.
  destruct (trimEnd_prefix (c :: s)) as [w E].
  destruct (trimEnd (c :: s)) as [|d r] eqn:Et.
  - unfold trimEnd in Et. apply (f_equal reverse) in Et.
    rewrite reverse_involutive in Et. simpl in Et.
    apply dropWhile_nil_Forall, Forall_reverse in Et. rewrite reverse_involutive in Et.
    apply Forall_cons in Et as [Et _]. congruence.
  - simpl in E. injection E as E1 E2. subst d. by exists r.
Qed.

Lemma cleanFilePath_head p c r : cleanFilePath p = c :: r -> isPathStart c = true.
Proof.
  unfold cleanFilePath.
  destruct (dropWhile (fun c => negb (isPathStart c)) p) as [|d s] eqn:E; [done|].
  apply dropWhile_head in E. apply negb_false_iff in E.
  destruct (trim_keeps_head d s (isPathStart_not_white _ E)) as [r' ->].
  intros H. injection H as H1 H2. by subst.
Qed.

(** X15. Cleaning a path is idempotent: a cleaned path is empty or
    starts with a letter, a digit or one of [/ . _ -], has no white
    space at either end and is left as it is by a second cleaning; so a
    file change asked for with an already cleaned path is the change
    asked for with the path as given. *)
Theorem cleaned_path_is_stable (projectDir filePath content : str) (action : ActionType) :
  cleanFilePath (cleanFilePath filePath) = cleanFilePath filePath
  /\ trim (cleanFilePath filePath) = cleanFilePath filePath
  /\ (forall c r, cleanFilePath filePath = c :: r -> isPathStart c = true)
  /\ applyFileChange projectDir action (cleanFilePath filePath) content
     = applyFileChange projectDir action filePath content.
Proof.
  assert (cleanFilePath (cleanFilePath filePath) = cleanFilePath filePath) as Hidem.
  { destruct (cleanFilePath filePath) as [|c r] eqn:E; [done|].
    pose proof (cleanFilePath_head _ _ _ E) as Hc. rewrite <- E.
    unfold cleanFilePath at 1. rewrite E. simpl. rewrite Hc. simpl. rewrite <- E.
    unfold cleanFilePath. apply trim_trim. }
  split_and!; [done|apply trim_trim|apply cleanFilePath_head|].
  unfold applyFileChange. by rewrite Hidem.
Qed.

End FileChanges.

(** ** More on the generation supervisor *)

Section SupervisorConversation.
Import Supervisor.







End SupervisorConversation.

(** ** The sequential executor *)

Section SequentialRuns.
Import OperationParser Sequential.

Context (execa : Execa) (projectDir : str).

(** The operations of the [else] branch of the loop: every type other
    than COMMAND and TEXT. *)
Definition isFileOperation (a : Operation) : bool :=
  negb (bool_decide (o_type a = lit "COMMAND")) && negb (bool_decide (o_type a = lit "TEXT")).

(** The file operations that are recorded: those with a path. *)
Definition recorded (type : str) (a : Operation) : bool :=
  bool_decide (o_type a = type) && negb (bool_decide (o_path a = [])).

Definition recordedPaths (type : str) (operations : list Operation) : list str :=
  o_path <$> filter (fun a => recorded type a = true) operations.

Definition modifiedPaths (operations : list Operation) : list str :=
  o_path <$> filter (fun a => isFileOperation a && negb (bool_decide (o_path a = [])) = true)
               operations.

Ltac literals_differ :=
  match goal with
  | H : lit _ = lit _ |- _ => by vm_compute in H
  | H : lit _ <> lit _ |- _ => by destruct H
  end.

Lemma executeLoop_app ops1 ops2 modifiedFiles trackers w :
  executeLoop execa projectDir (ops1 ++ ops2) modifiedFiles trackers w
  = match executeLoop execa projectDir ops1 modifiedFiles trackers w with
    | (Ok modifiedFiles', trackers', w') =>
        executeLoop execa projectDir ops2 modifiedFiles' trackers' w'
    | (Throw e, trackers', w') => (Throw e, trackers', w')
    end.
Proof.
  revert modifiedFiles trackers w.
  induction ops1 as [|op ops1 IH]; intros modifiedFiles trackers w; [done|].
  cbn [app executeLoop].
  destruct (bool_decide (o_type op = lit "COMMAND")).
  { destruct (executeCommand _ _ _ _ w) as [commandResult w']. apply IH. }
  destruct (bool_decide (o_type op = lit "TEXT")); [apply IH|].
  destruct (applyFileChangeOfType _ _ _ _ w) as [[[]|e] w']; [|done].
  destruct (negb _); apply IH.
Qed.

Lemma executeLoop_throws operations : forall modifiedFiles trackers w e trackers' w',
  executeLoop execa projectDir operations modifiedFiles trackers w = (Throw e, trackers', w') ->
  exists before operation after modifiedFiles1 w1,
    operations = before ++ operation :: after
    /\ isFileOperation operation = true
    /\ executeLoop execa projectDir before modifiedFiles trackers w
       = (Ok modifiedFiles1, trackers', w1)
    /\ applyFileChangeOfType projectDir (o_type operation) (o_path operation)
         (o_content operation) w1 = (Throw e, w').
Proof.
  induction operations as [|op operations IH]; intros modifiedFiles trackers w e trackers' w' H;
    [done|].
  assert (forall modifiedFiles2 trackers2 w2,
    executeLoop execa projectDir [op] modifiedFiles trackers w
      = (Ok modifiedFiles2, trackers2, w2) ->
    executeLoop execa projectDir operations modifiedFiles2 trackers2 w2
      = (Throw e, trackers', w') ->
    exists before operation after modifiedFiles1 w1,
      op :: operations = before ++ operation :: after
      /\ isFileOperation operation = true
      /\ executeLoop execa projectDir before modifiedFiles trackers w
         = (Ok modifiedFiles1, trackers', w1)
      /\ applyFileChangeOfType projectDir (o_type operation) (o_path operation)
           (o_content operation) w1 = (Throw e, w')) as Later.
  { intros modifiedFiles2 trackers2 w2 Hone Hrest.
    destruct (IH _ _ _ _ _ _ Hrest) as (before & operation & after & mf1 & w1 & -> & Hf & Hb & Ha).
    exists (op :: before), operation, after, mf1, w1. split_and!; try done.
    change (op :: before) with ([op] ++ before). by rewrite executeLoop_app, Hone. }
  change (op :: operations) with ([op] ++ operations) in H.
  rewrite executeLoop_app in H.
  destruct (executeLoop execa projectDir [op] modifiedFiles trackers w)
    as [[[modifiedFiles2|e2] trackers2] w2] eqn:Hone; [by eapply Later|].
  injection H as -> -> ->.
  exists [], op, operations, modifiedFiles, w.
  cbn [executeLoop] in Hone. unfold isFileOperation.
  destruct (bool_decide (o_type op = lit "COMMAND")).
  { by destruct (executeCommand _ _ _ _ w). }
  destruct (bool_decide (o_type op = lit "TEXT")); [done|].
  destruct (applyFileChangeOfType _ _ _ _ w) as [[[]|e3] w3] eqn:Ha;
    [by destruct (negb _)|].
  injection Hone as -> -> ->. by split_and!.
Qed.

Lemma executeLoop_plain operations : forall modifiedFiles trackers w,
  Forall (fun a => isFileOperation a = false) operations ->
  (executeLoop execa projectDir operations modifiedFiles trackers w).1.1 = Ok modifiedFiles.
Proof.
  induction operations as [|op operations IH]; intros modifiedFiles trackers w H; [done|].
  apply Forall_cons in H as [Hop H]. cbn [executeLoop]. unfold isFileOperation in Hop.
  destruct (bool_decide (o_type op = lit "COMMAND")).
  { destruct (executeCommand _ _ _ _ w) as [commandResult w']. by apply IH. }
  destruct (bool_decide (o_type op = lit "TEXT")); [by apply IH|done].
Qed.

(** The [default] branch of [applyFileChange]: the path is cleaned and
    resolved, nothing else is done. *)
Lemma applyFileChangeOfType_default type filePath content w :
  type <> lit "CREATE" -> type <> lit "EDIT" -> type <> lit "DELETE" ->
  applyFileChangeOfType projectDir type filePath content w
  = (match resolveProjectPath projectDir (cleanFilePath filePath) with
     | Ok _ => Ok tt
     | Throw e => Throw e
     end, w).
Proof.
  intros Hc He Hd. unfold applyFileChangeOfType.
  rewrite !bool_decide_eq_false_2 by done.
  unfold applyFileChange. rewrite run_bind, run_lift.
  by destruct (resolveProjectPath _ _).
Qed.

(** X17. The operations are executed in order and the run stops at the
    first file operation that throws, where every operation of a type
    other than COMMAND and TEXT is a file operation: a run over
    [ops1 ++ ops2] is the run over [ops1] followed, when it returns, by
    the run over [ops2] from the set, the trackers and the file system
    it left; a run that throws has executed the operations before a
    file operation whose [applyFileChange] threw, rethrows its error
    and leaves the trackers as they were before that operation; for a
    type other than CREATE, EDIT and DELETE that call does nothing to
    the files and throws exactly when the resolver rejects the path; a
    run of COMMAND and TEXT operations alone never throws. *)
Theorem run_stops_at_the_first_failing_file_change
    (operations : list Operation) (trackers : OperationTrackers) (w : World) :
  (forall ops1 ops2, operations = ops1 ++ ops2 ->
     executeOperationsSequentially execa projectDir operations trackers w
     = match executeOperationsSequentially execa projectDir ops1 trackers w with
       | (Ok modifiedFiles', trackers', w') =>
           executeLoop execa projectDir ops2 modifiedFiles' trackers' w'
       | (Throw e, trackers', w') => (Throw e, trackers', w')
       end)
  /\ (forall e trackers' w',
        executeOperationsSequentially execa projectDir operations trackers w
        = (Throw e, trackers', w') ->
        exists before operation after modifiedFiles1 w1,
          operations = before ++ operation :: after
          /\ isFileOperation operation = true
          /\ executeOperationsSequentially execa projectDir before trackers w
             = (Ok modifiedFiles1, trackers', w1)
          /\ applyFileChangeOfType projectDir (o_type operation) (o_path operation)
               (o_content operation) w1 = (Throw e, w'))
  /\ (forall type filePath content w1,
        type <> lit "CREATE" -> type <> lit "EDIT" -> type <> lit "DELETE" ->
        applyFileChangeOfType projectDir type filePath content w1
        = (match resolveProjectPath projectDir (cleanFilePath filePath) with
           | Ok _ => Ok tt
           | Throw e => Throw e
           end, w1))
  /\ (Forall (fun a => isFileOperation a = false) operations ->
      (executeOperationsSequentially execa projectDir operations trackers w).1.1 = Ok []).
Proof.
  split_and!.
  - intros ops1 ops2 ->. apply executeLoop_app.
  - intros e trackers' w'. apply executeLoop_throws.
  - intros type filePath content w1. apply applyFileChangeOfType_default.
  - apply executeLoop_plain.
Qed.

Lemma setAdd_elem x s p : p ∈ setAdd x s <-> p = x \/ p ∈ s.
Proof.
  unfold setAdd. case_bool_decide as Hin.
  - split; [by right|]. by intros [->|].
  - rewrite elem_of_app, list_elem_of_singleton. tauto.
Qed.

Lemma setAdd_NoDup x s : NoDup s -> NoDup (setAdd x s).
Proof.
  intros Hs. unfold setAdd. case_bool_decide as Hin; [done|].
  apply NoDup_app. split_and!; [done| |apply NoDup_singleton].
  intros y Hy ->%list_elem_of_singleton. done.
Qed.

Lemma trackPath_fields type path trackers :
  created (trackPath type path trackers)
    = created trackers ++ (if bool_decide (type = lit "CREATE") then [path] else [])
  /\ edited (trackPath type path trackers)
    = edited trackers ++ (if bool_decide (type = lit "EDIT") then [path] else [])
  /\ deleted (trackPath type path trackers)
    = deleted trackers ++ (if bool_decide (type = lit "DELETE") then [path] else [])
  /\ commands (trackPath type path trackers) = commands trackers
  /\ texts (trackPath type path trackers) = texts trackers.
Proof.
  unfold trackPath. repeat case_bool_decide; subst; try literals_differ;
    cbn [created edited deleted commands texts]; by rewrite ?app_nil_r.
Qed.

Lemma recordedPaths_cons type op operations :
  recordedPaths type (op :: operations)
  = (if recorded type op then [o_path op] else []) ++ recordedPaths type operations.
Proof.
  unfold recordedPaths. rewrite filter_cons.
  destruct (recorded type op); by destruct (decide _).
Qed.

Lemma modifiedPaths_cons op operations :
  modifiedPaths (op :: operations)
  = (if isFileOperation op && negb (bool_decide (o_path op = [])) then [o_path op] else [])
    ++ modifiedPaths operations.
Proof.
  unfold modifiedPaths. rewrite filter_cons.
  destruct (isFileOperation op && _); by destruct (decide _).
Qed.

Definition textPreviews (operations : list Operation) : list str :=
  (fun a => preview (o_content a)) <$> filter (fun a => o_type a = lit "TEXT") operations.

Definition commandCount (operations : list Operation) : nat :=
  length (filter (fun a => o_type a = lit "COMMAND") operations).

Lemma textPreviews_cons op operations :
  textPreviews (op :: operations)
  = (if bool_decide (o_type op = lit "TEXT") then [preview (o_content op)] else [])
    ++ textPreviews operations.
Proof.
  unfold textPreviews. rewrite filter_cons.
  case_bool_decide; by destruct (decide _).
Qed.

Lemma commandCount_cons op operations :
  commandCount (op :: operations)
  = (if bool_decide (o_type op = lit "COMMAND") then 1 else 0) + commandCount operations.
Proof.
  unfold commandCount. rewrite filter_cons.
  case_bool_decide; by destruct (decide _).
Qed.

Lemma executeLoop_summary operations : forall modifiedFiles trackers w modifiedFiles' trackers' w',
  executeLoop execa projectDir operations modifiedFiles trackers w
    = (Ok modifiedFiles', trackers', w') ->
  modifiedFiles' = foldl (fun s p => setAdd p s) modifiedFiles (modifiedPaths operations)
  /\ created trackers' = created trackers ++ recordedPaths (lit "CREATE") operations
  /\ edited trackers' = edited trackers ++ recordedPaths (lit "EDIT") operations
  /\ deleted trackers' = deleted trackers ++ recordedPaths (lit "DELETE") operations
  /\ texts trackers' = texts trackers ++ textPreviews operations
  /\ length (commands trackers') = length (commands trackers) + commandCount operations.
Proof.
  induction operations as [|op operations IH];
    intros modifiedFiles trackers w modifiedFiles' trackers' w' H.
  { injection H as -> -> ->. unfold recordedPaths, textPreviews, commandCount. simpl.
    rewrite !app_nil_r. split_and!; try done; lia. }
  cbn [executeLoop] in H.
  rewrite !recordedPaths_cons, modifiedPaths_cons, textPreviews_cons, commandCount_cons.
  unfold recorded, isFileOperation.
  destruct op as [type path content]. cbn [o_type o_path o_content] in *.
  destruct (bool_decide (type = lit "COMMAND")) eqn:Ec.
  { apply bool_decide_eq_true in Ec as ->.
    destruct (executeCommand _ _ _ _ w) as [commandResult w1].
    apply IH in H as (-> & Hc & He & Hd & Ht & Hn).
    cbn [created edited deleted commands texts] in *.
    rewrite length_app in Hn. cbn [length] in Hn.
    rewrite !(bool_decide_eq_false_2 (lit "COMMAND" = _)) by (by vm_compute).
    cbn [negb andb app]. split_and!; try done; lia. }
  destruct (bool_decide (type = lit "TEXT")) eqn:Et.
  { apply bool_decide_eq_true in Et as ->.
    apply IH in H as (-> & Hc & He & Hd & Ht & Hn).
    cbn [created edited deleted commands texts] in *.
    rewrite !(bool_decide_eq_false_2 (lit "TEXT" = _)) by (by vm_compute).
    cbn [negb andb app]. rewrite <- app_assoc in Ht. split_and!; try done; lia. }
  destruct (applyFileChangeOfType _ _ _ _ w) as [[[]|e3] w3] eqn:Ha; [|done].
  cbn [negb andb app]. rewrite Nat.add_0_l.
  destruct (bool_decide (path = [])) eqn:Ep; cbn [negb] in H |- *;
    apply IH in H as (-> & Hc & He & Hd & Ht & Hn).
  - rewrite !andb_false_r. cbn [app]. by split_and!.
  - destruct (trackPath_fields type path trackers) as (Fc & Fe & Fd & Fm & Ft).
    rewrite Fc in Hc. rewrite Fe in He. rewrite Fd in Hd. rewrite Fm in Hn. rewrite Ft in Ht.
    rewrite !andb_true_r. rewrite <- app_assoc in Hc, He, Hd.
    by split_and!.
Qed.

Lemma foldl_setAdd_elem paths : forall s p,
  p ∈ foldl (fun s p => setAdd p s) s paths <-> p ∈ s \/ p ∈ paths.
Proof.
  induction paths as [|x paths IH]; intros s p; simpl.
  - rewrite elem_of_nil. tauto.
  - rewrite IH, setAdd_elem, elem_of_cons. tauto.
Qed.

Lemma foldl_setAdd_NoDup paths : forall s,
  NoDup s -> NoDup (foldl (fun s p => setAdd p s) s paths).
Proof.
  induction paths as [|x paths IH]; intros s Hs; simpl; [done|].
  by apply IH, setAdd_NoDup.
Qed.

(** A project, operations on it and the run over them; the type of the
    last operation is none of the five. *)
Definition sampleOperations : list Operation :=
  [ {| o_type := lit "TEXT"; o_path := []; o_content := lit "Adding a page" |};
    {| o_type := lit "CREATE"; o_path := lit "src/page.tsx"; o_content := lit "export {}" |};
    {| o_type := lit "COMMAND"; o_path := []; o_content := lit "npm i" |};
    {| o_type := lit "EDIT"; o_path := lit "src/page.tsx";
       o_content := lit "export default 1" |};
    {| o_type := lit "DELETE"; o_path := lit "a.txt"; o_content := [] |};
    {| o_type := lit "WEIRD TYPE"; o_path := lit "w.txt"; o_content := [] |} ].

Definition noTrackers : OperationTrackers :=
  {| created := []; edited := []; deleted := []; commands := []; texts := [] |}.

End SequentialRuns.

Section SequentialSummary.
Import OperationParser Sequential.

(** X18. What a run that returns reports: the set of modified files
    holds, once each and in the order of their first operation, the
    paths of the operations of a type other than COMMAND and TEXT that
    have a path (also those of a type that is none of CREATE, EDIT and
    DELETE); the trackers have received, in order, the paths of the
    CREATE, EDIT and DELETE operations that have a path by type and the
    previews of the TEXT operations, and one entry per COMMAND
    operation, whether the command succeeded or failed. *)
Theorem run_reports_its_operations (execa : Execa) (projectDir : str)
    (operations : list Operation) (trackers trackers' : OperationTrackers) (w w' : World)
    (modifiedFiles : list str) :
  executeOperationsSequentially execa projectDir operations trackers w
    = (Ok modifiedFiles, trackers', w') ->
  NoDup modifiedFiles
  /\ modifiedFiles = foldl (fun s p => setAdd p s) [] (modifiedPaths operations)
  /\ (forall p, p ∈ modifiedFiles <->
        exists a, a ∈ operations /\ o_type a <> lit "COMMAND" /\ o_type a <> lit "TEXT"
                  /\ o_path a = p /\ p <> [])
  /\ created trackers' = created trackers ++ recordedPaths (lit "CREATE") operations
  /\ edited trackers' = edited trackers ++ recordedPaths (lit "EDIT") operations
  /\ deleted trackers' = deleted trackers ++ recordedPaths (lit "DELETE") operations
  /\ texts trackers' = texts trackers ++ textPreviews operations
  /\ length (commands trackers') = length (commands trackers) + commandCount operations.
Proof.
  intros H. apply executeLoop_summary in H as (-> & Hc & He & Hd & Ht & Hn).
  split_and!; try done.
  - apply foldl_setAdd_NoDup, NoDup_nil_2.
  - intros p. rewrite foldl_setAdd_elem, elem_of_nil. unfold modifiedPaths.
    rewrite list_elem_of_fmap. split.
    + intros [[]|(a & -> & Ha)]. apply list_elem_of_filter in Ha as [Hf Ha].
      apply andb_true_iff in Hf as [Hf Hp]. apply negb_true_iff, bool_decide_eq_false in Hp.
      unfold isFileOperation in Hf. apply andb_true_iff in Hf as [H1 H2].
      apply negb_true_iff, bool_decide_eq_false in H1, H2.
      by exists a.
    + intros (a & Ha & H1 & H2 & <- & Hp). right. exists a. split; [done|].
      apply list_elem_of_filter. split; [|done].
      unfold isFileOperation. rewrite !bool_decide_eq_false_2 by done. done.
Qed.

Lemma run_reports_its_operations_witness :
  exists modifiedFiles trackers' w',
    executeOperationsSequentially echoExeca (lit "/p1") sampleOperations noTrackers smallProject
      = (Ok modifiedFiles, trackers', w')
    /\ modifiedFiles = [lit "src/page.tsx"; lit "a.txt"; lit "w.txt"]
    /\ created trackers' = [lit "src/page.tsx"]
    /\ deleted trackers' = [lit "a.txt"]
    /\ length (commands trackers') = 1.
Proof.
  destruct (executeOperationsSequentially echoExeca (lit "/p1") sampleOperations noTrackers
              smallProject) as [[[modifiedFiles|e] trackers'] w'] eqn:E;
    [|by vm_compute in E].
  exists modifiedFiles, trackers', w'. split; [done|].
  pose proof (run_reports_its_operations _ _ _ _ _ _ _ _ E)
    as (_ & Hm & _ & Hc & _ & Hd & _ & Hn).
  split_and!; [by rewrite Hm|by rewrite Hc|by rewrite Hd|by rewrite Hn].
Defined.

End SequentialSummary.

(** ** The batch parser *)

Section BatchScanner.
Import OperationParser.

#[local] Arguments stripPrefix : simpl never.
#[local] Arguments openLit : simpl never.
#[local] Arguments pathLit : simpl never.
#[local] Arguments closingTag : simpl never.

Lemma search_occurs needle (a b : str) : is_Some (search needle (a ++ needle ++ b)).
Proof.
  induction a as [|c a IH].
  - rewrite search_unfold, app_nil_l, startsWith_true. eauto.
  - change ((c :: a) ++ needle ++ b) with (c :: a ++ needle ++ b). rewrite search_cons.
    destruct (startsWith needle _); [eauto|]. destruct IH as [k ->]. simpl. eauto.
Qed.

Lemma search_None_inside needle (a s b : str) :
  search needle (a ++ s ++ b) = None -> search needle s = None.
Proof.
  intros H. destruct (search needle s) as [k|] eqn:E; [|done].
  apply search_Some in E as (x & y & -> & _).
  pose proof (search_occurs needle (a ++ x) (y ++ b)) as [j Hj].
  rewrite <- !app_assoc in *. congruence.
Qed.

Lemma search_before needle s k :
  needle <> [] -> search needle s = Some k -> search needle (take k s) = None.
Proof.
  intros Hne H. destruct (search needle (take k s)) as [j|] eqn:E; [|done].
  pose proof (search_bound _ _ _ E) as Hb. rewrite length_take in Hb.
  apply (search_app _ _ (drop k s)) in E. rewrite take_drop in E.
  assert (j = k) as -> by congruence. destruct needle; [done|]. simpl in Hb. lia.
Qed.

Lemma trim_inside (s : str) : exists a b, s = a ++ trim s ++ b.
Proof.
  unfold trim, trimStart. destruct (dropWhile_suffix isWhiteSpace s) as [a Ha].
  destruct (trimEnd_prefix (dropWhile isWhiteSpace s)) as [b Hb].
  exists a, b. by rewrite <- Hb.
Qed.

Lemma search_trim needle s : search needle s = None -> search needle (trim s) = None.
Proof.
  intros H. destruct (trim_inside s) as (a & b & E). rewrite E in H.
  by apply search_None_inside in H.
Qed.

(** The path attribute of the batch pattern. *)
Lemma matchPathAttribute_at ws1 path after :
  attrOk (Some path) ws1 ->
  matchPathAttribute (ws1 ++ pathLit ++ path ++ dq :: gt :: after) = Some (path, after).
Proof.
  intros (Hne & Hws1 & Hpne & Hq). unfold matchPathAttribute. fold pathLit.
  change (ws1 ++ pathLit ++ path ++ dq :: gt :: after)
    with (ws1 ++ 112%N :: (lit "ath=" ++ [dq]) ++ path ++ dq :: gt :: after).
  destruct (takeWhile_app_stop isWhiteSpace ws1 112%N
              ((lit "ath=" ++ [dq]) ++ path ++ dq :: gt :: after) Hws1 eq_refl)
    as [Ht Hd]. rewrite Ht, Hd. clear Ht Hd.
  destruct ws1 as [|w ws1]; [done|].
  change (112%N :: (lit "ath=" ++ [dq]) ++ path ++ dq :: gt :: after)
    with (pathLit ++ path ++ dq :: gt :: after).
  rewrite stripPrefix_app. simpl.
  apply notQuote_Forall in Hq.
  destruct (takeWhile_app_stop isNotQuote path dq (gt :: after) Hq eq_refl) as [Ht Hd].
  rewrite Ht, Hd. clear Ht Hd.
  by destruct path as [|p0 p].
Qed.

Lemma matchPathAttribute_Some s path after :
  matchPathAttribute s = Some (path, after) ->
  path <> [] /\ (dq ∉ path) /\ length after < length s
  /\ exists w ws1, s = w :: ws1 /\ isWhiteSpace w = true.
Proof.
  unfold matchPathAttribute. fold pathLit.
  pose proof (takeWhile_dropWhile isWhiteSpace s) as Hs.
  pose proof (takeWhile_Forall isWhiteSpace s) as Hws1.
  destruct (takeWhile isWhiteSpace s) as [|w ws1] eqn:E1; [done|].
  destruct (stripPrefix pathLit (dropWhile isWhiteSpace s)) as [rest|] eqn:E2; [|done].
  simpl. apply stripPrefix_Some in E2.
  pose proof (takeWhile_dropWhile isNotQuote rest) as Hr.
  pose proof (takeWhile_Forall isNotQuote rest) as Hp.
  destruct (takeWhile isNotQuote rest) as [|p0 p] eqn:E3; [done|].
  destruct (stripPrefix [dq] (dropWhile isNotQuote rest)) as [rest'|] eqn:E4; [|done].
  simpl. apply stripPrefix_Some in E4.
  destruct (stripPrefix [gt] rest') as [rest''|] eqn:E5; [|done]. simpl.
  apply stripPrefix_Some in E5. intros [= <- <-].
  split_and!; [done|by apply notQuote_Forall| |].
  - rewrite Hs, E2, Hr, E4, E5. rewrite !length_app. simpl. lia.
  - apply Forall_cons in Hws1 as [Hw _]. rewrite Hs. simpl. eauto.
Qed.

Lemma matchOperationAt_at type p ws1 content rest :
  type <> [] -> (dq ∉ type) -> attrOk p ws1 -> search closingTag content = None ->
  matchOperationAt (openLit ++ type ++ [dq] ++ attrText p ws1 ++ [gt]
                    ++ content ++ closingTag ++ rest)
  = Some {| om_1 := type; om_2 := p; om_3 := content; om_after := rest |}.
Proof.
  intros Hne Hq Hok Hclose. unfold matchOperationAt. fold openLit.
  rewrite stripPrefix_app. cbv beta iota delta [mbind option_bind].
  apply notQuote_Forall in Hq.
  change (type ++ [dq] ++ ?r) with (type ++ dq :: r).
  change ([gt] ++ ?r) with (gt :: r).
  destruct (takeWhile_app_stop isNotQuote type dq
              (attrText p ws1 ++ gt :: content ++ closingTag ++ rest) Hq eq_refl) as [Ht Hd].
  rewrite Ht, Hd. clear Ht Hd.
  destruct type as [|t0 type]; [done|].
  change (stripPrefix [dq] (dq :: ?r)) with (Some r). cbv beta iota.
  assert (search closingTag (content ++ closingTag ++ rest) = Some (length content)) as Hsearch
    by (by apply search_closing).
  assert (substring (content ++ closingTag ++ rest) 0 (length content) = content
          /\ substringFrom (content ++ closingTag ++ rest) (length content + length closingTag)
             = rest) as [Hsub Hfrom].
  { unfold substring, substringFrom.
    rewrite Nat.max_r, Nat.min_l, drop_0, Nat.sub_0_r by lia.
    by rewrite take_app_length, drop_app_add, drop_app_length. }
  destruct p as [path|]; cbn [attrText] in *.
  - rewrite <- !app_assoc. change ([dq] ++ ?r) with (dq :: r).
    rewrite (matchPathAttribute_at _ _ _ Hok). cbv beta iota.
    by rewrite indexOf_search, Hsearch, Hsub, Hfrom.
  - rewrite app_nil_l.
    destruct (matchPathAttribute (gt :: content ++ closingTag ++ rest))
      as [[p' after]|] eqn:E.
    { apply matchPathAttribute_Some in E as (_ & _ & _ & w & ws & [= <- _] & Hw). done. }
    change (stripPrefix [gt] (gt :: ?r)) with (Some r). cbv beta iota.
    by rewrite indexOf_search, Hsearch, Hsub, Hfrom.
Qed.

Lemma matchOperationAt_Some s m :
  matchOperationAt s = Some m ->
  om_1 m <> [] /\ (dq ∉ om_1 m)
  /\ (forall p, om_2 m = Some p -> p <> [] /\ dq ∉ p)
  /\ search closingTag (om_3 m) = None
  /\ length (om_after m) < length s
  /\ exists r, s = lt :: r.
Proof.
  unfold matchOperationAt. fold openLit.
  destruct (stripPrefix openLit s) as [rest|] eqn:E1; [|done].
  apply stripPrefix_Some in E1. simpl.
  pose proof (takeWhile_dropWhile isNotQuote rest) as Hr.
  pose proof (takeWhile_Forall isNotQuote rest) as Hp.
  destruct (takeWhile isNotQuote rest) as [|t0 type] eqn:E2; [done|].
  destruct (stripPrefix [dq] (dropWhile isNotQuote rest)) as [rest2|] eqn:E3; [|done].
  apply stripPrefix_Some in E3. simpl.
  assert (forall path body,
    match matchPathAttribute rest2 with
    | Some (p', after) => Some (Some p', after)
    | None => after ← stripPrefix [gt] rest2; Some (None, after)
    end = Some (path, body) ->
    (forall p, path = Some p -> p <> [] /\ dq ∉ p) /\ length body < length rest2) as Hattr.
  { intros path body H.
    destruct (matchPathAttribute rest2) as [[p' after]|] eqn:E.
    - injection H as <- <-. apply matchPathAttribute_Some in E as (Hne & Hq & Hlen & _).
      split; [|done]. by intros p [= <-].
    - destruct (stripPrefix [gt] rest2) as [after|] eqn:E'; [|done].
      apply stripPrefix_Some in E'. injection H as <- <-. split; [done|].
      rewrite E'. simpl. lia. }
  destruct (match matchPathAttribute rest2 with
            | Some (p', after) => Some (Some p', after)
            | None => after ← stripPrefix [gt] rest2; Some (None, after)
            end) as [[path body]|] eqn:E4; [|done].
  destruct (Hattr path body eq_refl) as [Hpath Hbody]. simpl.
  rewrite indexOf_search.
  destruct (search closingTag body) as [closingIndex|] eqn:E5; [|done]. simpl.
  intros [= <-]. simpl.
  pose proof (search_bound _ _ _ E5) as Hb. rewrite closingTag_length in Hb.
  split_and!; try done.
  - by apply notQuote_Forall.
  - unfold substring. rewrite Nat.max_r, Nat.min_l, drop_0, Nat.sub_0_r by lia.
    apply search_before; [done|exact E5].
  - unfold substringFrom. rewrite length_drop, E1, Hr, E3, !length_app. simpl. lia.
  - rewrite E1, openLit_unfold. simpl. eauto.
Qed.

Lemma execOperation_unfold s :
  execOperation s
  = match matchOperationAt s with
    | Some m => Some m
    | None => match s with [] => None | _ :: s' => execOperation s' end
    end.
Proof. by destruct s. Qed.

Lemma execOperation_Some s m :
  execOperation s = Some m ->
  exists pre s', s = pre ++ s' /\ matchOperationAt s' = Some m.
Proof.
  induction s as [|c s IH]; rewrite execOperation_unfold.
  - destruct (matchOperationAt []) eqn:E; [|done]. intros [= ->]. by exists [], [].
  - destruct (matchOperationAt (c :: s)) eqn:E.
    + intros [= ->]. by exists [], (c :: s).
    + intros H. destruct (IH H) as (pre & s' & -> & Hm). by exists (c :: pre), s'.
Qed.

Lemma execOperation_skip (sep s : str) :
  lt ∉ sep -> execOperation (sep ++ s) = execOperation s.
Proof.
  induction sep as [|c sep IH]; intros Hs; [done|].
  apply not_elem_of_cons in Hs as [Hc Hs].
  change ((c :: sep) ++ s) with (c :: sep ++ s). rewrite execOperation_unfold.
  destruct (matchOperationAt (c :: sep ++ s)) as [m|] eqn:E; [|by apply IH].
  apply matchOperationAt_Some in E as (_ & _ & _ & _ & _ & r & [= -> _]). done.
Qed.

Lemma execOperation_none (s : str) : lt ∉ s -> execOperation s = None.
Proof.
  intros Hs. rewrite <- (app_nil_r s), execOperation_skip by done.
  rewrite execOperation_unfold. by destruct (matchOperationAt []) eqn:E.
Qed.

End BatchScanner.

Section BatchParser.
Import OperationParser.

Context (toUpperCase : str -> str).

#[local] Arguments closingTag : simpl never.

(** The [push] of the loop, skipped for a duplicate. *)
Definition pushOperation (operations : list Operation) (op : Operation) : list Operation :=
  if isDuplicate operations (o_type op) (o_path op) (o_content op) then operations
  else operations ++ [op].

(** Two operations the duplicate test takes for the same. *)
Definition sameKey (a b : Operation) : Prop :=
  o_type a = o_type b /\ o_path a = o_path b
  /\ substring (o_content a) 0 50 = substring (o_content b) 0 50.

Definition distinctKeys (operations : list Operation) : Prop :=
  forall i j a b, i < j -> operations !! i = Some a -> operations !! j = Some b ->
                  ~ sameKey a b.

(** What the pattern and the trimming make of an operation. *)
Definition cleanOperation (op : Operation) : Prop :=
  trim (o_content op) = o_content op
  /\ indexOf closingTag (o_content op) = None
  /\ (dq ∉ o_path op)
  /\ exists type, type <> [] /\ (dq ∉ type) /\ o_type op = toUpperCase type.

Lemma isDuplicate_spec operations type path content :
  isDuplicate operations type path content = true
  <-> exists a, a ∈ operations
        /\ sameKey a {| o_type := type; o_path := path; o_content := content |}.
Proof.
  unfold isDuplicate, sameKey. rewrite existsb_exists. simpl. split.
  - intros (a & Ha & Hk). exists a. rewrite !andb_true_iff, !bool_decide_eq_true in Hk.
    split; [by apply list_elem_of_In|tauto].
  - intros (a & Ha & Hk). exists a. rewrite !andb_true_iff, !bool_decide_eq_true.
    split; [by apply list_elem_of_In|tauto].
Qed.

Lemma pushOperation_distinct operations op :
  distinctKeys operations -> distinctKeys (pushOperation operations op).
Proof.
  intros Hd. unfold pushOperation.
  destruct (isDuplicate operations _ _ _) eqn:E; [done|].
  intros i j a b Hij Ha Hb Hk.
  destruct (decide (j < length operations)) as [Hj|Hj].
  - rewrite lookup_app_l in Ha, Hb by lia. by apply (Hd i j a b).
  - rewrite lookup_app_r in Hb by lia.
    destruct (j - length operations) as [|n] eqn:En; [|by destruct n].
    injection Hb as <-. rewrite lookup_app_l in Ha by lia.
    assert (isDuplicate operations (o_type op) (o_path op) (o_content op) = true)
      as Hdup; [|congruence].
    apply isDuplicate_spec. exists a. split; [by eapply list_elem_of_lookup_2|].
    by destruct op.
Qed.

Lemma pushOperation_clean operations op :
  Forall cleanOperation operations -> cleanOperation op ->
  Forall cleanOperation (pushOperation operations op).
Proof.
  intros Hall Hop. unfold pushOperation. destruct (isDuplicate _ _ _ _); [done|].
  apply Forall_app. split; [done|]. by apply Forall_singleton.
Qed.

(** The operation the loop builds from a match. *)
Definition operationOfMatch (m : OperationMatch) : Operation :=
  {| o_type := toUpperCase (om_1 m); o_path := default [] (om_2 m);
     o_content := trim (om_3 m) |}.

Lemma parseLoop_S fuel rest operations :
  parseLoop toUpperCase (S fuel) rest operations
  = match execOperation rest with
    | None => operations
    | Some m => parseLoop toUpperCase fuel (om_after m)
                  (pushOperation operations (operationOfMatch m))
    end.
Proof. done. Qed.

Lemma execOperation_clean s m :
  execOperation s = Some m ->
  cleanOperation (operationOfMatch m) /\ length (om_after m) < length s.
Proof.
  intros (pre & s' & -> & Hm)%execOperation_Some.
  apply matchOperationAt_Some in Hm as (Hne & Hq & Hpath & Hclose & Hlen & _).
  split; [|rewrite length_app; lia].
  unfold cleanOperation, operationOfMatch. simpl. split_and!.
  - apply trim_trim.
  - rewrite indexOf_search. by apply search_trim.
  - destruct (om_2 m) as [p|]; simpl; [by apply Hpath|apply not_elem_of_nil].
  - by exists (om_1 m).
Qed.

Lemma parseLoop_invariant fuel : forall rest operations,
  distinctKeys operations -> Forall cleanOperation operations ->
  distinctKeys (parseLoop toUpperCase fuel rest operations)
  /\ Forall cleanOperation (parseLoop toUpperCase fuel rest operations).
Proof.
  induction fuel as [|fuel IH]; intros rest operations Hd Hc; [done|].
  rewrite parseLoop_S. destruct (execOperation rest) as [m|] eqn:E; [|done].
  apply IH; [by apply pushOperation_distinct|].
  apply pushOperation_clean; [done|]. by apply execOperation_clean in E as [? _].
Qed.

(** The loop has ended before its fuel is used up. *)
Lemma parseLoop_fuel fuel : forall rest operations,
  length rest <= fuel ->
  parseLoop toUpperCase fuel rest operations
  = parseLoop toUpperCase (length rest) rest operations.
Proof.
  induction fuel as [fuel IH] using lt_wf_ind. intros rest operations Hlen.
  destruct fuel as [|fuel].
  { by replace (length rest) with 0 by lia. }
  rewrite parseLoop_S.
  destruct (length rest) as [|n] eqn:En.
  { destruct rest; [|done]. by rewrite execOperation_none by apply not_elem_of_nil. }
  rewrite parseLoop_S. destruct (execOperation rest) as [m|] eqn:E; [|done].
  apply execOperation_clean in E as [_ Hshort].
  rewrite (IH fuel) by lia. rewrite (IH n) by lia. done.
Qed.

(** X19. Whatever the response, the operations of the batch parser
    are pairwise distinct for its duplicate test (type, path and first
    fifty characters of the content), and each has a trimmed content
    without a closing tag, a path without a double quote and, as type,
    the upper case of a non-empty text without a double quote; the loop
    ends within one round per character of the response. *)
Theorem parsed_operations_are_distinct_and_clean (claudeResponse : str) :
  distinctKeys (parseTagBasedOperations toUpperCase claudeResponse)
  /\ Forall cleanOperation (parseTagBasedOperations toUpperCase claudeResponse)
  /\ (forall fuel, length claudeResponse <= fuel ->
        parseLoop toUpperCase fuel claudeResponse []
        = parseTagBasedOperations toUpperCase claudeResponse).
Proof.
  unfold parseTagBasedOperations.
  destruct (parseLoop_invariant (length claudeResponse) claudeResponse []) as [Hd Hc].
  { intros i j a b _ Ha. by rewrite lookup_nil in Ha. }
  { done. }
  split_and!; [done|done|]. intros fuel Hf. by apply parseLoop_fuel.
Qed.

(** *** A well-formed response *)

(** The operation the batch parser reads from an action of a response. *)
Definition operationOf (a : Action) : Operation :=
  {| o_type := toUpperCase (typeName (a_type a)); o_path := a_path a;
     o_content := trim (a_content a) |}.

Lemma typeName_plain t : typeName t <> [] /\ dq ∉ typeName t.
Proof.
  split; [by destruct t|]. apply (bool_decide_unpack _). by destruct t; vm_compute.
Qed.

Lemma execOperation_wire sep a rest :
  lt ∉ sep -> wellFormed a ->
  execOperation (sep ++ wire a ++ rest)
  = Some {| om_1 := typeName (a_type a);
            om_2 := match a_path a with [] => None | _ :: _ => Some (a_path a) end;
            om_3 := a_content a; om_after := rest |}.
Proof.
  intros Hsep (Hq & Hclose & _). rewrite execOperation_skip by done.
  apply indexOf_None_search in Hclose.
  destruct (typeName_plain (a_type a)) as [Hne Hdq].
  assert (forall p ws1, startTag (a_type a) (a_path a) = tagText (a_type a) p ws1 [] ->
            attrOk p ws1 ->
            execOperation (wire a ++ rest)
            = Some {| om_1 := typeName (a_type a); om_2 := p;
                      om_3 := a_content a; om_after := rest |}) as Tag.
  { intros p ws1 Htag Hok. rewrite execOperation_unfold. unfold wire. rewrite Htag.
    unfold tagText. rewrite <- !app_assoc. rewrite app_nil_l.
    by rewrite (matchOperationAt_at _ _ _ _ _ Hne Hdq Hok Hclose). }
  unfold startTag in Tag. destruct (a_path a) as [|c path] eqn:Ep.
  - by apply (Tag None []).
  - apply (Tag (Some (c :: path)) [sp]); [done|].
    split_and!; try done. by repeat constructor.
Qed.

Lemma parseLoop_script items tail : forall fuel operations,
  Forall (fun it : str * Action => (lt ∉ it.1) /\ wellFormed it.2) items -> lt ∉ tail ->
  length items < fuel ->
  parseLoop toUpperCase fuel (script items tail) operations
  = foldl pushOperation operations (operationOf <$> (snd <$> items)).
Proof.
  induction items as [|[sep a] items IH]; intros fuel operations Hit Ht Hf.
  - destruct fuel as [|fuel]; [simpl in Hf; lia|]. rewrite parseLoop_S.
    unfold script. simpl. by rewrite execOperation_none.
  - apply Forall_cons in Hit as [[Hsep Ha] Hit]. simpl in Hsep, Ha.
    destruct fuel as [|fuel]; [simpl in Hf; lia|]. rewrite parseLoop_S, script_cons.
    rewrite <- app_assoc, (execOperation_wire _ _ _ Hsep Ha). cbn [om_after].
    rewrite IH by (simpl in Hf; try done; lia).
    unfold operationOfMatch, operationOf. cbn [om_1 om_2 om_3 fmap list_fmap foldl snd].
    by rewrite default_path.
Qed.

Lemma script_length items tail : 2 * length items <= length (script items tail).
Proof.
  induction items as [|[sep a] items IH]; [simpl; lia|].
  rewrite script_cons, !length_app. unfold wire. rewrite !length_app, closingTag_length.
  simpl. lia.
Qed.

End BatchParser.

Section BatchAndStream.
Import OperationParser.

(** [toUpperCase] on ASCII text. *)
Definition asciiUpperCase (s : str) : str := canonicalize true <$> s.

(** X20. On a response made of well-formed actions (no double quote in
    a path, no closing tag inside a content, a path on every DELETE),
    each preceded by text without [<], the batch parser reads the
    actions in order, with the type and the path as written and the
    content trimmed, and drops an action that repeats the type, the
    path and the first fifty characters of the trimmed content of an
    earlier one. *)
Theorem batch_parser_reads_well_formed_response
    (toUpperCase : str -> str) (items : list (str * Action)) (tail : str) :
  (forall t, toUpperCase (typeName t) = typeName t) ->
  Forall (fun it : str * Action => (lt ∉ it.1) /\ wellFormed it.2) items ->
  lt ∉ tail ->
  parseTagBasedOperations toUpperCase (script items tail)
  = foldl pushOperation []
      ((fun a => {| o_type := typeName (a_type a); o_path := a_path a;
                    o_content := trim (a_content a) |}) <$> (snd <$> items)).
Proof.
  intros Hup Hit Ht. unfold parseTagBasedOperations.
  destruct (decide (length (script items tail) = 0)) as [Hz|Hnz].
  { pose proof (script_length items tail) as Hl. destruct items; [|simpl in Hl; lia].
    by rewrite Hz. }
  rewrite (parseLoop_script toUpperCase items tail) by
    (try done; pose proof (script_length items tail); lia).
  f_equal. apply list_fmap_ext. intros i a _. unfold operationOf. by rewrite Hup.
Qed.

Lemma batch_parser_reads_well_formed_response_witness :
  parseTagBasedOperations asciiUpperCase (script (twoActions ++ twoActions) [nl])
  = [ {| o_type := lit "CREATE"; o_path := lit "a.txt"; o_content := lit "hello" |};
      {| o_type := lit "COMMAND"; o_path := []; o_content := lit "npm install" |} ].
Proof.
  rewrite (batch_parser_reads_well_formed_response asciiUpperCase (twoActions ++ twoActions)).
  - by vm_compute.
  - intros t. by destruct t; vm_compute.
  - repeat (apply Forall_cons; split; [|]); try done.
    all: split; [apply (bool_decide_unpack _); by vm_compute|].
    all: split_and!; [apply (bool_decide_unpack _); by vm_compute|by vm_compute|].
    all: intros Hd; discriminate Hd.
  - apply (bool_decide_unpack _). by vm_compute.
Defined.

End BatchAndStream.
